(** * Documentation generator of the cli package (docs.go)

    A shallow embedding of [docs.go]: the flowing and tabular preparation of
    commands and flags, the text preparer and the Markdown table reflow
    ([Prettify]), together with the parts of the Go standard library the file
    calls ([strings], [unicode/utf8], [sort], [regexp]).

    Go strings are immutable byte sequences; they are modelled as lists of
    [ascii] (one [ascii] is one byte).  Go's [int] values occurring in the
    file are rune counts and paddings bounded by the length of the input
    plus two, so they are modelled by [Z] without wrap-around.  A run-time
    panic (index out of range, negative repeat count) is the [None] of the
    option monad. *)

From Stdlib Require Import List Ascii ZArith NArith Lia Bool Arith.
From Stdlib Require String.
Import String.StringSyntax.

Delimit Scope string_scope with string.
From Stdlib Require Import Permutation Sorted.
Import ListNotations.

(** ** Bytes and strings *)

Definition str := list ascii.

Definition lit (s : String.string) : str := String.list_ascii_of_string s.

Arguments lit s%_string.

Definition code (c : ascii) : N := N_of_ascii c.

Definition NL : ascii := ascii_of_N 10.
Definition CR : ascii := ascii_of_N 13.
Definition TAB : ascii := ascii_of_N 9.
Definition SP : ascii := ascii_of_N 32.
Definition QUOTE : ascii := ascii_of_N 34.

(** The option monad of panicking code. *)
Definition bind {A B : Type} (m : option A) (f : A -> option B) : option B :=
  match m with
  | Some a => f a
  | None => None
  end.

Notation "x <- m ;; k" := (bind m (fun x => k))
  (at level 61, m at next level, right associativity).

(** ** Package unicode/utf8 *)

Module utf8.

(** [RuneSelf]: bytes below it are single-byte runes. *)
Definition RuneSelf : N := 128.

Definition inRange (lo hi : N) (c : ascii) : bool :=
  ((lo <=? code c) && (code c <=? hi))%N.

(** Continuation bytes [locb..hicb]. *)
Definition isCont (c : ascii) : bool := inRange 128 191 c.

(** The table [first] together with [acceptRanges]: for a leading byte the
    size of the sequence and the range accepted for the second byte;
    [None] is the entry [xx] (invalid leading byte). *)
Definition first (c : ascii) : option (nat * (N * N)) :=
  let n := code c in
  (if n <? 194 then None
   else if n <=? 223 then Some (2%nat, (128, 191))
   else if n =? 224 then Some (3%nat, (160, 191))
   else if n <=? 236 then Some (3%nat, (128, 191))
   else if n =? 237 then Some (3%nat, (128, 159))
   else if n <=? 239 then Some (3%nat, (128, 191))
   else if n =? 240 then Some (4%nat, (144, 191))
   else if n <=? 243 then Some (4%nat, (128, 191))
   else if n =? 244 then Some (4%nat, (128, 143))
   else None)%N.

(** Number of bytes the loop of [RuneCountInString] advances by when the
    byte [c] is followed by [rest]: the size of a valid encoding, and 1 for
    an ASCII byte and for every invalid or short sequence. *)
Definition advance (c : ascii) (rest : str) : nat :=
  if (code c <? RuneSelf)%N then 1
  else match first c with
       | None => 1
       | Some (size, (lo, hi)) =>
         if length rest <? size - 1 then 1
         else match rest with
              | c1 :: r1 =>
                if negb (inRange lo hi c1) then 1
                else if size =? 2 then 2
                else match r1 with
                     | c2 :: r2 =>
                       if negb (isCont c2) then 1
                       else if size =? 3 then 3
                       else match r2 with
                            | c3 :: _ => if negb (isCont c3) then 1 else 4
                            | [] => 1
                            end
                     | [] => 1
                     end
              | [] => 1
              end
       end.

(** The counting loop: [skip] bytes of the current rune are still to be
    passed over; a new rune starts when [skip] is 0. *)
Fixpoint count (skip : nat) (s : str) : Z :=
  match s with
  | [] => 0
  | c :: s' =>
    match skip with
    | S k => count k s'
    | O => 1 + count (advance c s' - 1) s'
    end
  end%Z.

Definition RuneCountInString (s : str) : Z := count 0 s.

End utf8.

(** ** Package strings *)

Module strings.

Definition inSet (cutset : str) (c : ascii) : bool :=
  existsb (Ascii.eqb c) cutset.

Fixpoint dropWhile (p : ascii -> bool) (s : str) : str :=
  match s with
  | [] => []
  | c :: s' => if p c then dropWhile p s' else s
  end.

(** [TrimLeft], [TrimRight] and [Trim] for a cutset of ASCII bytes (every
    cutset of docs.go is one): the library then works byte by byte, and
    [Trim] trims the right end first. *)
Definition TrimLeft (s cutset : str) : str := dropWhile (inSet cutset) s.

Definition TrimRight (s cutset : str) : str :=
  rev (dropWhile (inSet cutset) (rev s)).

Definition Trim (s cutset : str) : str :=
  TrimLeft (TrimRight s cutset) cutset.

(** [asciiSpace]: tab, newline, vertical tab, form feed, carriage return,
    space. *)
Definition isAsciiSpace (c : ascii) : bool :=
  let n := code c in
  ((n =? 9) || (n =? 10) || (n =? 11) || (n =? 12) || (n =? 13) || (n =? 32))%N.

(** The three-byte encodings of the runes of [unicode.IsSpace]:
    U+1680, U+2000..U+200A, U+2028, U+2029, U+202F, U+205F, U+3000. *)
Definition isSpace3 (b0 b1 b2 : N) : bool :=
  (((b0 =? 225) && (b1 =? 154) && (b2 =? 128))
   || ((b0 =? 226) && (b1 =? 128)
       && (((128 <=? b2) && (b2 <=? 138)) || (b2 =? 168) || (b2 =? 169) || (b2 =? 175)))
   || ((b0 =? 226) && (b1 =? 129) && (b2 =? 159))
   || ((b0 =? 227) && (b1 =? 128) && (b2 =? 128)))%N.

(** The two-byte encodings: U+0085 and U+00A0. *)
Definition isSpace2 (b0 b1 : N) : bool :=
  ((b0 =? 194) && ((b1 =? 133) || (b1 =? 160)))%N.

(** Width in bytes of the white-space rune [s] starts with, 0 when the
    first rune of [s] is not white space ([utf8.DecodeRuneInString]
    followed by [unicode.IsSpace]; an invalid sequence decodes to
    U+FFFD, which is not white space). *)
Definition spaceWidth (s : str) : nat :=
  match s with
  | [] => 0
  | c0 :: r0 =>
    if isAsciiSpace c0 then 1
    else match r0 with
         | [] => 0
         | c1 :: r1 =>
           if isSpace2 (code c0) (code c1) then 2
           else match r1 with
                | [] => 0
                | c2 :: _ => if isSpace3 (code c0) (code c1) (code c2) then 3 else 0
                end
         end
  end.

(** The same for the last rune, on the reversed string
    ([utf8.DecodeLastRuneInString]). *)
Definition spaceWidthLast (r : str) : nat :=
  match r with
  | [] => 0
  | c0 :: r0 =>
    if isAsciiSpace c0 then 1
    else match r0 with
         | [] => 0
         | c1 :: r1 =>
           if isSpace2 (code c1) (code c0) then 2
           else match r1 with
                | [] => 0
                | c2 :: _ => if isSpace3 (code c2) (code c1) (code c0) then 3 else 0
                end
         end
  end.

Fixpoint trimSpaces (width : str -> nat) (fuel : nat) (s : str) : str :=
  match fuel with
  | O => s
  | S fuel' =>
    match width s with
    | O => s
    | w => trimSpaces width fuel' (skipn w s)
    end
  end.

(** Strings made of white-space runes only, [width] being [spaceWidth]
    or, for reversed strings, [spaceWidthLast]. *)
Inductive runs (width : str -> nat) : str -> Prop :=
| runs_nil : runs width []
| runs_cons : forall w l,
    w <> [] -> width w = length w -> runs width l -> runs width (w ++ l).

Definition trimLeftSpace (s : str) : str := trimSpaces spaceWidth (length s) s.

Definition trimRightSpace (s : str) : str :=
  rev (trimSpaces spaceWidthLast (length s) (rev s)).

Definition TrimSpace (s : str) : str := trimRightSpace (trimLeftSpace s).

(** [FieldsFunc s f] for a predicate [f] on ASCII bytes: the maximal
    non-empty runs of bytes that do not satisfy [f].  [cur] is the field
    being read, reversed. *)
Fixpoint fields (f : ascii -> bool) (cur : option str) (s : str) : list str :=
  match s with
  | [] => match cur with Some w => [rev w] | None => [] end
  | c :: s' =>
    if f c then
      match cur with
      | Some w => rev w :: fields f None s'
      | None => fields f None s'
      end
    else fields f (Some (c :: match cur with Some w => w | None => [] end)) s'
  end.

Definition FieldsFunc (s : str) (f : ascii -> bool) : list str := fields f None s.

(** [Split s sep] for a one-byte separator: empty fields are kept. *)
Fixpoint splitOn (sep : ascii) (cur : str) (s : str) : list str :=
  match s with
  | [] => [rev cur]
  | c :: s' =>
    if Ascii.eqb c sep then rev cur :: splitOn sep [] s'
    else splitOn sep (c :: cur) s'
  end.

Definition Split (s : str) (sep : ascii) : list str := splitOn sep [] s.

Fixpoint Join (elems : list str) (sep : str) : str :=
  match elems with
  | [] => []
  | [e] => e
  | e :: rest => e ++ sep ++ Join rest sep
  end.

(** [Repeat] panics on a negative count. *)
Definition Repeat (s : str) (count : Z) : option str :=
  if (count <? 0)%Z then None
  else Some (concat (repeat s (Z.to_nat count))).

Fixpoint HasPrefix (s prefix : str) {struct prefix} : bool :=
  match prefix, s with
  | [], _ => true
  | p :: prefix', c :: s' => Ascii.eqb c p && HasPrefix s' prefix'
  | _ :: _, [] => false
  end.

Definition HasSuffix (s suffix : str) : bool := HasPrefix (rev s) (rev suffix).

Fixpoint Contains (s substr : str) : bool :=
  HasPrefix s substr
  || match s with
     | [] => false
     | _ :: s' => Contains s' substr
     end.

(** [Replace s old new n] for a non-empty [old]: the first [n]
    non-overlapping occurrences are replaced, all of them when [n < 0].
    [skip] bytes of an occurrence just replaced are still to be dropped. *)
Fixpoint replace (old new : str) (n : Z) (skip : nat) (s : str) : str :=
  match s with
  | [] => []
  | c :: s' =>
    match skip with
    | S k => replace old new n k s'
    | O =>
      if (n =? 0)%Z then s
      else if HasPrefix s old
           then new ++ replace old new (n - 1) (length old - 1) s'
           else c :: replace old new n 0 s'
    end
  end.

Definition Replace (s old new : str) (n : Z) : str := replace old new n 0 s.

Definition ReplaceAll (s old new : str) : str := Replace s old new (-1).

End strings.

(** ** Package sort *)

Module sort.

(** Go's [<] on strings: bytewise lexicographic order. *)
Fixpoint leb (a b : str) : bool :=
  match a, b with
  | [], _ => true
  | _ :: _, [] => false
  | x :: a', y :: b' =>
    if (code x <? code y)%N then true
    else if (code y <? code x)%N then false
    else leb a' b'
  end.

Fixpoint insert (x : str) (l : list str) : list str :=
  match l with
  | [] => [x]
  | y :: l' => if leb x y then x :: l else y :: insert x l'
  end.

(** [sort.Strings] returns the increasing arrangement of its argument;
    equal strings are indistinguishable, so every correct sorting
    algorithm computes this list. *)
Fixpoint Strings (l : list str) : list str :=
  match l with
  | [] => []
  | x :: l' => insert x (Strings l')
  end.

End sort.

(** ** Package regexp

    Go's [regexp] returns the leftmost match and, among the matches that
    start there, the one a backtracking matcher finds first.  The matcher
    below is that backtracking search, in continuation-passing style; it
    works on bytes, which agrees with matching on runes for expressions
    whose literals are ASCII, as those of docs.go are. *)

Module regexp.

Inductive re : Type :=
| Lit (c : ascii)            (* one literal byte *)
| NotLit (c : ascii)         (* [^c] *)
| Cat (r1 r2 : re)
| Star (r : re)              (* greedy r* *)
| Quest (r : re)             (* greedy r? *)
| BeginLine                  (* ^ under the flag m *)
| EndLine.                   (* $ under the flag m *)

(** Greedy [r+]. *)
Definition Plus (r : re) : re := Cat r (Star r).

Definition orElse {A : Type} (a b : option A) : option A :=
  match a with
  | Some _ => a
  | None => b
  end.

(** The loop of a greedy star: [m] matches the starred expression; [n]
    bounds the number of iterations, each of which consumes at least one
    byte. *)
Fixpoint starLoop (m : option ascii -> str -> (option ascii -> str -> option str)
                       -> option str)
         (k : option ascii -> str -> option str)
         (n : nat) (prev : option ascii) (s : str) {struct n} : option str :=
  match n with
  | O => k prev s
  | S n' =>
    orElse
      (m prev s (fun p' s' => if length s' <? length s then starLoop m k n' p' s'
                              else None))
      (k prev s)
  end.

(** [exec r prev s k]: match [r] at the beginning of [s], the byte before
    which is [prev], and continue with [k]; alternatives are tried in the
    order of their priority and the first overall success is returned. *)
Fixpoint exec (r : re) (prev : option ascii) (s : str)
         (k : option ascii -> str -> option str) {struct r} : option str :=
  match r with
  | Lit c =>
    match s with
    | x :: s' => if Ascii.eqb x c then k (Some x) s' else None
    | [] => None
    end
  | NotLit c =>
    match s with
    | x :: s' => if Ascii.eqb x c then None else k (Some x) s'
    | [] => None
    end
  | Cat r1 r2 => exec r1 prev s (fun p' s' => exec r2 p' s' k)
  | Star r1 => starLoop (exec r1) k (length s) prev s
  | Quest r1 => orElse (exec r1 prev s k) (k prev s)
  | BeginLine =>
    match prev with
    | None => k prev s
    | Some x => if Ascii.eqb x NL then k prev s else None
    end
  | EndLine =>
    match s with
    | [] => k prev s
    | x :: _ => if Ascii.eqb x NL then k prev s else None
    end
  end.

(** Length of the match of [r] that starts exactly here, if there is one. *)
Definition matchHere (r : re) (prev : option ascii) (s : str) : option nat :=
  match exec r prev s (fun _ rest => Some rest) with
  | Some rest => Some (length s - length rest)
  | None => None
  end.

(** The scan shared by [FindAllString] and [ReplaceAllString]: successive
    non-overlapping matches from left to right.  [skip] bytes of the last
    match are still to be passed over; [adj] tells that the last match
    ended here (an empty match there is not reported).  [emit] receives
    each match, [keep] each byte outside of the matches. *)
Fixpoint scan {A : Type} (r : re) (emit : str -> list A) (keep : ascii -> list A)
         (prev : option ascii) (skip : nat) (adj : bool) (s : str) : list A :=
  match skip with
  | S k =>
    match s with
    | [] => []
    | c :: s' => scan r emit keep (Some c) k adj s'
    end
  | O =>
    match matchHere r prev s with
    | Some (S m) =>
      emit (firstn (S m) s)
      ++ match s with
         | [] => []
         | c :: s' => scan r emit keep (Some c) m true s'
         end
    | Some O =>
      (if adj then [] else emit [])
      ++ match s with
         | [] => []
         | c :: s' => keep c ++ scan r emit keep (Some c) 0 false s'
         end
    | None =>
      match s with
      | [] => []
      | c :: s' => keep c ++ scan r emit keep (Some c) 0 false s'
      end
    end
  end.

(** [re.FindAllString(s, -1)]. *)
Definition FindAllString (r : re) (s : str) : list str :=
  scan r (fun m => [m]) (fun _ => []) None 0 false s.

(** [re.ReplaceAllString(s, repl)] for a replacement without [$]. *)
Definition ReplaceAllString (r : re) (s repl : str) : str :=
  scan r (fun _ => repl) (fun c => [c]) None 0 false s.

End regexp.

(** ** The object model read by docs.go

    The declarations of [Command], [App] and the flag types live in other
    files of the package; docs.go reads them through the fields and methods
    below. *)

(** The methods of the interface [DocGenerationFlag] that docs.go calls, as
    the values they return. *)
Record DocGenerationFlag : Type := {
  Names : list str;
  TakesValue : bool;
  GetUsage : str;
  GetValue : str;
  GetEnvVars : list str
}.

(** A value of the interface [Flag]: a [*BoolFlag] (which implements
    [DocGenerationFlag]), another flag that implements it, or a flag that
    does not. *)
Inductive Flag : Type :=
| BoolFlag (Value : bool) (d : DocGenerationFlag)
| DocFlag (d : DocGenerationFlag)
| PlainFlag.

(** The type assertion [f.(DocGenerationFlag)]. *)
Definition asDocGenerationFlag (f : Flag) : option DocGenerationFlag :=
  match f with
  | BoolFlag _ d => Some d
  | DocFlag d => Some d
  | PlainFlag => None
  end.

Module Command.

(** The fields of [Command] that docs.go reads; [VisibleFlags] is the
    result of the method of that name. *)
#[local] Unset Elimination Schemes.

Inductive t : Type :=
  mk (Name : str) (Aliases : list str) (Usage UsageText Description ArgsUsage
      Category : str) (Hidden : bool) (VisibleFlags : list Flag)
     (Commands : list t).

#[local] Set Elimination Schemes.

Definition Name (c : t) : str := let 'mk n _ _ _ _ _ _ _ _ _ := c in n.
Definition Aliases (c : t) : list str := let 'mk _ a _ _ _ _ _ _ _ _ := c in a.
Definition Usage (c : t) : str := let 'mk _ _ u _ _ _ _ _ _ _ := c in u.
Definition UsageText (c : t) : str := let 'mk _ _ _ u _ _ _ _ _ _ := c in u.
Definition Description (c : t) : str := let 'mk _ _ _ _ d _ _ _ _ _ := c in d.
Definition ArgsUsage (c : t) : str := let 'mk _ _ _ _ _ a _ _ _ _ := c in a.
Definition Category (c : t) : str := let 'mk _ _ _ _ _ _ g _ _ _ := c in g.
Definition Hidden (c : t) : bool := let 'mk _ _ _ _ _ _ _ h _ _ := c in h.
Definition VisibleFlags (c : t) : list Flag := let 'mk _ _ _ _ _ _ _ _ f _ := c in f.
Definition Commands (c : t) : list t := let 'mk _ _ _ _ _ _ _ _ _ s := c in s.

(** Modelled from the spec: the method [Names] of [Command], which is not
    in docs.go; the spec calls its result the joined alias/name list: the
    name followed by the aliases. *)
Definition Names (c : t) : list str := Name c :: Aliases c.

End Command.

Module App.

Record t : Type := mk {
  Name : str;
  Usage : str;
  UsageText : str;
  ArgsUsage : str;
  Description : str;
  VisibleFlags : list Flag;
  Commands : list Command.t
}.

(** Modelled from the spec: the method [VisibleCommands] of [App], which is
    not in docs.go; the spec calls its result the ordered sequence of
    visible top-level commands: the commands that are not hidden. *)
Definition VisibleCommands (a : t) : list Command.t :=
  filter (fun c => negb (Command.Hidden c)) (Commands a).

End App.

(** ** docs.go: flowing Markdown *)

Definition repeatString (s : str) (n : nat) : str := concat (repeat s n).

(** flagDetails returns a string containing the flags metadata *)
Definition flagDetails (flag : DocGenerationFlag) : str :=
  let description := GetUsage flag in
  let value := GetValue flag in
  let description :=
      match value with
      | [] => description
      | _ => description ++ lit " (default: " ++ value ++ lit ")"
      end in
  lit ": " ++ description.

(** The loop over [flag.Names()] of [prepareFlags]. *)
Definition prepareFlagNames (names : list str) (sep opener : str) : str :=
  fold_left
    (fun modifiedArg s =>
       let trimmed := strings.TrimSpace s in
       let modifiedArg :=
           if length opener <? length modifiedArg then modifiedArg ++ sep
           else modifiedArg in
       if 1 <? length trimmed then modifiedArg ++ lit "--" ++ trimmed
       else modifiedArg ++ lit "-" ++ trimmed)
    names opener.

(** The string [prepareFlags] builds for one flag. *)
Definition prepareFlag (flag : DocGenerationFlag)
           (sep opener closer value : str) (addDetails : bool) : str :=
  let modifiedArg := prepareFlagNames (Names flag) sep opener in
  let modifiedArg := modifiedArg ++ closer in
  let modifiedArg :=
      if TakesValue flag then modifiedArg ++ lit "=" ++ value else modifiedArg in
  let modifiedArg :=
      if addDetails then modifiedArg ++ flagDetails flag else modifiedArg in
  modifiedArg ++ [NL].

Definition prepareFlags (flags : list Flag) (sep opener closer value : str)
           (addDetails : bool) : list str :=
  let args :=
      fold_left
        (fun args f =>
           match asDocGenerationFlag f with
           | None => args
           | Some flag => args ++ [prepareFlag flag sep opener closer value addDetails]
           end)
        flags [] in
  sort.Strings args.

Definition prepareArgsWithValues (flags : list Flag) : list str :=
  prepareFlags flags (lit ", ") (lit "**") (lit "**") [QUOTE; QUOTE] true.

Definition prepareArgsSynopsis (flags : list Flag) : list str :=
  prepareFlags flags (lit "|") (lit "[") (lit "]") (lit "[value]") false.

Definition prepareUsageText (command : Command.t) : str :=
  match Command.UsageText command with
  | [] => []
  | _ =>
    (* Remove leading and trailing newlines *)
    let preparedUsageText := strings.Trim (Command.UsageText command) [NL] in
    if strings.Contains preparedUsageText [NL] then
      fold_left (fun usageText ln => usageText ++ lit "    " ++ ln ++ [NL])
                (strings.Split preparedUsageText NL) []
    else lit ">" ++ preparedUsageText ++ [NL]
  end.

Definition prepareUsage (command : Command.t) (usageText : str) : str :=
  match Command.Usage command with
  | [] => []
  | _ =>
    let usage := Command.Usage command ++ [NL] in
    (* Add a newline to the Usage IFF there is a UsageText *)
    match usageText with
    | [] => usage
    | _ => usage ++ [NL]
    end
  end.

(** The block [prepareCommands] emits for one command that is not hidden.
    [level] is never negative ([writeDocTemplate] passes 0), so the repeat
    count [level+2] is a natural number. *)
Definition preparedBlock (command : Command.t) (level : nat) : str :=
  let usageText := prepareUsageText command in
  let usage := prepareUsage command usageText in
  let prepared :=
      repeatString (lit "#") (level + 2) ++ lit " "
      ++ strings.Join (Command.Names command) (lit ", ") ++ [NL; NL]
      ++ usage ++ usageText in
  let flags := prepareArgsWithValues (Command.VisibleFlags command) in
  if 0 <? length flags then prepared ++ [NL] ++ strings.Join flags [NL]
  else prepared.

(** One iteration of the loop of [prepareCommands], and the loop. *)
Fixpoint prepareCommand (level : nat) (command : Command.t) {struct command}
  : list str :=
  if Command.Hidden command then []
  else
    preparedBlock command level
    :: (* recursively iterate subcommands *)
       match command with
       | Command.mk _ _ _ _ _ _ _ _ _ subs =>
         if 0 <? length subs then flat_map (prepareCommand (level + 1)) subs
         else []
       end.

Definition prepareCommands (commands : list Command.t) (level : nat) : list str :=
  flat_map (prepareCommand level) commands.

(** The field [Commands] of the template data of [writeDocTemplate]. *)
Definition flowingCommands (a : App.t) : list str :=
  prepareCommands (App.Commands a) 0.

(** ** docs.go: tabular Markdown *)

Module cliTabularFlagTemplate.

Record t : Type := mk {
  Name : str;
  Aliases : list str;
  Usage : str;
  TakesValue : bool;
  Default : str;
  EnvVars : list str
}.

End cliTabularFlagTemplate.

Module cliTabularCommandTemplate.

#[local] Unset Elimination Schemes.

Inductive t : Type :=
  mk (AppPath Name : str) (Aliases : list str) (Usage ArgsUsage : str)
     (UsageText : list str) (Description Category : str)
     (Flags : list cliTabularFlagTemplate.t) (SubCommands : list t)
     (Level : N).

#[local] Set Elimination Schemes.

Definition Name (c : t) : str := let 'mk _ n _ _ _ _ _ _ _ _ _ := c in n.
Definition SubCommands (c : t) : list t := let 'mk _ _ _ _ _ _ _ _ _ s _ := c in s.
Definition Level (c : t) : N := let 'mk _ _ _ _ _ _ _ _ _ _ l := c in l.
Definition Flags (c : t) : list cliTabularFlagTemplate.t :=
  let 'mk _ _ _ _ _ _ _ _ f _ _ := c in f.

End cliTabularCommandTemplate.

Definition FormatBool (b : bool) : str := if b then lit "true" else lit "false".

(** Go's [uint], where it has 64 bits: the numbers below [uintRange], with
    an addition that wraps around. *)
Definition uintRange : N := 2 ^ 64.

Definition uintAdd (x y : N) : N := ((x + y) mod uintRange)%N.

Definition isNewline (r : ascii) : bool := Ascii.eqb r NL.
Definition isPipe (r : ascii) : bool := Ascii.eqb r "|"%char.

(** The methods of [tabularTemplate]. *)
Module tabularTemplate.

(** The cutset of [PrepareMultilineString]: period, carriage return,
    newline, tab. *)
Definition trailingSet : str := ["."%char; CR; NL; TAB].

(** PrepareMultilineString prepares a string (removes line breaks). *)
Definition PrepareMultilineString (s : str) : str :=
  strings.TrimRight
    (strings.TrimSpace (strings.ReplaceAll s [NL] [SP]))
    trailingSet.

(** The loop over [flag.Names()] of [PrepareFlags]; [i] is the index of
    the first name of [names]. *)
Fixpoint prepareNames (i : nat) (names : list str) (f : cliTabularFlagTemplate.t)
  : cliTabularFlagTemplate.t :=
  match names with
  | [] => f
  | name :: names' =>
    let name := strings.TrimSpace name in
    if i =? 0 then
      prepareNames (S i) names'
        {| cliTabularFlagTemplate.Name := lit "--" ++ name;
           cliTabularFlagTemplate.Aliases := cliTabularFlagTemplate.Aliases f;
           cliTabularFlagTemplate.Usage := cliTabularFlagTemplate.Usage f;
           cliTabularFlagTemplate.TakesValue := cliTabularFlagTemplate.TakesValue f;
           cliTabularFlagTemplate.Default := cliTabularFlagTemplate.Default f;
           cliTabularFlagTemplate.EnvVars := cliTabularFlagTemplate.EnvVars f |}
    else
      let name := if 1 <? length name then lit "--" ++ name else lit "-" ++ name in
      prepareNames (S i) names'
        {| cliTabularFlagTemplate.Name := cliTabularFlagTemplate.Name f;
           cliTabularFlagTemplate.Aliases := cliTabularFlagTemplate.Aliases f ++ [name];
           cliTabularFlagTemplate.Usage := cliTabularFlagTemplate.Usage f;
           cliTabularFlagTemplate.TakesValue := cliTabularFlagTemplate.TakesValue f;
           cliTabularFlagTemplate.Default := cliTabularFlagTemplate.Default f;
           cliTabularFlagTemplate.EnvVars := cliTabularFlagTemplate.EnvVars f |}
  end.

(** The record [PrepareFlags] builds for one flag that implements
    [DocGenerationFlag]. *)
Definition PrepareFlag (appFlag : Flag) (flag : DocGenerationFlag)
  : cliTabularFlagTemplate.t :=
  let f := {| cliTabularFlagTemplate.Name := [];
              cliTabularFlagTemplate.Aliases := [];
              cliTabularFlagTemplate.Usage := PrepareMultilineString (GetUsage flag);
              cliTabularFlagTemplate.TakesValue := TakesValue flag;
              cliTabularFlagTemplate.Default := GetValue flag;
              cliTabularFlagTemplate.EnvVars := GetEnvVars flag |} in
  let f :=
      match appFlag with
      | BoolFlag Value _ =>
        {| cliTabularFlagTemplate.Name := cliTabularFlagTemplate.Name f;
           cliTabularFlagTemplate.Aliases := cliTabularFlagTemplate.Aliases f;
           cliTabularFlagTemplate.Usage := cliTabularFlagTemplate.Usage f;
           cliTabularFlagTemplate.TakesValue := cliTabularFlagTemplate.TakesValue f;
           cliTabularFlagTemplate.Default := FormatBool Value;
           cliTabularFlagTemplate.EnvVars := cliTabularFlagTemplate.EnvVars f |}
      | _ => f
      end in
  prepareNames 0 (Names flag) f.

(** PrepareFlags converts CLI flags into a structs for the rendering. *)
Definition PrepareFlags (flags : list Flag) : list cliTabularFlagTemplate.t :=
  fold_left
    (fun result appFlag =>
       match asDocGenerationFlag appFlag with
       | None => result
       | Some flag => result ++ [PrepareFlag appFlag flag]
       end)
    flags [].

(** PrepareCommands converts CLI commands into a structs for the rendering. *)
Fixpoint PrepareCommand (appPath parentCommandName : str) (level : N)
         (cmd : Command.t) {struct cmd} : cliTabularCommandTemplate.t :=
  cliTabularCommandTemplate.mk
    appPath
    (strings.TrimSpace (strings.Join [parentCommandName; Command.Name cmd] (lit " ")))
    (Command.Aliases cmd)
    (PrepareMultilineString (Command.Usage cmd))
    (PrepareMultilineString (Command.ArgsUsage cmd))
    (strings.FieldsFunc (Command.UsageText cmd) isNewline)
    (PrepareMultilineString (Command.Description cmd))
    (Command.Category cmd)
    (PrepareFlags (Command.VisibleFlags cmd))
    (* note: recursive call *)
    match cmd with
    | Command.mk _ _ _ _ _ _ _ _ _ subs =>
      map (PrepareCommand appPath
             (strings.Join [parentCommandName; Command.Name cmd] (lit " "))
             (uintAdd level 1)) subs
    end
    level.

Definition PrepareCommands (commands : list Command.t)
           (appPath parentCommandName : str) (level : N)
  : list cliTabularCommandTemplate.t :=
  map (PrepareCommand appPath parentCommandName level) commands.

End tabularTemplate.

(** The field [Commands] of the template data of [ToTabularMarkdown]. *)
Definition tabularCommands (a : App.t) (appPath : str)
  : list cliTabularCommandTemplate.t :=
  tabularTemplate.PrepareCommands (App.VisibleCommands a) appPath [] 0%N.

(** The field [GlobalFlags] of the same. *)
Definition tabularGlobalFlags (a : App.t) : list cliTabularFlagTemplate.t :=
  tabularTemplate.PrepareFlags (App.VisibleFlags a).

(** ** docs.go: the table reflow *)

Module reflow.

Import regexp.

Definition max (x y : Z) : Z := if (x >? y)%Z then x else y.

Definition pipe : re := Lit "|"%char.

(** [\|[^\n]+\|\r?\n] *)
Definition headerRe : re :=
  Cat pipe (Cat (Plus (NotLit NL)) (Cat pipe (Cat (Quest (Lit CR)) (Lit NL)))).

(** [\|:?-+:?], one cell of the separator *)
Definition separatorCellRe : re :=
  Cat pipe (Cat (Quest (Lit ":"%char))
                (Cat (Plus (Lit "-"%char)) (Quest (Lit ":"%char)))).

(** [(?:\|:?-+:?)+\|] *)
Definition separatorRe : re := Cat (Plus separatorCellRe) pipe.

(** [\|[^\n]+\|\r?\n?], one body row *)
Definition rowRe : re :=
  Cat pipe (Cat (Plus (NotLit NL))
                (Cat pipe (Cat (Quest (Lit CR)) (Quest (Lit NL))))).

(** the body: a newline and body rows *)
Definition bodyRe : re := Cat (Lit NL) (Star rowRe).

(** The expression of [Prettify]: under the flag [m], [^], the header,
    the separator, optionally the body, [$]. *)
Definition tableRe : re :=
  Cat BeginLine (Cat headerRe (Cat separatorRe (Cat (Quest bodyRe) EndLine))).

(** [\n{2,}] *)
Definition newlinesRe : re := Cat (Lit NL) (Cat (Lit NL) (Star (Lit NL))).

(** parse table into the matrix *)
Definition parseLine (line : str) : list str :=
  map strings.TrimSpace
      (strings.FieldsFunc (strings.Trim line ("|" :: SP :: nil)%char) isPipe).

Definition parseMatrix (lines : list str) : list (list str) := map parseLine lines.

(** determine centered columns; [separator] is [matrix[1]] *)
Definition isCentered (cell : str) : bool :=
  strings.HasPrefix cell (lit ":") && strings.HasSuffix cell (lit ":").

Definition centeredOf (separator : list str) : list bool := map isCentered separator.

(** [lengths[i] = l]; it panics when [i] is out of range. *)
Fixpoint assign (lengths : list Z) (i : nat) (l : Z) : option (list Z) :=
  match lengths, i with
  | [], _ => None
  | _ :: rest, O => Some (l :: rest)
  | x :: rest, S i' => rest' <- assign rest i' l ;; Some (x :: rest')
  end.

(** calculate max lengths: the inner loop over the cells of row [n],
    from column [i] on *)
Fixpoint lengthsRow (n i : nat) (row : list str) (lengths : list Z)
  : option (list Z) :=
  match row with
  | [] => Some lengths
  | cell :: row' =>
    if n =? 1 then lengthsRow n (S i) row' lengths (* skip separator *)
    else
      let l := utf8.RuneCountInString cell in
      cur <- nth_error lengths i ;;
      lengths' <- (if (l >? cur)%Z then assign lengths i l else Some lengths) ;;
      lengthsRow n (S i) row' lengths'
  end.

(** the outer loop, from row [n] on *)
Fixpoint lengthsRows (n : nat) (matrix : list (list str)) (lengths : list Z)
  : option (list Z) :=
  match matrix with
  | [] => Some lengths
  | row :: matrix' =>
    lengths' <- lengthsRow n 0 row lengths ;;
    lengthsRows (S n) matrix' lengths'
  end.

Definition calcLengths (matrix : list (list str)) : option (list Z) :=
  lengthsRows 0 matrix (repeat 0%Z (length (nth 0 matrix []))).

(** format cells: the new content of [row[j]] in row [i] *)
Definition formatCell (centered : list bool) (lengths : list Z)
           (i j : nat) (cell : str) : option str :=
  if i =? 1 then (* is separator *)
    c <- nth_error centered j ;;
    if (c : bool) then
      len <- nth_error lengths j ;;
      dashes <- strings.Repeat (lit "-") (max 0 len)%Z ;;
      Some (lit ":" ++ dashes ++ lit ":")
    else
      len <- nth_error lengths j ;;
      strings.Repeat (lit "-") (max 0 (len + 2))%Z
  else
    let cellWidth := utf8.RuneCountInString cell in
    len <- nth_error lengths j ;;
    (* align to the left *)
    let padLeft := 1%Z in
    let padRight := max 1 (len - cellWidth + 1)%Z in
    c <- nth_error centered j ;;
    let padLeft := if (c : bool) then max 1 (Z.quot (len - cellWidth) 2)%Z else padLeft in
    let padRight :=
        if c then max 1 (len - cellWidth - (padLeft - 1))%Z else padRight in
    left <- strings.Repeat [SP] padLeft ;;
    let extra :=
        (* add an extra space if the cell is not full *)
        if (padLeft + cellWidth + padRight <=? len + 1)%Z then [SP] else [] in
    right <- strings.Repeat [SP] padRight ;;
    Some (left ++ extra ++ cell ++ right).

Fixpoint formatRow (centered : list bool) (lengths : list Z)
         (i j : nat) (row : list str) : option (list str) :=
  match row with
  | [] => Some []
  | cell :: row' =>
    cell' <- formatCell centered lengths i j cell ;;
    row'' <- formatRow centered lengths i (S j) row' ;;
    Some (cell' :: row'')
  end.

Fixpoint formatRows (centered : list bool) (lengths : list Z)
         (i : nat) (matrix : list (list str)) : option (list (list str)) :=
  match matrix with
  | [] => Some []
  | row :: matrix' =>
    row' <- formatRow centered lengths i 0 row ;;
    matrix'' <- formatRows centered lengths (S i) matrix' ;;
    Some (row' :: matrix'')
  end.

(** build new table *)
Definition buildRow (row : list str) : str :=
  lit "|" ++ strings.Join row (lit "|") ++ lit "|" ++ [NL].

Definition buildTable (matrix : list (list str)) : str :=
  concat (map buildRow matrix).

(** The matrix of formatted cells of a block of at least three lines. *)
Definition formatMatrix (matrix : list (list str)) : option (list (list str)) :=
  let centered := centeredOf (nth 1 matrix []) in
  lengths <- calcLengths matrix ;;
  formatRows centered lengths 0 matrix.

(** The text that replaces a matched block; [None] inside [Some] stands
    for the [continue] on blocks of fewer than three lines. *)
Definition reflowTable (rawTable : str) : option (option str) :=
  let lines := strings.FieldsFunc rawTable isNewline in
  if length lines <? 3 then Some None (* header, separator, body *)
  else
    matrix' <- formatMatrix (parseMatrix lines) ;;
    Some (Some (buildTable matrix')).

(** One iteration of the loop over the matches. *)
Definition step (s : option str) (rawTable : str) : option str :=
  s <- s ;;
  r <- reflowTable rawTable ;;
  match r with
  | None => Some s
  | Some table => Some (strings.Replace s rawTable table 1)
  end.

(** normalize newlines, trim spaces and newlines, add an extra newline *)
Definition cleanup (s : str) : str :=
  let s := ReplaceAllString newlinesRe s [NL; NL] in
  let s := strings.Trim s [SP; NL] in
  s ++ [NL].

End reflow.

Definition Prettify (s : str) : option str :=
  s' <- fold_left reflow.step (regexp.FindAllString reflow.tableRe s) (Some s) ;;
  Some (reflow.cleanup s').

(** ** Notions used to state the properties *)

(** The spelling rule of flag names: one dash in front of a name of at most
    one byte, two dashes in front of a longer one. *)
Definition dashed (name : str) : str :=
  if 1 <? length name then lit "--" ++ name else lit "-" ++ name.

(** The flags that implement [DocGenerationFlag], in their order. *)
Definition docFlags (flags : list Flag) : list DocGenerationFlag :=
  flat_map (fun f => match asDocGenerationFlag f with
                     | Some d => [d]
                     | None => []
                     end) flags.

(** [padded n n']: the name [n'] is [n] with white space added in front of
    it and behind it: runes that [unicode.IsSpace] accepts, of one byte or
    more. *)
Inductive padded : str -> str -> Prop :=
| padded_intro : forall l n r,
    strings.runs strings.spaceWidth l ->
    strings.runs strings.spaceWidth r ->
    padded n (l ++ n ++ r).

(** Two flags that differ only in the white space around their names. *)
Definition docPadded (d d' : DocGenerationFlag) : Prop :=
  Forall2 padded (Names d) (Names d')
  /\ TakesValue d = TakesValue d'
  /\ GetUsage d = GetUsage d'
  /\ GetValue d = GetValue d'
  /\ GetEnvVars d = GetEnvVars d'.

Definition flagPadded (f f' : Flag) : Prop :=
  match f, f' with
  | BoolFlag v d, BoolFlag v' d' => v = v' /\ docPadded d d'
  | DocFlag d, DocFlag d' => docPadded d d'
  | PlainFlag, PlainFlag => True
  | _, _ => False
  end.

(** Increasing lists of strings. *)
Definition sorted (l : list str) : Prop :=
  StronglySorted (fun a b => sort.leb a b = true) l.

(** The nodes of a command tree in pre-order, each with the chain of its
    ancestors, outermost first. *)
Fixpoint nodesOf (ancestors : list Command.t) (c : Command.t) {struct c}
  : list (list Command.t * Command.t) :=
  (ancestors, c)
  :: match c with
     | Command.mk _ _ _ _ _ _ _ _ _ subs =>
       flat_map (nodesOf (ancestors ++ [c])) subs
     end.

Definition nodes (ancestors : list Command.t) (commands : list Command.t)
  : list (list Command.t * Command.t) :=
  flat_map (nodesOf ancestors) commands.

Definition visible (c : Command.t) : bool := negb (Command.Hidden c).

(** A node that is not hidden and has no hidden ancestor. *)
Definition visibleNode (n : list Command.t * Command.t) : bool :=
  forallb visible (fst n) && visible (snd n).

(** The names of the ancestors of a node and its own, joined by spaces. *)
Definition chainName (n : list Command.t * Command.t) : str :=
  strings.Join (map Command.Name (fst n ++ [snd n])) (lit " ").

(** The records of a tabular command tree in pre-order. *)
Fixpoint flatten (t : cliTabularCommandTemplate.t) {struct t}
  : list cliTabularCommandTemplate.t :=
  t :: match t with
       | cliTabularCommandTemplate.mk _ _ _ _ _ _ _ _ _ subs _ =>
         flat_map flatten subs
       end.

(** ASCII bytes. *)
Definition asciiByte (c : ascii) : Prop := (code c < 128)%N.

(** The rune count of the cell of [row] in column [j], 0 when the row has no
    such cell. *)
Definition cellWidth (row : list str) (j : nat) : Z :=
  match nth_error row j with
  | Some cell => utf8.RuneCountInString cell
  | None => 0%Z
  end.

(** The header row and the body rows of a matrix: all rows but the
    separator, which is row 1. *)
Definition measuredRows (matrix : list (list str)) : list (list str) :=
  match matrix with
  | header :: _ :: body => header :: body
  | _ => matrix
  end.

(** The width of column [j]: the largest rune count among the header and
    body cells of the column. *)
Definition columnWidth (matrix : list (list str)) (j : nat) : Z :=
  fold_right Z.max 0%Z (map (fun row => cellWidth row j) (measuredRows matrix)).

(** A matrix whose separator row has as many cells as the header row and
    none of whose rows has more. *)
Definition regular (matrix : list (list str)) : Prop :=
  length (nth 1 matrix []) = length (nth 0 matrix [])
  /\ Forall (fun row => length row <= length (nth 0 matrix [])) matrix.

Definition spaces (n : Z) : str := repeat SP (Z.to_nat n).

(** The cell of row [i] and column [j] of a matrix. *)
Definition cellAt (matrix : list (list str)) (i j : nat) : option str :=
  row <- nth_error matrix i ;; nth_error row j.

(** The rows the widths are measured on, from row [n] of the matrix on. *)
Fixpoint rowsFrom (n : nat) (matrix : list (list str)) : list (list str) :=
  match matrix with
  | [] => []
  | row :: matrix' => (if n =? 1 then [] else [row]) ++ rowsFrom (S n) matrix'
  end.

(** The spaces in front of and behind a cell that is [d] runes narrower
    than its column. *)
Definition leftPad (centered : bool) (d : Z) : Z :=
  if centered then (if (d =? 1)%Z then 2 else (d + 2) / 2)%Z else 1%Z.

Definition rightPad (centered : bool) (d : Z) : Z :=
  (d + 2 - leftPad centered d)%Z.

(** The part of a table line between its first and its last pipe: a
    non-empty run of bytes other than newline. *)
Definition lineBody (b : str) : Prop := b <> [] /\ ~ In NL b.

(** A regenerated separator cell: dashes, or dashes between two colons. *)
Inductive separatorCell : str -> Prop :=
| separator_left : forall m, separatorCell (repeat "-"%char (S m))
| separator_centered : forall m,
    separatorCell (":"%char :: repeat "-"%char (S m) ++ [":"%char]).

(** A table line made of its body, and a separator line made of its cells. *)
Definition tableLine (b : str) : str := lit "|" ++ b ++ lit "|".

Definition separatorLine (cells : list str) : str :=
  concat (map (fun c => lit "|" ++ c) cells) ++ lit "|".

(** The body rows of a table, each ended by a newline. *)
Definition rowsText (bodies : list str) : str :=
  concat (map (fun b => tableLine b ++ [NL]) bodies).

(** Texts without two newlines in a row. *)
Fixpoint singleNewlines (s : str) : Prop :=
  match s with
  | a :: (b :: _) as s' => (a <> NL \/ b <> NL) /\ singleNewlines s'
  | _ => True
  end.

(** A cell [c] between [a] spaces and [b] spaces. *)
Definition render (t : nat * str * nat) : str :=
  let '(a, c, b) := t in repeat SP a ++ c ++ repeat SP b.

Definition content (t : nat * str * nat) : str := let '(_, c, _) := t in c.

(** The bytes [Trim] cuts off the ends of a table line. *)
Definition cutByte (c : ascii) : bool := strings.inSet ["|"%char; SP] c.

(** A cell content that has no pipe and neither starts nor ends with a
    space. *)
Definition core (c : str) : Prop :=
  cutByte (hd SP c) = false /\ cutByte (last c SP) = false
  /\ Forall (fun x => isPipe x = false) c.

(** A parsed cell that is not empty: it is trimmed and holds neither a pipe
    nor a newline. *)
Definition solidCell (c : str) : Prop :=
  c <> [] /\ strings.TrimSpace c = c /\ ~ In "|"%char c /\ ~ In NL c.

(** A row without the spaces in front of its first cell and behind its
    last cell. *)
Definition zeroFirst (ts : list (nat * str * nat)) : list (nat * str * nat) :=
  match ts with
  | (_, c, b) :: ts' => (0, c, b) :: ts'
  | [] => []
  end.

Fixpoint zeroLast (ts : list (nat * str * nat)) : list (nat * str * nat) :=
  match ts with
  | [] => []
  | [(a, c, _)] => [(a, c, 0)]
  | t :: ts' => t :: zeroLast ts'
  end.

(** A matrix with a header row, a separator row and at least one body row,
    all of the same, positive number of cells, whose header and body cells
    are not empty. *)
Definition properMatrix (matrix : list (list str)) : Prop :=
  exists header separator body n,
    matrix = header :: separator :: body
    /\ body <> [] /\ 1 <= n
    /\ Forall (fun row => length row = n) matrix
    /\ Forall (Forall solidCell) (header :: body).

(** The line of a row of cells. *)
Definition lineOf (row : list str) : str := tableLine (strings.Join row (lit "|")).

(** ** Sample inputs *)

(** The flag of scenario B: names [v] and [verbose], no value, no default. *)
Definition flagVerbose : DocGenerationFlag :=
  {| Names := [lit "v"; lit "verbose"];
     TakesValue := false;
     GetUsage := lit "be verbose";
     GetValue := [];
     GetEnvVars := [] |}.

(** The same flag declared with white space around its names: spaces, a
    tab and a no-break space (U+00A0, the bytes 194 and 160). *)
Definition flagVerbosePadded : DocGenerationFlag :=
  {| Names := [lit " v ";
               TAB :: lit "verbose" ++ [ascii_of_N 194; ascii_of_N 160; SP]];
     TakesValue := false;
     GetUsage := lit "be verbose";
     GetValue := [];
     GetEnvVars := [] |}.

Definition flagOutput : DocGenerationFlag :=
  {| Names := [lit "output"; lit "o"];
     TakesValue := true;
     GetUsage := lit "output file";
     GetValue := lit "out.txt";
     GetEnvVars := [lit "OUT"] |}.

(** Lines joined into a text, each one ended by a newline. *)
Definition text (lines : list str) : str :=
  concat (map (fun line => line ++ [NL]) lines).

Definition command (name : String.string) (hidden : bool) (subs : list Command.t)
  : Command.t :=
  Command.mk (lit name) [] [] [] [] [] [] hidden [] subs.

Arguments command name%_string hidden subs.

(** A hidden command with a child that is not hidden. *)
Definition hiddenParent : Command.t :=
  command "secret" true [command "child" false []].

(** A command that is not hidden, with the hidden command below it. *)
Definition nestedHidden : Command.t := command "top" false [hiddenParent].

(** A tree without hidden commands below the top level. *)
Definition plainTree : list Command.t :=
  [command "config" false [command "get" false []; command "set" false []];
   command "debug" true [command "dump" false []]].

Definition appOf (commands : list Command.t) : App.t :=
  {| App.Name := lit "app";
     App.Usage := [];
     App.UsageText := [];
     App.ArgsUsage := [];
     App.Description := [];
     App.VisibleFlags := [];
     App.Commands := commands |}.

(** The table of scenario A and its reflowed form. *)
Definition tableA : str :=
  text [lit "|Name|Usage|"; lit "|-|-|"; lit "|f|x|"; lit "|foo|a long usage string|"].

Definition tableAReflowed : str :=
  text [lit "| Name | Usage               |";
        lit "|------|---------------------|";
        lit "| f    | x                   |";
        lit "| foo  | a long usage string |"].

(** A centered column of width 2 with a cell of width 1. *)
Definition centeredTable : str := text [lit "|ab|"; lit "|:-:|"; lit "|c|"].

(** A body row with more cells than the header, and one with fewer. *)
Definition longRowTable : str := text [lit "|a|"; lit "|-|"; lit "|b|c|"].

Definition shortRowTable : str := text [lit "|a|b|"; lit "|-|-|"; lit "|c|"].

(** A header and a separator without body rows. *)
Definition headerOnlyTable : str := text [lit "|a|"; lit "|-|"].





(** ** docs.go: the options and the data of the tabular template *)

Module tabularOptions.

Record t : Type := mk { appPath : str }.

End tabularOptions.

Definition TabularOption : Type := tabularOptions.t -> tabularOptions.t.

(** WithTabularAppPath allows to override the default app path. *)
Definition WithTabularAppPath (path : str) : TabularOption :=
  fun o => {| tabularOptions.appPath := path |}.

Module cliTabularAppTemplate.

Record t : Type := mk {
  AppPath : str;
  Name : str;
  Usage : str;
  ArgsUsage : str;
  UsageText : list str;
  Description : str;
  GlobalFlags : list cliTabularFlagTemplate.t;
  Commands : list cliTabularCommandTemplate.t
}.

End cliTabularAppTemplate.

(** The options of [ToTabularMarkdown]: each one is applied, in its turn,
    to the default. *)
Definition applyOptions (opts : list TabularOption) : tabularOptions.t :=
  fold_left (fun o opt => opt o) opts {| tabularOptions.appPath := lit "app" |}.

(** The data on which [ToTabularMarkdown] executes its template. *)
Definition tabularData (a : App.t) (opts : list TabularOption)
  : cliTabularAppTemplate.t :=
  let o := applyOptions opts in
  {| cliTabularAppTemplate.AppPath := tabularOptions.appPath o;
     cliTabularAppTemplate.Name := App.Name a;
     cliTabularAppTemplate.Description :=
       tabularTemplate.PrepareMultilineString (App.Description a);
     cliTabularAppTemplate.Usage :=
       tabularTemplate.PrepareMultilineString (App.Usage a);
     cliTabularAppTemplate.UsageText :=
       strings.FieldsFunc (App.UsageText a) isNewline;
     cliTabularAppTemplate.ArgsUsage :=
       tabularTemplate.PrepareMultilineString (App.ArgsUsage a);
     cliTabularAppTemplate.GlobalFlags :=
       tabularTemplate.PrepareFlags (App.VisibleFlags a);
     cliTabularAppTemplate.Commands :=
       tabularTemplate.PrepareCommands (App.VisibleCommands a)
                                       (tabularOptions.appPath o) [] 0%N |}.

(** The other fields of a [cliTabularCommandTemplate]. *)
Module commandRecord.

Definition AppPath (c : cliTabularCommandTemplate.t) : str :=
  let 'cliTabularCommandTemplate.mk a _ _ _ _ _ _ _ _ _ _ := c in a.
Definition Aliases (c : cliTabularCommandTemplate.t) : list str :=
  let 'cliTabularCommandTemplate.mk _ _ a _ _ _ _ _ _ _ _ := c in a.
Definition Usage (c : cliTabularCommandTemplate.t) : str :=
  let 'cliTabularCommandTemplate.mk _ _ _ u _ _ _ _ _ _ _ := c in u.
Definition ArgsUsage (c : cliTabularCommandTemplate.t) : str :=
  let 'cliTabularCommandTemplate.mk _ _ _ _ a _ _ _ _ _ _ := c in a.
Definition UsageText (c : cliTabularCommandTemplate.t) : list str :=
  let 'cliTabularCommandTemplate.mk _ _ _ _ _ u _ _ _ _ _ := c in u.
Definition Description (c : cliTabularCommandTemplate.t) : str :=
  let 'cliTabularCommandTemplate.mk _ _ _ _ _ _ d _ _ _ _ := c in d.
Definition Category (c : cliTabularCommandTemplate.t) : str :=
  let 'cliTabularCommandTemplate.mk _ _ _ _ _ _ _ g _ _ _ := c in g.

End commandRecord.

(** ** Further notions *)

(** A text with every run of newlines cut down to two of them; [n]
    newlines of the run that ends here have been read. *)
Fixpoint squeeze (n : nat) (s : str) : str :=
  match s with
  | [] => []
  | c :: s' =>
    if Ascii.eqb c NL then (if n <? 2 then [NL] else []) ++ squeeze (S n) s'
    else c :: squeeze 0 s'
  end.

(** Texts without three newlines in a row, behind [n] newlines. *)
Fixpoint capped (n : nat) (s : str) : bool :=
  match s with
  | [] => true
  | c :: s' =>
    if Ascii.eqb c NL then (n <? 2) && capped (S n) s' else capped 0 s'
  end.

(** A matrix on which the reflow runs out of the bounds of a slice: its
    separator row does not have as many cells as its header row, or one of
    its rows has more cells than the header row. *)
Definition irregular (matrix : list (list str)) : Prop :=
  length (nth 1 matrix []) <> length (nth 0 matrix [])
  \/ Exists (fun row => length (nth 0 matrix []) < length row) matrix.

(** ** Further sample inputs *)

(** A text without tables, with spaces in front, four newlines in a row
    and a space behind; and its normal form. *)
Definition blankLinesText : str :=
  lit "  one" ++ [NL; NL; NL; NL] ++ lit "two " ++ [NL; NL].

Definition blankLinesNormal : str := lit "one" ++ [NL; NL] ++ lit "two" ++ [NL].

(** A table whose separator cell has a colon on its left side only. *)
Definition oneSidedTable : str := text [lit "|ab|"; lit "|:-|"; lit "|c|"].

(** A document with a table without body rows, a line of prose and an
    aligned table, apart by blank lines. *)
Definition alignedDocument : str :=
  headerOnlyTable ++ [NL] ++ lit "prose" ++ [NL; NL] ++ tableAReflowed.

(** The name that [PrepareCommands] hands down to the subcommands of the
    last command of the chain [ancestors]. *)
Definition parentName (ancestors : list Command.t) : str :=
  concat (map (fun a => lit " " ++ Command.Name a) ancestors).

(** The level of the record of a command below the chain [ancestors], when
    the commands at the top have the level [level]: [uintAdd] once for
    each ancestor. *)
Definition levelAt (level : N) (ancestors : list Command.t) : N :=
  ((level + N.of_nat (length ancestors)) mod uintRange)%N.

(** A line of a text: not empty and without a newline. *)
Definition oneLine (l : str) : Prop := l <> [] /\ ~ In NL l.

(** A command with a usage text of two lines, and the same with newlines
    around the usage text. *)
Definition usageCommand : Command.t :=
  Command.mk (lit "do") [] (lit "does it")
             (lit "app do <x>" ++ [NL] ++ lit "app do <y>") [] [] [] false [] [].

Definition usageCommandPadded : Command.t :=
  Command.mk (lit "do") [] (lit "does it")
             ([NL; NL] ++ lit "app do <x>" ++ [NL] ++ lit "app do <y>" ++ [NL])
             [] [] [] false [] [].



(** * Properties *)

(** ** White space trimming *)

Section TrimSpaces.

Variable width : str -> nat.

(** The width of the first rune is determined by the bytes of that rune. *)
Hypothesis width_prefix :
  forall s w, width s = S w ->
    S w <= length s /\ forall r, width (firstn (S w) s ++ r) = S w.

Local Abbreviation runs := (strings.runs width).

Lemma trimSpaces_fuel2 : forall fuel1 fuel2 s,
  length s <= fuel1 -> length s <= fuel2 ->
  strings.trimSpaces width fuel1 s = strings.trimSpaces width fuel2 s.
Proof.
  induction fuel1 as [|fuel1 IH]; intros fuel2 s H1 H2.
  - destruct s; [|simpl in H1; lia]. destruct fuel2; [reflexivity|].
    cbn [strings.trimSpaces]. destruct (width []) as [|w] eqn:Ew; [reflexivity|].
    destruct (width_prefix _ _ Ew) as [Hw _]. simpl in Hw. lia.
  - destruct fuel2 as [|fuel2].
    + destruct s; [|simpl in H2; lia]. cbn [strings.trimSpaces].
      destruct (width []) as [|w] eqn:Ew; [reflexivity|].
      destruct (width_prefix _ _ Ew) as [Hw _]. simpl in Hw. lia.
    + cbn [strings.trimSpaces]. destruct (width s) as [|w] eqn:Ew; [reflexivity|].
      destruct (width_prefix _ _ Ew) as [Hw _].
      apply IH; rewrite length_skipn; lia.
Qed.

Lemma trimSpaces_fuel : forall fuel s,
  length s <= fuel ->
  strings.trimSpaces width fuel s = strings.trimSpaces width (length s) s.
Proof.
  intros. apply trimSpaces_fuel2; lia.
Qed.

Lemma trimSpaces_step : forall s w,
  width s = S w ->
  strings.trimSpaces width (length s) s
  = strings.trimSpaces width (length (skipn (S w) s)) (skipn (S w) s).
Proof.
  intros s w Ew. destruct (width_prefix _ _ Ew) as [Hw _].
  destruct s as [|c s']; [simpl in Hw; lia|].
  cbn [length strings.trimSpaces]. rewrite Ew.
  apply trimSpaces_fuel. rewrite length_skipn. cbn [length]. lia.
Qed.

Lemma trimSpaces_stop : forall s,
  width s = 0 -> strings.trimSpaces width (length s) s = s.
Proof.
  intros s Ew. destruct s; [reflexivity|]. cbn [length strings.trimSpaces].
  rewrite Ew. reflexivity.
Qed.

(** What is cut off is a run of white space, and what remains does not
    start with white space: the fuel is enough. *)
Lemma trimSpaces_split : forall s,
  exists l, s = l ++ strings.trimSpaces width (length s) s
            /\ runs l
            /\ width (strings.trimSpaces width (length s) s) = 0.
Proof.
  intros s. remember (length s) as n eqn:Hn.
  revert s Hn. induction n as [n IH] using lt_wf_ind. intros s Hn.
  destruct (width s) as [|w] eqn:Ew.
  - exists []. subst n. rewrite trimSpaces_stop by exact Ew.
    repeat split; [apply strings.runs_nil | exact Ew].
  - destruct (width_prefix _ _ Ew) as [Hw Hp].
    subst n. rewrite (trimSpaces_step _ _ Ew).
    assert (Hlt : length (skipn (S w) s) < length s) by (rewrite length_skipn; lia).
    destruct (IH _ Hlt (skipn (S w) s) eq_refl) as (l & Hl & Hr & Hz).
    exists (firstn (S w) s ++ l). repeat split.
    + rewrite <- app_assoc, <- Hl. symmetry. apply firstn_skipn.
    + apply strings.runs_cons; [| | exact Hr].
      * intros E. apply (f_equal (@length _)) in E. rewrite length_firstn in E.
        cbn [length] in E. lia.
      * specialize (Hp []). rewrite app_nil_r in Hp. rewrite Hp, length_firstn. lia.
    + exact Hz.
Qed.

Lemma runs_app : forall l1 l2, runs l1 -> runs l2 -> runs (l1 ++ l2).
Proof.
  induction 1; intros; [assumption|]. rewrite <- app_assoc. apply strings.runs_cons; auto.
Qed.

(** A run of white space in front is cut off. *)
Lemma trimSpaces_runs : forall l s,
  runs l ->
  strings.trimSpaces width (length (l ++ s)) (l ++ s)
  = strings.trimSpaces width (length s) s.
Proof.
  intros l s Hr. induction Hr as [|w l Hne Hw Hr IH]; [reflexivity|].
  destruct w as [|c w']; [congruence|].
  assert (Ew : width ((c :: w') ++ l ++ s) = S (length w')).
  { destruct (width_prefix (c :: w') (length w') Hw) as [_ Hp].
    specialize (Hp (l ++ s)).
    assert (Hf : firstn (S (length w')) (c :: w') = c :: w')
      by (apply (firstn_all (c :: w'))).
    rewrite Hf in Hp. exact Hp. }
  rewrite <- app_assoc. rewrite (trimSpaces_step _ _ Ew).
  replace (skipn (S (length w')) ((c :: w') ++ l ++ s)) with (l ++ s); [exact IH|].
  change (S (length w')) with (length (c :: w')).
  rewrite skipn_app, skipn_all, Nat.sub_diag. reflexivity.
Qed.

End TrimSpaces.

Lemma spaceWidth_prefix s w :
  strings.spaceWidth s = S w ->
  S w <= length s /\ forall r, strings.spaceWidth (firstn (S w) s ++ r) = S w.
Proof.
  unfold strings.spaceWidth.
  destruct s as [|c0 [|c1 [|c2 t]]]; try discriminate;
    destruct (strings.isAsciiSpace c0) eqn:E0; try discriminate;
    try (intros [= <-]; cbn [firstn app length]; rewrite E0; split; [lia | reflexivity]).
  - destruct (strings.isSpace2 (code c0) (code c1)) eqn:E1; try discriminate.
    intros [= <-]; cbn [firstn app length]; rewrite E0, E1; split; [lia | reflexivity].
  - destruct (strings.isSpace2 (code c0) (code c1)) eqn:E1.
    + intros [= <-]; cbn [firstn app length]; rewrite E0, E1; split; [lia | reflexivity].
    + destruct (strings.isSpace3 (code c0) (code c1) (code c2)) eqn:E2; try discriminate.
      intros [= <-]; cbn [firstn app length]; rewrite E0, E1, E2; split; [lia | reflexivity].
Qed.

Lemma spaceWidthLast_prefix s w :
  strings.spaceWidthLast s = S w ->
  S w <= length s /\ forall r, strings.spaceWidthLast (firstn (S w) s ++ r) = S w.
Proof.
  unfold strings.spaceWidthLast.
  destruct s as [|c0 [|c1 [|c2 t]]]; try discriminate;
    destruct (strings.isAsciiSpace c0) eqn:E0; try discriminate;
    try (intros [= <-]; cbn [firstn app length]; rewrite E0; split; [lia | reflexivity]).
  - destruct (strings.isSpace2 (code c1) (code c0)) eqn:E1; try discriminate.
    intros [= <-]; cbn [firstn app length]; rewrite E0, E1; split; [lia | reflexivity].
  - destruct (strings.isSpace2 (code c1) (code c0)) eqn:E1.
    + intros [= <-]; cbn [firstn app length]; rewrite E0, E1; split; [lia | reflexivity].
    + destruct (strings.isSpace3 (code c2) (code c1) (code c0)) eqn:E2; try discriminate.
      intros [= <-]; cbn [firstn app length]; rewrite E0, E1, E2; split; [lia | reflexivity].
Qed.

(** A string that starts with a white-space rune still does after bytes are
    appended. *)
Lemma width_app (width : str -> nat) :
  (forall s w, width s = S w ->
     S w <= length s /\ forall r, width (firstn (S w) s ++ r) = S w) ->
  forall s r w, width s = S w -> width (s ++ r) = S w.
Proof.
  intros Hp s r w Ew. destruct (Hp _ _ Ew) as [_ H].
  specialize (H (skipn (S w) s ++ r)).
  rewrite app_assoc, firstn_skipn in H. exact H.
Qed.

Lemma width_app_zero (width : str -> nat) :
  (forall s w, width s = S w ->
     S w <= length s /\ forall r, width (firstn (S w) s ++ r) = S w) ->
  forall s r, width (s ++ r) = 0 -> width s = 0.
Proof.
  intros Hp s r H. destruct (width s) as [|w] eqn:Ew; [reflexivity|].
  rewrite (width_app width Hp s r w Ew) in H. discriminate.
Qed.

Lemma trimLeftSpace_split s :
  exists l, s = l ++ strings.trimLeftSpace s
            /\ strings.runs strings.spaceWidth l
            /\ strings.spaceWidth (strings.trimLeftSpace s) = 0.
Proof. apply trimSpaces_split, spaceWidth_prefix. Qed.

Lemma trimRightSpace_split s :
  exists r, s = strings.trimRightSpace s ++ r
            /\ strings.runs strings.spaceWidthLast (rev r)
            /\ strings.spaceWidthLast (rev (strings.trimRightSpace s)) = 0.
Proof.
  unfold strings.trimRightSpace.
  destruct (trimSpaces_split strings.spaceWidthLast spaceWidthLast_prefix (rev s))
    as (l & Hl & Hr & Hz).
  rewrite length_rev in *.
  exists (rev l). rewrite !rev_involutive. repeat split; try assumption.
  rewrite <- rev_app_distr, <- Hl, rev_involutive. reflexivity.
Qed.

(** [TrimSpace] cuts a run of white space off each end, and the result
    neither starts nor ends with white space. *)
Lemma TrimSpace_split s :
  exists l r, s = l ++ strings.TrimSpace s ++ r
              /\ strings.runs strings.spaceWidth l
              /\ strings.runs strings.spaceWidthLast (rev r)
              /\ strings.spaceWidth (strings.TrimSpace s) = 0
              /\ strings.spaceWidthLast (rev (strings.TrimSpace s)) = 0.
Proof.
  unfold strings.TrimSpace.
  destruct (trimLeftSpace_split s) as (l & Hl & Hrl & Hzl).
  destruct (trimRightSpace_split (strings.trimLeftSpace s)) as (r & Hr & Hrr & Hzr).
  exists l, r. repeat split; try assumption.
  - rewrite <- Hr. exact Hl.
  - apply (width_app_zero strings.spaceWidth spaceWidth_prefix) with (r := r).
    rewrite <- Hr. exact Hzl.
Qed.

(** ** Byte-wise trimming and replacing *)

Lemma dropWhile_split p s :
  exists t, s = t ++ strings.dropWhile p s
            /\ Forall (fun c => p c = true) t
            /\ (forall c s', strings.dropWhile p s = c :: s' -> p c = false).
Proof.
  induction s as [|c s IH].
  - exists []. repeat split; [constructor | discriminate].
  - cbn [strings.dropWhile]. destruct (p c) eqn:Ep.
    + destruct IH as (t & Ht & Hall & Hhd). exists (c :: t).
      repeat split; [cbn; congruence | constructor; assumption | exact Hhd].
    + exists []. repeat split; [constructor | intros ? ? [= <- <-]; exact Ep].
Qed.

Lemma TrimRight_split s cutset :
  exists t, s = strings.TrimRight s cutset ++ t
            /\ Forall (fun c => strings.inSet cutset c = true) t
            /\ (forall z c, strings.TrimRight s cutset = z ++ [c] ->
                            strings.inSet cutset c = false).
Proof.
  unfold strings.TrimRight.
  destruct (dropWhile_split (strings.inSet cutset) (rev s)) as (t & Ht & Hall & Hhd).
  exists (rev t). repeat split.
  - rewrite <- rev_app_distr, <- Ht, rev_involutive. reflexivity.
  - apply Forall_rev. exact Hall.
  - intros z c E. apply (f_equal (@rev _)) in E.
    rewrite rev_involutive, rev_app_distr in E. cbn in E. eapply Hhd. exact E.
Qed.

Lemma inSet_In cutset c : strings.inSet cutset c = true <-> In c cutset.
Proof.
  unfold strings.inSet. rewrite existsb_exists. split.
  - intros (x & Hin & E). apply Ascii.eqb_eq in E. subst. exact Hin.
  - intros Hin. exists c. split; [exact Hin | apply Ascii.eqb_refl].
Qed.

(** Replacing every newline by a space is a map over the bytes. *)
Lemma ReplaceAll_newlines s :
  strings.ReplaceAll s [NL] [SP] = map (fun c => if Ascii.eqb c NL then SP else c) s.
Proof.
  unfold strings.ReplaceAll, strings.Replace.
  assert (H : forall n, (n < 0)%Z ->
            strings.replace [NL] [SP] n 0 s
            = map (fun c => if Ascii.eqb c NL then SP else c) s).
  { induction s as [|c s IH]; intros n Hn; [reflexivity|].
    cbn [strings.replace strings.HasPrefix map length Nat.sub].
    destruct (Z.eqb_spec n 0); [lia|].
    rewrite andb_true_r. destruct (Ascii.eqb c NL).
    - cbn [app]. f_equal. apply IH. lia.
    - f_equal. apply IH. lia. }
  apply H. lia.
Qed.

(** ** The text preparer *)

(** C9.  [PrepareMultilineString] is a total function; the empty string
    yields the empty string; the text of scenario C yields
    [Line one. Line two]; and for every input, once each newline is
    replaced by one space, the result is what remains after a run of white
    space is cut off each end (down to a string that neither starts nor ends
    with white space) and then a run of the bytes period, carriage return,
    newline and tab is cut off the right end, down to a string that does
    not end with one of them. *)
Theorem PrepareMultilineString_spec :
  tabularTemplate.PrepareMultilineString [] = []
  /\ tabularTemplate.PrepareMultilineString
       (lit "Line one." ++ [NL] ++ lit "Line two." ++ [NL; NL; NL])
     = lit "Line one. Line two"
  /\ forall s,
      exists l t r,
        map (fun c => if Ascii.eqb c NL then SP else c) s
        = l ++ (tabularTemplate.PrepareMultilineString s ++ t) ++ r
        /\ strings.runs strings.spaceWidth l
        /\ strings.runs strings.spaceWidthLast (rev r)
        /\ strings.spaceWidth (tabularTemplate.PrepareMultilineString s ++ t) = 0
        /\ strings.spaceWidthLast
             (rev (tabularTemplate.PrepareMultilineString s ++ t)) = 0
        /\ Forall (fun c => In c tabularTemplate.trailingSet) t
        /\ (forall z c, tabularTemplate.PrepareMultilineString s = z ++ [c] ->
                        ~ In c tabularTemplate.trailingSet).
Proof.
  split; [reflexivity|]. split; [vm_compute; reflexivity|].
  intros s. unfold tabularTemplate.PrepareMultilineString.
  rewrite ReplaceAll_newlines.
  set (x := map _ s).
  destruct (TrimSpace_split x) as (l & r & Hx & Hl & Hr & Hzl & Hzr).
  destruct (TrimRight_split (strings.TrimSpace x) tabularTemplate.trailingSet) as (t & Ht & Hall & Hlast).
  exists l, t, r. rewrite <- Ht. repeat split; try assumption.
  - eapply Forall_impl; [|exact Hall]. intros c Hc. apply inSet_In. exact Hc.
  - intros z c E Hin. apply inSet_In in Hin. rewrite (Hlast z c E) in Hin. discriminate.
Qed.

(** ** Joining and folding *)

Lemma Join_cons e rest sep :
  rest <> [] -> strings.Join (e :: rest) sep = e ++ sep ++ strings.Join rest sep.
Proof. destruct rest; [congruence | reflexivity]. Qed.

Lemma Join_snoc pre x sep :
  pre <> [] -> strings.Join (pre ++ [x]) sep = strings.Join pre sep ++ sep ++ x.
Proof.
  induction pre as [|e pre IH]; [congruence|]. intros _.
  destruct pre as [|e' pre].
  - reflexivity.
  - change ((e :: e' :: pre) ++ [x]) with (e :: ((e' :: pre) ++ [x])).
    rewrite Join_cons by (destruct pre; discriminate).
    rewrite IH by discriminate.
    rewrite (Join_cons e (e' :: pre)) by discriminate.
    rewrite <- !app_assoc. reflexivity.
Qed.

Lemma Join_length_first e rest sep :
  length e <= length (strings.Join (e :: rest) sep).
Proof.
  destruct rest; [cbn [strings.Join]; lia|].
  rewrite Join_cons by discriminate. rewrite length_app. lia.
Qed.

(** A loop that appends at most one element per iteration is a [flat_map]. *)
Lemma fold_left_append {A B : Type} (g : A -> list B) (l : list A) (acc : list B) :
  fold_left (fun acc a => acc ++ g a) l acc = acc ++ flat_map g l.
Proof.
  revert acc. induction l as [|a l IH]; intros acc; cbn [fold_left flat_map].
  - rewrite app_nil_r. reflexivity.
  - rewrite IH, app_assoc. reflexivity.
Qed.

(** ** Flag names *)

Lemma dashed_length name : 1 <= length (dashed name).
Proof.
  unfold dashed. destruct (1 <? length name); rewrite length_app; cbn; lia.
Qed.

(** The loop over the names of [prepareFlags] joins the spelled names. *)
Lemma prepareFlagNames_join names sep opener :
  prepareFlagNames names sep opener
  = opener ++ strings.Join (map (fun s => dashed (strings.TrimSpace s)) names) sep.
Proof.
  unfold prepareFlagNames.
  set (g := fun s => dashed (strings.TrimSpace s)).
  set (f := fun modifiedArg s => _).
  assert (Hstep : forall pre names, pre <> [] ->
            Forall (fun e => 1 <= length e) pre ->
            fold_left f names (opener ++ strings.Join pre sep)
            = opener ++ strings.Join (pre ++ map g names) sep).
  { intros pre names0. revert pre. induction names0 as [|n names0 IH]; intros pre Hne Hpos.
    - cbn. rewrite app_nil_r. reflexivity.
    - cbn [fold_left map].
      assert (Hlt : (length opener <? length (opener ++ strings.Join pre sep)) = true).
      { apply Nat.ltb_lt. rewrite length_app.
        destruct pre as [|e pre]; [congruence|].
        pose proof (Join_length_first e pre sep). inversion Hpos; subst. lia. }
      assert (Hf : f (opener ++ strings.Join pre sep) n
                   = opener ++ strings.Join (pre ++ [g n]) sep).
      { unfold f. rewrite Hlt. rewrite Join_snoc by exact Hne.
        unfold g, dashed. destruct (1 <? length (strings.TrimSpace n));
          rewrite <- !app_assoc; reflexivity. }
      rewrite Hf, IH.
      + rewrite <- app_assoc. reflexivity.
      + destruct pre; discriminate.
      + apply Forall_app. split; [exact Hpos|]. constructor; [|constructor].
        apply dashed_length. }
  destruct names as [|n names]; [cbn; rewrite app_nil_r; reflexivity|].
  cbn [fold_left map].
  assert (Hf : f opener n = opener ++ strings.Join [g n] sep).
  { unfold f. rewrite Nat.ltb_irrefl. unfold g, dashed. cbn [strings.Join].
    destruct (1 <? length (strings.TrimSpace n)); reflexivity. }
  rewrite Hf, Hstep; [reflexivity | discriminate |].
  constructor; [apply dashed_length | constructor].
Qed.

(** The loop over the names of [PrepareFlags]: the first name becomes the
    canonical name, the following ones are appended to the aliases. *)
Lemma prepareNames_later i names f :
  cliTabularFlagTemplate.Name (tabularTemplate.prepareNames (S i) names f)
  = cliTabularFlagTemplate.Name f
  /\ cliTabularFlagTemplate.Aliases (tabularTemplate.prepareNames (S i) names f)
     = cliTabularFlagTemplate.Aliases f
       ++ map (fun s => dashed (strings.TrimSpace s)) names
  /\ cliTabularFlagTemplate.Usage (tabularTemplate.prepareNames (S i) names f)
     = cliTabularFlagTemplate.Usage f
  /\ cliTabularFlagTemplate.TakesValue (tabularTemplate.prepareNames (S i) names f)
     = cliTabularFlagTemplate.TakesValue f
  /\ cliTabularFlagTemplate.Default (tabularTemplate.prepareNames (S i) names f)
     = cliTabularFlagTemplate.Default f
  /\ cliTabularFlagTemplate.EnvVars (tabularTemplate.prepareNames (S i) names f)
     = cliTabularFlagTemplate.EnvVars f.
Proof.
  revert i f. induction names as [|n names IH]; intros i f.
  - cbn. rewrite app_nil_r. repeat split.
  - cbn [tabularTemplate.prepareNames Nat.eqb map].
    destruct (IH (S i) (cliTabularFlagTemplate.mk
                          (cliTabularFlagTemplate.Name f)
                          (cliTabularFlagTemplate.Aliases f
                             ++ [if 1 <? length (strings.TrimSpace n)
                                 then lit "--" ++ strings.TrimSpace n
                                 else lit "-" ++ strings.TrimSpace n])
                          (cliTabularFlagTemplate.Usage f)
                          (cliTabularFlagTemplate.TakesValue f)
                          (cliTabularFlagTemplate.Default f)
                          (cliTabularFlagTemplate.EnvVars f)))
      as (H1 & H2 & H3 & H4 & H5 & H6).
    rewrite H1, H2, H3, H4, H5, H6. cbn. rewrite <- app_assoc. repeat split.
Qed.

Lemma PrepareFlag_names appFlag flag :
  cliTabularFlagTemplate.Name (tabularTemplate.PrepareFlag appFlag flag)
  = match Names flag with
    | [] => []
    | n :: _ => lit "--" ++ strings.TrimSpace n
    end
  /\ cliTabularFlagTemplate.Aliases (tabularTemplate.PrepareFlag appFlag flag)
     = map (fun s => dashed (strings.TrimSpace s)) (tl (Names flag)).
Proof.
  unfold tabularTemplate.PrepareFlag.
  destruct (Names flag) as [|n names]; [destruct appFlag; split; reflexivity|].
  cbn [tabularTemplate.prepareNames Nat.eqb tl].
  match goal with
  | |- context [tabularTemplate.prepareNames 1 names ?f] =>
    destruct (prepareNames_later 0 names f) as (H1 & H2 & _)
  end.
  rewrite H1, H2. destruct appFlag; split; reflexivity.
Qed.

(** ** Names padded with white space *)

Lemma isAsciiSpace_code c : strings.isAsciiSpace c = true -> (code c < 128)%N.
Proof.
  unfold strings.isAsciiSpace. cbv zeta.
  rewrite !orb_true_iff, !N.eqb_eq. lia.
Qed.

Lemma isSpace2_code a b : strings.isSpace2 a b = true -> (128 <= b)%N.
Proof.
  unfold strings.isSpace2.
  rewrite !andb_true_iff, !orb_true_iff, !N.eqb_eq. lia.
Qed.

Lemma isSpace3_code a b c :
  strings.isSpace3 a b c = true -> (128 <= b)%N /\ (128 <= c)%N.
Proof.
  unfold strings.isSpace3.
  rewrite !orb_true_iff, !andb_true_iff, !orb_true_iff, !andb_true_iff,
    !N.eqb_eq, !N.leb_le. lia.
Qed.

Lemma asciiSpaces_runs l :
  Forall (fun c => strings.isAsciiSpace c = true) l ->
  strings.runs strings.spaceWidth l /\ strings.runs strings.spaceWidthLast l.
Proof.
  induction 1 as [|c l Hc _ [IH1 IH2]]; [split; constructor|].
  split; apply (strings.runs_cons _ [c] l); try discriminate; try assumption;
    cbn; rewrite Hc; reflexivity.
Qed.

(** Appending ASCII white space to a non-empty string that does not start
    with a white-space rune does not make it start with one. *)
Lemma spaceWidth_app_ascii t r :
  strings.spaceWidth t = 0 -> t <> [] ->
  Forall (fun c => strings.isAsciiSpace c = true) r ->
  strings.spaceWidth (t ++ r) = 0.
Proof.
  intros Hz Hne Hr.
  assert (Hno2 : forall a b, strings.isAsciiSpace b = true ->
                             strings.isSpace2 (code a) (code b) = false).
  { intros a b Hb. apply isAsciiSpace_code in Hb.
    destruct (strings.isSpace2 (code a) (code b)) eqn:E; [|reflexivity].
    apply isSpace2_code in E. lia. }
  assert (Hno3 : forall a b c,
             strings.isAsciiSpace b = true \/ strings.isAsciiSpace c = true ->
             strings.isSpace3 (code a) (code b) (code c) = false).
  { intros a b c Hbc.
    destruct (strings.isSpace3 (code a) (code b) (code c)) eqn:E; [|reflexivity].
    apply isSpace3_code in E.
    destruct Hbc as [H|H]; apply isAsciiSpace_code in H; lia. }
  destruct t as [|c0 [|c1 [|c2 t]]]; [congruence| | |].
  - cbn in Hz. destruct (strings.isAsciiSpace c0) eqn:E0; [discriminate|].
    destruct r as [|c1 [|c2 r]]; cbn; rewrite E0; try reflexivity.
    + inversion Hr; subst. rewrite Hno2 by assumption. reflexivity.
    + inversion Hr; subst. rewrite Hno2, Hno3 by auto. reflexivity.
  - cbn in Hz. destruct (strings.isAsciiSpace c0) eqn:E0; [discriminate|].
    destruct (strings.isSpace2 (code c0) (code c1)) eqn:E1; [discriminate|].
    destruct r as [|c2 r]; cbn; rewrite E0, E1; try reflexivity.
    inversion Hr; subst. rewrite Hno3 by auto. reflexivity.
  - exact Hz.
Qed.

Lemma trimLeftSpace_runs l s :
  strings.runs strings.spaceWidth l ->
  strings.trimLeftSpace (l ++ s) = strings.trimLeftSpace s.
Proof. apply trimSpaces_runs, spaceWidth_prefix. Qed.

Lemma trimRightSpace_runs s r :
  strings.runs strings.spaceWidthLast (rev r) ->
  strings.trimRightSpace (s ++ r) = strings.trimRightSpace s.
Proof.
  intros Hr. unfold strings.trimRightSpace. f_equal.
  rewrite <- (length_rev (s ++ r)), <- (length_rev s), rev_app_distr.
  apply trimSpaces_runs; [apply spaceWidthLast_prefix | exact Hr].
Qed.

Lemma trimLeftSpace_fixed t :
  strings.spaceWidth t = 0 -> strings.trimLeftSpace t = t.
Proof. apply trimSpaces_stop. Qed.

Lemma trimRightSpace_fixed t :
  strings.spaceWidthLast (rev t) = 0 -> strings.trimRightSpace t = t.
Proof.
  intros H. unfold strings.trimRightSpace.
  rewrite <- (length_rev t), trimSpaces_stop by exact H. apply rev_involutive.
Qed.

(** The first byte of a white-space rune is an ASCII byte or the first
    byte of an encoding of two or three bytes. *)
Lemma spaceWidth_lead c w :
  strings.spaceWidth (c :: w) = S (length w) -> (code c < 128 \/ 194 <= code c)%N.
Proof.
  unfold strings.spaceWidth.
  destruct (strings.isAsciiSpace c) eqn:E0;
    [intros _; left; apply isAsciiSpace_code; exact E0|].
  destruct w as [|c1 [|c2 w]]; [discriminate| |].
  - destruct (strings.isSpace2 (code c) (code c1)) eqn:E1; [|discriminate].
    intros _. right. unfold strings.isSpace2 in E1.
    rewrite !andb_true_iff, !orb_true_iff, !N.eqb_eq in E1. lia.
  - destruct (strings.isSpace2 (code c) (code c1)) eqn:E1;
      [cbn [length]; intros H; lia|].
    destruct (strings.isSpace3 (code c) (code c1) (code c2)) eqn:E2; [|discriminate].
    intros _. right. unfold strings.isSpace3 in E2.
    rewrite !orb_true_iff, !andb_true_iff, !orb_true_iff, !andb_true_iff,
      !N.eqb_eq, !N.leb_le in E2. lia.
Qed.

Lemma isSpace2_lead a b :
  (code b < 128 \/ 194 <= code b)%N -> strings.isSpace2 (code a) (code b) = false.
Proof.
  intros Hb. destruct (strings.isSpace2 (code a) (code b)) eqn:E; [|reflexivity].
  unfold strings.isSpace2 in E.
  rewrite !andb_true_iff, !orb_true_iff, !N.eqb_eq in E. lia.
Qed.

Lemma isSpace3_lead a b c :
  (code b < 128 \/ 194 <= code b)%N \/ (code c < 128 \/ 194 <= code c)%N ->
  strings.isSpace3 (code a) (code b) (code c) = false.
Proof.
  intros Hbc.
  destruct (strings.isSpace3 (code a) (code b) (code c)) eqn:E; [|reflexivity].
  unfold strings.isSpace3 in E.
  rewrite !orb_true_iff, !andb_true_iff, !orb_true_iff, !andb_true_iff,
    !N.eqb_eq, !N.leb_le in E. lia.
Qed.

(** Appending white space to a non-empty string that does not start with a
    white-space rune does not make it start with one. *)
Lemma spaceWidth_app_runs t r :
  strings.spaceWidth t = 0 -> t <> [] ->
  strings.runs strings.spaceWidth r ->
  strings.spaceWidth (t ++ r) = 0.
Proof.
  intros Hz Hne Hr. destruct Hr as [|w l Hw Hlen Hl]; [rewrite app_nil_r; exact Hz|].
  destruct w as [|r0 w]; [congruence|].
  pose proof (spaceWidth_lead r0 w Hlen) as Hlead. cbn [app].
  destruct t as [|c0 [|c1 [|c2 t]]]; [congruence| | |].
  - cbn in Hz. destruct (strings.isAsciiSpace c0) eqn:E0; [discriminate|].
    cbn [app strings.spaceWidth]. rewrite E0, isSpace2_lead by exact Hlead.
    destruct (w ++ l); [reflexivity|]. rewrite isSpace3_lead by (left; exact Hlead).
    reflexivity.
  - cbn in Hz. destruct (strings.isAsciiSpace c0) eqn:E0; [discriminate|].
    destruct (strings.isSpace2 (code c0) (code c1)) eqn:E1; [discriminate|].
    cbn [app strings.spaceWidth]. rewrite E0, E1.
    rewrite isSpace3_lead by (right; exact Hlead). reflexivity.
  - exact Hz.
Qed.

(** A white-space rune read from its first byte is one read from its last
    byte. *)
Lemma spaceWidth_rev w :
  w <> [] -> strings.spaceWidth w = length w ->
  strings.spaceWidthLast (rev w) = length (rev w).
Proof.
  intros Hne H. rewrite length_rev.
  destruct w as [|c0 [|c1 [|c2 [|c3 w]]]]; [congruence| | | |].
  - cbn in H |- *. destruct (strings.isAsciiSpace c0); [reflexivity | discriminate].
  - cbn in H. destruct (strings.isAsciiSpace c0) eqn:E0; [discriminate|].
    destruct (strings.isSpace2 (code c0) (code c1)) eqn:E1; [|discriminate].
    cbn. rewrite E1.
    destruct (strings.isAsciiSpace c1) eqn:E; [|reflexivity].
    apply isAsciiSpace_code in E. apply isSpace2_code in E1. lia.
  - cbn in H. destruct (strings.isAsciiSpace c0) eqn:E0; [discriminate|].
    destruct (strings.isSpace2 (code c0) (code c1)) eqn:E1; [discriminate|].
    destruct (strings.isSpace3 (code c0) (code c1) (code c2)) eqn:E2; [|discriminate].
    cbn. rewrite E2.
    destruct (strings.isAsciiSpace c2) eqn:E;
      [apply isAsciiSpace_code in E; apply isSpace3_code in E2; lia|].
    destruct (strings.isSpace2 (code c1) (code c2)) eqn:E'; [|reflexivity].
    unfold strings.isSpace2 in E'. unfold strings.isSpace3 in E2.
    rewrite !andb_true_iff, !orb_true_iff, !N.eqb_eq in E'.
    rewrite !orb_true_iff, !andb_true_iff, !orb_true_iff, !andb_true_iff,
      !N.eqb_eq, !N.leb_le in E2. lia.
  - exfalso. unfold strings.spaceWidth in H. cbn [length] in H.
    destruct (strings.isAsciiSpace c0); [discriminate|].
    destruct (strings.isSpace2 (code c0) (code c1)); [discriminate|].
    destruct (strings.isSpace3 (code c0) (code c1) (code c2)); discriminate.
Qed.

(** White space read from the left is white space read from the right. *)
Lemma runs_rev r :
  strings.runs strings.spaceWidth r -> strings.runs strings.spaceWidthLast (rev r).
Proof.
  induction 1 as [|w l Hw Hlen _ IH]; [constructor|].
  rewrite rev_app_distr. apply runs_app; [exact IH|].
  rewrite <- (app_nil_r (rev w)). apply strings.runs_cons.
  - intros E. apply Hw. apply (f_equal (@rev ascii)) in E.
    rewrite rev_involutive in E. exact E.
  - apply spaceWidth_rev; assumption.
  - constructor.
Qed.

(** [TrimSpace] does not see white space around a name. *)
Lemma TrimSpace_padded n n' : padded n n' -> strings.TrimSpace n' = strings.TrimSpace n.
Proof.
  intros [l n0 r Hl Hr]. unfold strings.TrimSpace.
  rewrite trimLeftSpace_runs by exact Hl.
  destruct (trimLeftSpace_split n0) as (ln & Hn & Hln & Hz).
  set (t := strings.trimLeftSpace n0) in *.
  assert (E : strings.trimLeftSpace (n0 ++ r) = t ++ r \/
              (t = [] /\ strings.trimLeftSpace (n0 ++ r) = [])).
  { rewrite Hn at 1 2. rewrite <- app_assoc, trimLeftSpace_runs by exact Hln.
    destruct t as [|c t'] eqn:Et.
    - right. split; [reflexivity|]. cbn [app].
      rewrite <- (app_nil_r r), trimLeftSpace_runs by exact Hr. reflexivity.
    - left. apply trimLeftSpace_fixed, spaceWidth_app_runs;
        [exact Hz | discriminate | exact Hr]. }
  destruct E as [E | [Et E]].
  - rewrite E. apply trimRightSpace_runs, runs_rev. exact Hr.
  - rewrite E, Et. reflexivity.
Qed.

(** In particular it does not see ASCII white space. *)
Lemma TrimSpace_ascii_padded l n r :
  Forall (fun c => strings.isAsciiSpace c = true) l ->
  Forall (fun c => strings.isAsciiSpace c = true) r ->
  strings.TrimSpace (l ++ n ++ r) = strings.TrimSpace n.
Proof.
  intros Hl Hr. apply TrimSpace_padded. apply padded_intro.
  - apply (asciiSpaces_runs l Hl).
  - apply (asciiSpaces_runs r Hr).
Qed.

Lemma map_TrimSpace_padded names names' :
  Forall2 padded names names' ->
  map strings.TrimSpace names' = map strings.TrimSpace names.
Proof.
  induction 1 as [|n n' names names' Hp _ IH]; [reflexivity|].
  cbn [map]. rewrite (TrimSpace_padded n n' Hp), IH. reflexivity.
Qed.

(** The two loops over flags, as maps over the flags that implement
    [DocGenerationFlag]. *)
Lemma prepareFlags_map flags sep opener closer value addDetails :
  prepareFlags flags sep opener closer value addDetails
  = sort.Strings
      (map (fun d => prepareFlag d sep opener closer value addDetails)
           (docFlags flags)).
Proof.
  unfold prepareFlags. f_equal.
  assert (H : forall acc,
            fold_left
              (fun args f =>
                 match asDocGenerationFlag f with
                 | Some flag => args ++ [prepareFlag flag sep opener closer value addDetails]
                 | None => args
                 end) flags acc
            = acc ++ map (fun d => prepareFlag d sep opener closer value addDetails)
                         (docFlags flags)).
  { induction flags as [|f flags IH]; intros acc; cbn [fold_left docFlags flat_map].
    - cbn. rewrite app_nil_r. reflexivity.
    - rewrite IH. fold (docFlags flags).
      destruct (asDocGenerationFlag f); cbn [app map].
      + rewrite <- app_assoc. reflexivity.
      + reflexivity. }
  apply (H []).
Qed.

Lemma PrepareFlags_flat_map flags :
  tabularTemplate.PrepareFlags flags
  = flat_map (fun f => match asDocGenerationFlag f with
                       | Some d => [tabularTemplate.PrepareFlag f d]
                       | None => []
                       end) flags.
Proof.
  unfold tabularTemplate.PrepareFlags.
  assert (H : forall acc,
            fold_left
              (fun result appFlag =>
                 match asDocGenerationFlag appFlag with
                 | Some flag => result ++ [tabularTemplate.PrepareFlag appFlag flag]
                 | None => result
                 end) flags acc
            = acc ++ flat_map (fun f => match asDocGenerationFlag f with
                                        | Some d => [tabularTemplate.PrepareFlag f d]
                                        | None => []
                                        end) flags).
  { induction flags as [|f flags IH]; intros acc; cbn [fold_left flat_map].
    - rewrite app_nil_r. reflexivity.
    - rewrite IH. destruct (asDocGenerationFlag f); cbn [app].
      + rewrite <- app_assoc. reflexivity.
      + reflexivity. }
  apply (H []).
Qed.

Lemma prepareFlag_padded d d' sep opener closer value addDetails :
  docPadded d d' ->
  prepareFlag d' sep opener closer value addDetails
  = prepareFlag d sep opener closer value addDetails.
Proof.
  intros (Hn & Ht & Hu & Hv & _). unfold prepareFlag, flagDetails.
  rewrite !prepareFlagNames_join, <- Ht, <- Hu, <- Hv.
  rewrite <- !(map_map strings.TrimSpace dashed), (map_TrimSpace_padded _ _ Hn).
  reflexivity.
Qed.

Lemma prepareNames_padded names names' :
  Forall2 padded names names' ->
  forall i f, tabularTemplate.prepareNames i names' f
              = tabularTemplate.prepareNames i names f.
Proof.
  induction 1 as [|n n' names names' Hp _ IH]; intros i f; [reflexivity|].
  cbn [tabularTemplate.prepareNames]. rewrite (TrimSpace_padded n n' Hp).
  destruct (i =? 0); apply IH.
Qed.

Lemma PrepareFlag_padded f f' d d' :
  flagPadded f f' ->
  asDocGenerationFlag f = Some d -> asDocGenerationFlag f' = Some d' ->
  docPadded d d' /\ tabularTemplate.PrepareFlag f' d' = tabularTemplate.PrepareFlag f d.
Proof.
  intros Hp Hf Hf'.
  assert (Hd : docPadded d d').
  { destruct f, f'; cbn in *; try contradiction; try discriminate;
      injection Hf as <-; injection Hf' as <-; tauto. }
  split; [exact Hd|].
  destruct Hd as (Hn & Ht & Hu & Hv & He).
  unfold tabularTemplate.PrepareFlag.
  rewrite (prepareNames_padded _ _ Hn), <- Ht, <- Hu, <- Hv, <- He.
  destruct f, f'; cbn in Hp; try contradiction; try discriminate; try reflexivity.
  destruct Hp as [<- _]. reflexivity.
Qed.

(** ** Sorting *)

Lemma code_inj a b : code a = code b -> a = b.
Proof.
  unfold code. intros H.
  rewrite <- (ascii_N_embedding a), <- (ascii_N_embedding b), H. reflexivity.
Qed.

Lemma leb_refl a : sort.leb a a = true.
Proof.
  induction a as [|x a IH]; [reflexivity|]. cbn [sort.leb].
  rewrite N.ltb_irrefl. exact IH.
Qed.

Lemma leb_total a b : sort.leb a b = true \/ sort.leb b a = true.
Proof.
  revert b. induction a as [|x a IH]; intros [|y b]; cbn [sort.leb]; auto.
  destruct (N.ltb_spec (code x) (code y)), (N.ltb_spec (code y) (code x));
    auto; lia.
Qed.

Lemma leb_antisym a b : sort.leb a b = true -> sort.leb b a = true -> a = b.
Proof.
  revert b. induction a as [|x a IH]; intros [|y b]; cbn [sort.leb];
    try discriminate; [reflexivity|].
  destruct (N.ltb_spec (code x) (code y)), (N.ltb_spec (code y) (code x));
    try discriminate; try lia.
  intros H1 H2. f_equal; [apply code_inj; lia | apply IH; assumption].
Qed.

Lemma leb_trans a b c :
  sort.leb a b = true -> sort.leb b c = true -> sort.leb a c = true.
Proof.
  revert b c. induction a as [|x a IH]; intros [|y b] [|z c]; cbn [sort.leb];
    try discriminate; try reflexivity.
  destruct (N.ltb_spec (code x) (code y)), (N.ltb_spec (code y) (code x)),
    (N.ltb_spec (code y) (code z)), (N.ltb_spec (code z) (code y)),
    (N.ltb_spec (code x) (code z)), (N.ltb_spec (code z) (code x));
    try discriminate; try reflexivity; try lia.
  apply IH.
Qed.

Lemma insert_perm x l : Permutation (sort.insert x l) (x :: l).
Proof.
  induction l as [|y l IH]; cbn [sort.insert]; [reflexivity|].
  destruct (sort.leb x y); [reflexivity|].
  rewrite IH. apply perm_swap.
Qed.

Lemma Strings_perm l : Permutation (sort.Strings l) l.
Proof.
  induction l as [|x l IH]; cbn [sort.Strings]; [reflexivity|].
  rewrite insert_perm. constructor. exact IH.
Qed.

Lemma insert_sorted x l : sorted l -> sorted (sort.insert x l).
Proof.
  unfold sorted. induction 1 as [|y l Hs IH Hy]; cbn [sort.insert].
  - constructor; constructor.
  - destruct (sort.leb x y) eqn:E.
    + constructor; [constructor; assumption|].
      constructor; [exact E|].
      eapply Forall_impl; [|exact Hy]. intros z Hz. eapply leb_trans; eassumption.
    + constructor; [exact IH|].
      apply (Permutation_Forall (Permutation_sym (insert_perm x l))).
      constructor; [|exact Hy].
      destruct (leb_total x y) as [H|H]; [congruence | exact H].
Qed.

Lemma Strings_sorted l : sorted (sort.Strings l).
Proof.
  induction l as [|x l IH]; cbn [sort.Strings]; [constructor|].
  apply insert_sorted, IH.
Qed.

(** The increasing arrangement of a list of strings is unique. *)
Lemma sorted_unique l1 l2 : sorted l1 -> sorted l2 -> Permutation l1 l2 -> l1 = l2.
Proof.
  unfold sorted. intros H1. revert l2.
  induction H1 as [|x l1 Hs1 IH Hx]; intros l2 H2 Hp.
  - apply Permutation_nil in Hp. subst. reflexivity.
  - destruct H2 as [|y l2 Hs2 Hy].
    + apply Permutation_sym, Permutation_nil in Hp. discriminate.
    + assert (Exy : x = y).
      { assert (Hin1 : In y (x :: l1))
          by (apply (Permutation_in _ (Permutation_sym Hp)); left; reflexivity).
        assert (Hin2 : In x (y :: l2))
          by (apply (Permutation_in _ Hp); left; reflexivity).
        destruct Hin1 as [E|Hin1]; [exact E|].
        destruct Hin2 as [E|Hin2]; [symmetry; exact E|].
        rewrite Forall_forall in Hx, Hy.
        apply leb_antisym; [apply Hx | apply Hy]; assumption. }
      subst y. f_equal. apply IH; [exact Hs2|].
      eapply Permutation_cons_inv. exact Hp.
Qed.

Lemma Strings_permutation l1 l2 :
  Permutation l1 l2 -> sort.Strings l1 = sort.Strings l2.
Proof.
  intros Hp. apply sorted_unique; try apply Strings_sorted.
  rewrite !Strings_perm. exact Hp.
Qed.

Lemma docFlags_permutation flags flags' :
  Permutation flags flags' -> Permutation (docFlags flags) (docFlags flags').
Proof. apply Permutation_flat_map. Qed.

(** ** Flags: spelling, trimming, order *)

(** C7, as the code has it.  In the flowing modes every name of a flag, and
    in the tabular mode every name but the first, is rendered as its trimmed
    form behind one dash when that form is one byte long (or empty) and
    behind two dashes when it is two bytes or longer; the first name of a
    flag in the tabular mode is rendered behind two dashes whatever its
    length. *)
Theorem flag_name_spelling :
  dashed [] = lit "-"
  /\ (forall c, dashed [c] = lit "-" ++ [c])
  /\ (forall c1 c2 name, dashed (c1 :: c2 :: name) = lit "--" ++ c1 :: c2 :: name)
  /\ (forall flag sep opener closer value addDetails,
         prepareFlag flag sep opener closer value addDetails
         = opener
             ++ strings.Join (map (fun s => dashed (strings.TrimSpace s)) (Names flag)) sep
             ++ closer
             ++ (if TakesValue flag then lit "=" ++ value else [])
             ++ (if addDetails then flagDetails flag else [])
             ++ [NL])
  /\ (forall appFlag flag,
         cliTabularFlagTemplate.Name (tabularTemplate.PrepareFlag appFlag flag)
         = match Names flag with
           | [] => []
           | n :: _ => lit "--" ++ strings.TrimSpace n
           end
         /\ cliTabularFlagTemplate.Aliases (tabularTemplate.PrepareFlag appFlag flag)
            = map (fun s => dashed (strings.TrimSpace s)) (tl (Names flag))).
Proof.
  split; [reflexivity|]. split; [reflexivity|]. split; [reflexivity|].
  split; [|apply PrepareFlag_names].
  intros flag sep opener closer value addDetails. unfold prepareFlag.
  rewrite prepareFlagNames_join.
  destruct (TakesValue flag), addDetails; rewrite <- ?app_assoc; cbn [app];
    rewrite ?app_nil_r; reflexivity.
Qed.

(** C7 fails as stated: in the tabular mode the one-byte name [v], declared
    first, is rendered behind two dashes. *)
Lemma canonical_name_two_dashes :
  length (lit "v") = 1
  /\ map cliTabularFlagTemplate.Name
         (tabularTemplate.PrepareFlags [DocFlag flagVerbose])
     = [lit "--v"]
  /\ lit "--v" <> lit "-v".
Proof. split; [reflexivity|]. split; [reflexivity | discriminate]. Qed.

(** C8.  In the flowing modes the strings of the flags of a command are
    built one per flag, independently of each other, and returned in
    increasing lexicographic order; the result does not depend on the order
    in which the flags are declared. *)
Theorem prepareFlags_sorted flags flags' sep opener closer value addDetails :
  Permutation flags flags' ->
  Permutation (prepareFlags flags sep opener closer value addDetails)
              (map (fun d => prepareFlag d sep opener closer value addDetails)
                   (docFlags flags))
  /\ sorted (prepareFlags flags sep opener closer value addDetails)
  /\ prepareFlags flags' sep opener closer value addDetails
     = prepareFlags flags sep opener closer value addDetails.
Proof.
  intros Hp. rewrite !prepareFlags_map. repeat split.
  - apply Strings_perm.
  - apply Strings_sorted.
  - apply Strings_permutation, Permutation_map, Permutation_sym, docFlags_permutation.
    exact Hp.
Qed.

Lemma prepareFlags_sorted_witness :
  Permutation [DocFlag flagVerbose; PlainFlag; DocFlag flagOutput]
              [DocFlag flagOutput; DocFlag flagVerbose; PlainFlag]
  /\ prepareArgsWithValues [DocFlag flagOutput; DocFlag flagVerbose; PlainFlag]
     = prepareArgsWithValues [DocFlag flagVerbose; PlainFlag; DocFlag flagOutput].
Proof.
  assert (Hp : Permutation [DocFlag flagVerbose; PlainFlag; DocFlag flagOutput]
                           [DocFlag flagOutput; DocFlag flagVerbose; PlainFlag]).
  { apply Permutation_sym.
    apply (Permutation_cons_app [DocFlag flagVerbose; PlainFlag] []).
    reflexivity. }
  split; [exact Hp|].
  apply (prepareFlags_sorted _ _ (lit ", ") (lit "**") (lit "**") [QUOTE; QUOTE] true Hp).
Defined.

(** C10.  In every mode each name of a flag is trimmed before it is
    spelled.  [TrimSpace] cuts the white space off both ends of a name, down
    to a string that neither starts nor ends with a white-space rune.  In
    the flowing modes a flag is rendered by the spelled forms of its trimmed
    names, joined by the separator behind the opener; in the tabular mode
    its name is the trimmed first name behind two dashes and its aliases
    are the spelled forms of the other trimmed names; the dashes are chosen
    by the length of the trimmed name.  So a name with white space around
    it is rendered as the name without it, and flags that differ only in
    the white space around their names are rendered identically, by
    [prepareFlags] and by [PrepareFlags]. *)
Theorem flag_names_trimmed :
  (forall s,
      exists l r,
        s = l ++ strings.TrimSpace s ++ r
        /\ strings.runs strings.spaceWidth l
        /\ strings.runs strings.spaceWidthLast (rev r)
        /\ strings.spaceWidth (strings.TrimSpace s) = 0
        /\ strings.spaceWidthLast (rev (strings.TrimSpace s)) = 0)
  /\ (forall names sep opener,
         prepareFlagNames names sep opener
         = opener ++ strings.Join (map (fun s => dashed (strings.TrimSpace s)) names) sep)
  /\ (forall appFlag flag,
         cliTabularFlagTemplate.Name (tabularTemplate.PrepareFlag appFlag flag)
         = match Names flag with
           | [] => []
           | n :: _ => lit "--" ++ strings.TrimSpace n
           end
         /\ cliTabularFlagTemplate.Aliases (tabularTemplate.PrepareFlag appFlag flag)
            = map (fun s => dashed (strings.TrimSpace s)) (tl (Names flag)))
  /\ (forall n n', padded n n' -> strings.TrimSpace n' = strings.TrimSpace n)
  /\ (forall flags flags' sep opener closer value addDetails,
         Forall2 flagPadded flags flags' ->
         prepareFlags flags' sep opener closer value addDetails
         = prepareFlags flags sep opener closer value addDetails
         /\ tabularTemplate.PrepareFlags flags' = tabularTemplate.PrepareFlags flags).
Proof.
  split; [apply TrimSpace_split|]. split; [apply prepareFlagNames_join|].
  split; [apply PrepareFlag_names|]. split; [apply TrimSpace_padded|].
  intros flags flags' sep opener closer value addDetails H.
  rewrite !prepareFlags_map, !PrepareFlags_flat_map. split.
  - f_equal. induction H as [|f f' flags flags' Hf _ IH]; [reflexivity|].
    cbn [docFlags flat_map]. fold (docFlags flags) (docFlags flags').
    rewrite !map_app, IH. f_equal.
    destruct f, f'; cbn in Hf |- *; try contradiction; try reflexivity;
      f_equal; apply prepareFlag_padded; tauto.
  - induction H as [|f f' flags flags' Hf _ IH]; [reflexivity|].
    cbn [flat_map]. rewrite IH. f_equal.
    destruct (asDocGenerationFlag f) as [d|] eqn:Ed,
             (asDocGenerationFlag f') as [d'|] eqn:Ed';
      try (destruct f, f'; cbn in *; try contradiction; try discriminate; reflexivity).
    f_equal. eapply PrepareFlag_padded; eassumption.
Qed.

Lemma flag_names_trimmed_witness :
  Forall2 flagPadded [DocFlag flagVerbose] [DocFlag flagVerbosePadded]
  /\ prepareArgsSynopsis [DocFlag flagVerbose] = [lit "[-v|--verbose]" ++ [NL]]
  /\ map cliTabularFlagTemplate.Name (tabularTemplate.PrepareFlags [DocFlag flagVerbose])
     = [lit "--v"]
  /\ map cliTabularFlagTemplate.Aliases
         (tabularTemplate.PrepareFlags [DocFlag flagVerbose])
     = [[lit "--verbose"]]
  /\ prepareArgsSynopsis [DocFlag flagVerbosePadded]
     = prepareArgsSynopsis [DocFlag flagVerbose]
  /\ tabularTemplate.PrepareFlags [DocFlag flagVerbosePadded]
     = tabularTemplate.PrepareFlags [DocFlag flagVerbose].
Proof.
  assert (H : Forall2 flagPadded [DocFlag flagVerbose] [DocFlag flagVerbosePadded]).
  { constructor; [|constructor]. cbn. repeat split.
    constructor; [|constructor; [|constructor]].
    - apply (padded_intro [SP] (lit "v") [SP]);
        apply (strings.runs_cons _ [SP] []); try discriminate; try reflexivity;
        constructor.
    - apply (padded_intro [TAB] (lit "verbose") [ascii_of_N 194; ascii_of_N 160; SP]).
      + apply (strings.runs_cons _ [TAB] []); try discriminate; try reflexivity;
          constructor.
      + apply (strings.runs_cons _ [ascii_of_N 194; ascii_of_N 160] [SP]);
          [discriminate | reflexivity|].
        apply (strings.runs_cons _ [SP] []); try discriminate; try reflexivity;
          constructor. }
  split; [exact H|]. split; [reflexivity|]. split; [reflexivity|].
  split; [reflexivity|].
  apply (proj2 (proj2 (proj2 (proj2 flag_names_trimmed)))
           _ _ (lit "|") (lit "[") (lit "]") (lit "[value]") false H).
Defined.

(** ** Command trees *)

(** Induction over a command and, through them, its subcommands. *)
Fixpoint Command_ind' (P : Command.t -> Prop)
         (step : forall n al u ut d au g h fl subs,
             Forall P subs -> P (Command.mk n al u ut d au g h fl subs))
         (c : Command.t) {struct c} : P c :=
  match c with
  | Command.mk n al u ut d au g h fl subs =>
    step n al u ut d au g h fl subs
         ((fix all (l : list Command.t) : Forall P l :=
             match l with
             | [] => Forall_nil P
             | x :: l' => Forall_cons x (Command_ind' P step x) (all l')
             end) subs)
  end.

Lemma visibleNode_chain n :
  visibleNode n = forallb visible (fst n ++ [snd n]).
Proof.
  unfold visibleNode. rewrite forallb_app. cbn. rewrite andb_true_r. reflexivity.
Qed.

(** The chain of every node below [c] goes through [c]. *)
Lemma nodesOf_chain c : forall ancestors n,
  In n (nodesOf ancestors c) ->
  exists rest, fst n ++ [snd n] = ancestors ++ c :: rest.
Proof.
  induction c as [nm al u ut d au g h fl subs IH] using Command_ind'.
  intros ancestors n Hin. cbn [nodesOf] in Hin. destruct Hin as [<- | Hin].
  - exists []. reflexivity.
  - apply in_flat_map in Hin. destruct Hin as (s & Hs & Hin).
    rewrite Forall_forall in IH. destruct (IH s Hs _ _ Hin) as (rest & E).
    rewrite E, <- app_assoc. cbn. eauto.
Qed.

Lemma filter_none {A : Type} (f : A -> bool) (l : list A) :
  (forall x, In x l -> f x = false) -> filter f l = [].
Proof.
  induction l as [|x l IH]; intros H; [reflexivity|]. cbn.
  rewrite (H x (or_introl eq_refl)). apply IH. intros y Hy. apply H. right. exact Hy.
Qed.

Lemma filter_all {A : Type} (f : A -> bool) (l : list A) :
  (forall x, In x l -> f x = true) -> filter f l = l.
Proof.
  induction l as [|x l IH]; intros H; [reflexivity|]. cbn.
  rewrite (H x (or_introl eq_refl)). f_equal. apply IH. intros y Hy. apply H.
  right. exact Hy.
Qed.

Lemma filter_flat_map {A B : Type} (f : B -> bool) (g : A -> list B) (l : list A) :
  filter f (flat_map g l) = flat_map (fun a => filter f (g a)) l.
Proof.
  induction l as [|a l IH]; [reflexivity|]. cbn. rewrite filter_app, IH. reflexivity.
Qed.

Lemma map_flat_map {A B C : Type} (f : B -> C) (g : A -> list B) (l : list A) :
  map f (flat_map g l) = flat_map (fun a => map f (g a)) l.
Proof.
  induction l as [|a l IH]; [reflexivity|]. cbn. rewrite map_app, IH. reflexivity.
Qed.

Lemma flat_map_ext_in {A B : Type} (f g : A -> list B) (l : list A) :
  Forall (fun a => f a = g a) l -> flat_map f l = flat_map g l.
Proof.
  induction 1 as [|a l Ha _ IH]; [reflexivity|]. cbn. rewrite Ha, IH. reflexivity.
Qed.

Lemma hidden_subtree c ancestors :
  visible c = false -> filter visibleNode (nodesOf ancestors c) = [].
Proof.
  intros Hc. apply filter_none. intros n Hin.
  destruct (nodesOf_chain c _ _ Hin) as (rest & E).
  rewrite visibleNode_chain, E, forallb_app. cbn [forallb]. rewrite Hc.
  rewrite andb_false_r. reflexivity.
Qed.

Lemma prepareCommand_eq level c :
  prepareCommand level c
  = if Command.Hidden c then []
    else preparedBlock c level
         :: flat_map (prepareCommand (level + 1)) (Command.Commands c).
Proof.
  destruct c as [nm al u ut d au g h fl subs]. cbn [prepareCommand].
  destruct (Command.Hidden _); [reflexivity|]. destruct subs; reflexivity.
Qed.

Lemma nodesOf_eq ancestors c :
  nodesOf ancestors c
  = (ancestors, c) :: flat_map (nodesOf (ancestors ++ [c])) (Command.Commands c).
Proof. destruct c; reflexivity. Qed.

(** Flowing mode: the blocks of a command are those of the nodes below it
    that have no hidden node on their chain, in pre-order. *)
Lemma prepareCommand_nodes c : forall ancestors base,
  forallb visible ancestors = true ->
  prepareCommand (base + length ancestors) c
  = map (fun n => preparedBlock (snd n) (base + length (fst n)))
        (filter visibleNode (nodesOf ancestors c)).
Proof.
  induction c as [nm al u ut d au g h fl subs IH] using Command_ind'.
  intros ancestors base Hanc.
  change subs with (Command.Commands (Command.mk nm al u ut d au g h fl subs)) in IH.
  generalize dependent (Command.mk nm al u ut d au g h fl subs). intros c IH.
  destruct (visible c) eqn:Hc.
  - rewrite nodesOf_eq, prepareCommand_eq. cbn [filter].
    assert (Hn : visibleNode (ancestors, c) = true)
      by (unfold visibleNode; cbn [fst snd]; rewrite Hanc, Hc; reflexivity).
    rewrite Hn. cbn [map fst snd].
    assert (Hh : Command.Hidden c = false)
      by (unfold visible in Hc; destruct (Command.Hidden c); [discriminate | reflexivity]).
    rewrite Hh. f_equal.
    rewrite filter_flat_map, map_flat_map.
    apply flat_map_ext_in. eapply Forall_impl; [|exact IH].
    intros s Hs. cbv beta in Hs.
    replace (base + length ancestors + 1) with (base + length (ancestors ++ [c]))
      by (rewrite length_app; cbn; lia).
    apply Hs. rewrite forallb_app. cbn. rewrite Hanc, Hc. reflexivity.
  - rewrite hidden_subtree by exact Hc. rewrite prepareCommand_eq.
    unfold visible in Hc. destruct (Command.Hidden c); [reflexivity | discriminate].
Qed.

Lemma prepareCommands_nodes commands level :
  prepareCommands commands level
  = map (fun n => preparedBlock (snd n) (level + length (fst n)))
        (filter visibleNode (nodes [] commands)).
Proof.
  unfold prepareCommands, nodes. rewrite filter_flat_map, map_flat_map.
  apply flat_map_ext_in, Forall_forall. intros c _.
  rewrite <- (prepareCommand_nodes c [] level eq_refl). cbn [length].
  rewrite Nat.add_0_r. reflexivity.
Qed.

(** The name handed down the tabular recursion: [parent] followed by each
    name of the chain behind a space. *)
Lemma Join_pair a b sep : strings.Join [a; b] sep = a ++ sep ++ b.
Proof. reflexivity. Qed.

Lemma Join_spaces names :
  names <> [] ->
  concat (map (fun n => lit " " ++ n) names) = lit " " ++ strings.Join names (lit " ").
Proof.
  induction names as [|n names IH]; [congruence|]. intros _.
  destruct names as [|n' names].
  - cbn. rewrite app_nil_r. reflexivity.
  - cbn [map concat]. rewrite Join_cons by discriminate.
    cbn [map concat] in IH. rewrite IH by discriminate.
    rewrite <- !app_assoc. reflexivity.
Qed.

Lemma PrepareCommand_eq appPath parent level c :
  cliTabularCommandTemplate.Name (tabularTemplate.PrepareCommand appPath parent level c)
  = strings.TrimSpace (parent ++ lit " " ++ Command.Name c)
  /\ cliTabularCommandTemplate.SubCommands
       (tabularTemplate.PrepareCommand appPath parent level c)
     = map (tabularTemplate.PrepareCommand
              appPath (parent ++ lit " " ++ Command.Name c) (uintAdd level 1))
           (Command.Commands c).
Proof. destruct c; split; reflexivity. Qed.

Lemma flatten_eq t :
  flatten t = t :: flat_map flatten (cliTabularCommandTemplate.SubCommands t).
Proof. destruct t; reflexivity. Qed.

Lemma TrimSpace_leading_space s :
  strings.TrimSpace (lit " " ++ s) = strings.TrimSpace s.
Proof.
  rewrite <- (app_nil_r s) at 1.
  apply (TrimSpace_ascii_padded [SP] s []); repeat constructor.
Qed.

(** Tabular mode: the names of the records below a command, in pre-order,
    when [parent] is the name handed down for the chain [ancestors]. *)
Lemma PrepareCommand_names c : forall appPath level ancestors,
  map cliTabularCommandTemplate.Name
      (flatten (tabularTemplate.PrepareCommand
                  appPath
                  (concat (map (fun a => lit " " ++ Command.Name a) ancestors))
                  level c))
  = map (fun n => strings.TrimSpace
                    (concat (map (fun a => lit " " ++ Command.Name a)
                                 (fst n ++ [snd n]))))
        (nodesOf ancestors c).
Proof.
  induction c as [nm al u ut d au g h fl subs IH] using Command_ind'.
  intros appPath level ancestors.
  change subs with (Command.Commands (Command.mk nm al u ut d au g h fl subs)) in IH.
  generalize dependent (Command.mk nm al u ut d au g h fl subs). intros c IH.
  rewrite flatten_eq, nodesOf_eq. cbn [map fst snd].
  destruct (PrepareCommand_eq appPath
              (concat (map (fun a => lit " " ++ Command.Name a) ancestors)) level c)
    as [Hname Hsubs].
  rewrite Hname, Hsubs.
  assert (Hpath : concat (map (fun a => lit " " ++ Command.Name a) ancestors)
                    ++ lit " " ++ Command.Name c
                  = concat (map (fun a => lit " " ++ Command.Name a) (ancestors ++ [c]))).
  { rewrite map_app, concat_app. cbn [map concat]. rewrite app_nil_r. reflexivity. }
  rewrite Hpath. f_equal.
  rewrite flat_map_concat_map, map_map, <- flat_map_concat_map, !map_flat_map.
  apply flat_map_ext_in. eapply Forall_impl; [|exact IH].
  intros s Hs. apply Hs.
Qed.

Lemma PrepareCommands_names commands appPath level :
  map cliTabularCommandTemplate.Name
      (flat_map flatten (tabularTemplate.PrepareCommands commands appPath [] level))
  = map (fun n => strings.TrimSpace (chainName n)) (nodes [] commands).
Proof.
  unfold tabularTemplate.PrepareCommands, nodes.
  rewrite flat_map_concat_map, map_map, <- flat_map_concat_map, !map_flat_map.
  apply flat_map_ext_in, Forall_forall. intros c _.
  pose proof (PrepareCommand_names c appPath level []) as E.
  cbn [map concat] in E. cbv beta. rewrite E. clear E.
  apply map_ext. intros n. unfold chainName.
  rewrite <- map_map with (f := Command.Name) (g := fun x => lit " " ++ x).
  rewrite Join_spaces by (destruct (fst n); discriminate).
  apply TrimSpace_leading_space.
Qed.

(** Each ancestor on the chain of a node below [c] is above [c] or is
    itself a node below [c]. *)
Lemma nodesOf_ancestors c : forall ancestors n x,
  In n (nodesOf ancestors c) -> In x (fst n) ->
  In x ancestors \/ exists m, In m (nodesOf ancestors c) /\ snd m = x.
Proof.
  induction c as [nm al u ut d au g h fl subs IH] using Command_ind'.
  intros ancestors n x Hin Hx.
  change subs with (Command.Commands (Command.mk nm al u ut d au g h fl subs)) in IH.
  generalize dependent (Command.mk nm al u ut d au g h fl subs). intros c IH Hin.
  rewrite nodesOf_eq in Hin |- *. destruct Hin as [<- | Hin]; [left; exact Hx|].
  apply in_flat_map in Hin. destruct Hin as (s & Hs & Hin).
  rewrite Forall_forall in IH.
  destruct (IH s Hs _ _ _ Hin Hx) as [Ha | (m & Hm & Em)].
  - apply in_app_or in Ha. destruct Ha as [Ha | [<- | []]].
    + left. exact Ha.
    + right. exists (ancestors, c). split; [left; reflexivity | reflexivity].
  - right. exists m. split; [|exact Em]. right. apply in_flat_map. eauto.
Qed.

(** Without hidden commands below the top level, the nodes with no hidden
    node on their chain are the nodes below the commands that are not
    hidden. *)
Lemma visible_nodes commands :
  (forall n, In n (nodes [] (filter visible commands)) -> Command.Hidden (snd n) = false) ->
  filter visibleNode (nodes [] commands) = nodes [] (filter visible commands).
Proof.
  unfold nodes. induction commands as [|c commands IH]; intros H; [reflexivity|].
  cbn [flat_map filter]. rewrite filter_app.
  destruct (visible c) eqn:Hc.
  - cbn [flat_map filter] in H |- *. rewrite Hc in H. cbn [flat_map] in H.
    rewrite IH by (intros n Hn; apply H, in_or_app; right; exact Hn).
    f_equal. apply filter_all. intros n Hn.
    assert (Hv : forall m, In m (nodesOf [] c) -> visible (snd m) = true).
    { intros m Hm. unfold visible. rewrite H; [reflexivity|].
      apply in_or_app. left. exact Hm. }
    unfold visibleNode. rewrite (Hv n Hn), andb_true_r.
    apply forallb_forall. intros x Hx.
    destruct (nodesOf_ancestors c [] n x Hn Hx) as [[] | (m & Hm & <-)].
    apply Hv. exact Hm.
  - rewrite hidden_subtree by exact Hc. cbn [app].
    apply IH. intros n Hn. apply H. cbn [filter]. rewrite Hc. exact Hn.
Qed.

(** C4, as the code has it.  Flowing mode: a hidden command is left out
    together with everything below it; the blocks are those of the commands
    that are not hidden and have no hidden ancestor, in pre-order, under a
    heading of depth nesting level plus two.  Tabular mode: hidden top-level
    commands are left out with everything below them, and when no command
    below the top level is hidden the records are those of the same nodes,
    each named by the trimmed chain of the names of its ancestors and its
    own, joined by spaces. *)
Theorem command_visibility (a : App.t) (appPath : str) :
  flowingCommands a
  = map (fun n => preparedBlock (snd n) (length (fst n)))
        (filter visibleNode (nodes [] (App.Commands a)))
  /\ ((forall n, In n (nodes [] (App.VisibleCommands a)) ->
                 Command.Hidden (snd n) = false) ->
      map cliTabularCommandTemplate.Name (flat_map flatten (tabularCommands a appPath))
      = map (fun n => strings.TrimSpace (chainName n))
            (filter visibleNode (nodes [] (App.Commands a)))).
Proof.
  split.
  - unfold flowingCommands. rewrite prepareCommands_nodes. reflexivity.
  - intros H. unfold tabularCommands. rewrite PrepareCommands_names.
    rewrite visible_nodes; [reflexivity|]. exact H.
Qed.

Lemma command_visibility_witness :
  (forall n, In n (nodes [] (App.VisibleCommands (appOf plainTree))) ->
             Command.Hidden (snd n) = false)
  /\ map cliTabularCommandTemplate.Name
         (flat_map flatten (tabularCommands (appOf plainTree) (lit "app")))
     = map (fun n => strings.TrimSpace (chainName n))
           (filter visibleNode (nodes [] (App.Commands (appOf plainTree)))).
Proof.
  assert (H : forall n, In n (nodes [] (App.VisibleCommands (appOf plainTree))) ->
                        Command.Hidden (snd n) = false).
  { intros n Hn. cbn in Hn. intuition (subst; reflexivity). }
  split; [exact H|].
  apply (proj2 (command_visibility (appOf plainTree) (lit "app")) H).
Defined.

(** C4 fails as stated.  Flowing mode: the child of a hidden command is not
    hidden, yet no block is emitted for it.  Tabular mode: a hidden command
    below the top level gets a record, and its name is a segment of the name
    of its child. *)
Lemma hidden_descendants :
  visibleNode ([], hiddenParent) = false
  /\ map (fun c => Command.Hidden c) (Command.Commands hiddenParent) = [false]
  /\ flowingCommands (appOf [hiddenParent]) = []
  /\ map (fun c => Command.Hidden c) (Command.Commands nestedHidden) = [true]
  /\ map cliTabularCommandTemplate.Name
         (flat_map flatten (tabularCommands (appOf [nestedHidden]) (lit "app")))
     = [lit "top"; lit "top secret"; lit "top secret child"].
Proof. repeat split; vm_compute; reflexivity. Qed.

(** ** Counting runes *)

Lemma first_facts c size lo hi :
  utf8.first c = Some (size, (lo, hi)) ->
  (size = 2 \/ size = 3 \/ size = 4) /\ (128 <= lo)%N.
Proof.
  unfold utf8.first. cbv zeta.
  repeat match goal with
         | |- context [if ?b then _ else _] => destruct b
         end;
    intros [= <- <- <-]; split; auto; lia.
Qed.

Lemma inRange_ascii lo hi c :
  (128 <= lo)%N -> asciiByte c -> utf8.inRange lo hi c = false.
Proof.
  unfold utf8.inRange, asciiByte. intros Hlo Hc.
  destruct (N.leb_spec lo (code c)); [lia | reflexivity].
Qed.

Lemma isCont_ascii c : asciiByte c -> utf8.isCont c = false.
Proof. apply inRange_ascii. lia. Qed.

(** The loop never steps beyond the end of the string. *)
Lemma advance_bound c s : 1 <= utf8.advance c s <= S (length s).
Proof.
  unfold utf8.advance.
  destruct (code c <? utf8.RuneSelf)%N; [lia|].
  destruct (utf8.first c) as [[size [lo hi]]|] eqn:F; [|lia].
  destruct (first_facts c _ _ _ F) as [Hs _].
  destruct (Nat.ltb_spec (length s) (size - 1)); [lia|].
  destruct s as [|c1 [|c2 [|c3 s]]]; cbn [length] in *;
    repeat match goal with
           | |- context [if ?b then _ else _] => destruct b
           end; lia.
Qed.

(** ASCII bytes appended to a string do not change how far the loop steps
    inside the string. *)
Lemma advance_app c s t :
  Forall asciiByte t -> utf8.advance c (s ++ t) = utf8.advance c s.
Proof.
  intros Ht. unfold utf8.advance.
  destruct (code c <? utf8.RuneSelf)%N; [reflexivity|].
  destruct (utf8.first c) as [[size [lo hi]]|] eqn:F; [|reflexivity].
  destruct (first_facts c _ _ _ F) as [Hs Hlo].
  assert (Hr : forall x, In x t -> utf8.inRange lo hi x = false)
    by (intros x Hx; apply inRange_ascii; [exact Hlo | rewrite Forall_forall in Ht; auto]).
  assert (Hc : forall x, In x t -> utf8.isCont x = false)
    by (intros x Hx; apply isCont_ascii; rewrite Forall_forall in Ht; auto).
  destruct s as [|c1 [|c2 [|c3 s]]]; destruct t as [|t1 [|t2 [|t3 t]]];
    cbn [app length]; rewrite ?app_nil_r; try reflexivity;
    repeat match goal with
           | |- context [utf8.inRange lo hi t1] => rewrite (Hr t1) by (cbn; auto)
           | |- context [utf8.isCont t1] => rewrite (Hc t1) by (cbn; auto)
           | |- context [utf8.isCont t2] => rewrite (Hc t2) by (cbn; auto)
           | |- context [utf8.isCont t3] => rewrite (Hc t3) by (cbn; auto)
           end;
    destruct Hs as [-> | [-> | ->]]; cbn [Nat.sub Nat.ltb Nat.leb Nat.eqb negb length];
    repeat match goal with
           | |- context [if ?b then _ else _] => destruct b
           end; reflexivity.
Qed.

Lemma count_ascii t :
  Forall asciiByte t -> utf8.count 0 t = Z.of_nat (length t).
Proof.
  induction 1 as [|c t Hc _ IH]; [reflexivity|].
  cbn [utf8.count length]. unfold utf8.advance.
  unfold asciiByte in Hc. destruct (N.ltb_spec (code c) utf8.RuneSelf);
    [|unfold utf8.RuneSelf in *; lia].
  cbn [Nat.sub]. rewrite IH. lia.
Qed.

Lemma count_app s : forall skip t,
  skip <= length s -> Forall asciiByte t ->
  utf8.count skip (s ++ t) = (utf8.count skip s + Z.of_nat (length t))%Z.
Proof.
  induction s as [|c s IH]; intros skip t Hk Ht.
  - cbn [length] in Hk. replace skip with 0 by lia. cbn [app utf8.count].
    rewrite count_ascii by exact Ht. lia.
  - cbn [app utf8.count]. destruct skip as [|k].
    + rewrite advance_app by exact Ht.
      pose proof (advance_bound c s).
      rewrite IH by (try exact Ht; lia). lia.
    + apply IH; [cbn [length] in Hk; lia | exact Ht].
Qed.

(** The rune count of a cell between ASCII paddings. *)
Lemma RuneCount_padded l s r :
  Forall asciiByte l -> Forall asciiByte r ->
  utf8.RuneCountInString (l ++ s ++ r)
  = (Z.of_nat (length l) + utf8.RuneCountInString s + Z.of_nat (length r))%Z.
Proof.
  intros Hl Hr. unfold utf8.RuneCountInString.
  induction Hl as [|c l Hc _ IH].
  - cbn [app length]. rewrite count_app by (try exact Hr; lia). lia.
  - cbn [app utf8.count length]. unfold utf8.advance at 1.
    unfold asciiByte in Hc. destruct (N.ltb_spec (code c) utf8.RuneSelf);
      [|unfold utf8.RuneSelf in *; lia].
    cbn [Nat.sub]. rewrite IH. lia.
Qed.

Lemma RuneCount_nonneg s : (0 <= utf8.RuneCountInString s)%Z.
Proof.
  unfold utf8.RuneCountInString. generalize 0. induction s as [|c s IH]; intros k.
  - cbn. lia.
  - cbn [utf8.count]. destruct k; [specialize (IH (utf8.advance c s - 1)); lia | apply IH].
Qed.

(** ** The column widths *)

Lemma assign_spec lengths : forall i l,
  i < length lengths ->
  exists lengths', reflow.assign lengths i l = Some lengths'
                   /\ length lengths' = length lengths
                   /\ forall j, nth j lengths' 0%Z = if j =? i then l else nth j lengths 0%Z.
Proof.
  induction lengths as [|x lengths IH]; intros i l Hi; [cbn in Hi; lia|].
  destruct i as [|i].
  - exists (l :: lengths). repeat split. intros [|j]; reflexivity.
  - destruct (IH i l) as (lengths' & E & Hlen & Hnth); [cbn in Hi; lia|].
    exists (x :: lengths'). cbn [reflow.assign]. rewrite E. repeat split.
    + cbn. rewrite Hlen. reflexivity.
    + intros [|j]; [reflexivity|]. cbn [nth]. rewrite Hnth. reflexivity.
Qed.

Lemma nth_error_nth_Z (l : list Z) j x : nth_error l j = Some x -> nth j l 0%Z = x.
Proof. intros H. apply nth_error_nth. exact H. Qed.

(** The inner loop on a row that is not the separator: it succeeds exactly
    when the row fits in [lengths], and raises the entries of the columns of
    the row to the rune counts of its cells. *)
Lemma lengthsRow_spec n row : n <> 1 -> forall i lengths,
  match reflow.lengthsRow n i row lengths with
  | Some lengths' =>
    (row <> [] -> i + length row <= length lengths)
    /\ length lengths' = length lengths
    /\ forall j, nth j lengths' 0%Z
                 = if (i <=? j) && (j <? i + length row)
                   then Z.max (nth j lengths 0%Z)
                              (utf8.RuneCountInString (nth (j - i) row []))
                   else nth j lengths 0%Z
  | None => length lengths < i + length row
  end.
Proof.
  intros Hn. apply Nat.eqb_neq in Hn.
  induction row as [|cell row IH]; intros i lengths.
  - cbn [reflow.lengthsRow]. repeat split; [congruence|].
    intros j. cbn [length]. rewrite Nat.add_0_r.
    destruct (Nat.leb_spec i j), (Nat.ltb_spec j i); try lia; reflexivity.
  - cbn [reflow.lengthsRow length]. rewrite Hn.
    destruct (nth_error lengths i) as [cur|] eqn:Ecur; cbn [bind].
    2:{ apply nth_error_None in Ecur. lia. }
    assert (Hi : i < length lengths) by (apply nth_error_Some; congruence).
    apply nth_error_nth_Z in Ecur.
    set (l := utf8.RuneCountInString cell).
    assert (E1 : exists lengths1,
               (if (l >? cur)%Z then reflow.assign lengths i l else Some lengths)
               = Some lengths1
               /\ length lengths1 = length lengths
               /\ forall j, nth j lengths1 0%Z
                            = if j =? i then Z.max cur l else nth j lengths 0%Z).
    { destruct (Z.gtb_spec l cur).
      - destruct (assign_spec lengths i l Hi) as (lengths1 & E & Hlen & Hnth).
        exists lengths1. repeat split; try assumption.
        intros j. rewrite Hnth. destruct (j =? i); [lia | reflexivity].
      - exists lengths. repeat split. intros j.
        destruct (Nat.eqb_spec j i); [subst; lia | reflexivity]. }
    destruct E1 as (lengths1 & -> & Hlen1 & Hnth1). cbn [bind].
    specialize (IH (S i) lengths1).
    destruct (reflow.lengthsRow n (S i) row lengths1) as [lengths'|].
    + destruct IH as (Hfit & Hlen & Hnth). repeat split.
      * intros _. destruct row; [cbn; lia|]. specialize (Hfit ltac:(discriminate)).
        cbn [length] in *. lia.
      * congruence.
      * intros j. rewrite Hnth, Hnth1.
        destruct (Nat.eqb_spec j i) as [->|Hji].
        -- replace (S i <=? i) with false by (symmetry; apply Nat.leb_gt; lia).
           rewrite Nat.leb_refl. cbn [andb].
           replace (i <? i + S (length row)) with true
             by (symmetry; apply Nat.ltb_lt; lia).
           rewrite Nat.sub_diag. cbn [nth]. fold l. lia.
        -- destruct (Nat.leb_spec (S i) j), (Nat.leb_spec i j); try lia; cbn [andb];
             [|reflexivity].
           replace (j <? i + S (length row)) with (j <? S i + length row)
             by (f_equal; lia).
           destruct (j <? S i + length row); [|reflexivity].
           replace (j - i) with (S (j - S i)) by lia. reflexivity.
    + lia.
Qed.

Lemma rowsFrom_body n matrix : 2 <= n -> rowsFrom n matrix = matrix.
Proof.
  revert n. induction matrix as [|row matrix IH]; intros n Hn; [reflexivity|].
  cbn [rowsFrom]. replace (n =? 1) with false by (symmetry; apply Nat.eqb_neq; lia).
  cbn [app]. f_equal. apply IH. lia.
Qed.

Lemma measuredRows_rowsFrom matrix : measuredRows matrix = rowsFrom 0 matrix.
Proof.
  destruct matrix as [|h [|s body]]; try reflexivity.
  cbn [rowsFrom Nat.eqb app measuredRows]. rewrite rowsFrom_body by lia. reflexivity.
Qed.

Lemma nth_cellWidth (row : list str) j :
  j < length row -> utf8.RuneCountInString (nth j row []) = cellWidth row j.
Proof.
  intros Hj. unfold cellWidth.
  destruct (nth_error row j) as [cell|] eqn:E.
  - f_equal. apply nth_error_nth. exact E.
  - apply nth_error_None in E. lia.
Qed.

Lemma cellWidth_nonneg row j : (0 <= cellWidth row j)%Z.
Proof.
  unfold cellWidth. destruct (nth_error row j); [apply RuneCount_nonneg | lia].
Qed.

Lemma cellWidth_beyond row j : length row <= j -> cellWidth row j = 0%Z.
Proof.
  intros H. unfold cellWidth. apply nth_error_None in H. rewrite H. reflexivity.
Qed.

Lemma lengthsRow_separator row : forall i lengths,
  reflow.lengthsRow 1 i row lengths = Some lengths.
Proof.
  induction row as [|c row IH]; intros i lengths; [reflexivity|].
  cbn [reflow.lengthsRow Nat.eqb]. apply IH.
Qed.

(** The outer loop: it succeeds exactly when every measured row fits, and
    then each entry is the largest of its initial value and the rune counts
    in its column. *)
Lemma lengthsRows_spec matrix : forall n lengths,
  Forall (fun x => (0 <= x)%Z) lengths ->
  match reflow.lengthsRows n matrix lengths with
  | Some lengths' =>
    Forall (fun row => length row <= length lengths) (rowsFrom n matrix)
    /\ length lengths' = length lengths
    /\ forall j, j < length lengths ->
                 nth j lengths' 0%Z
                 = fold_right Z.max (nth j lengths 0%Z)
                              (map (fun row => cellWidth row j) (rowsFrom n matrix))
  | None => Exists (fun row => length lengths < length row) (rowsFrom n matrix)
  end.
Proof.
  induction matrix as [|row matrix IH]; intros n lengths Hpos.
  - cbn. repeat split. constructor.
  - cbn [reflow.lengthsRows rowsFrom].
    destruct (Nat.eqb_spec n 1) as [->|Hn].
    + rewrite lengthsRow_separator. cbn [bind app]. apply IH. exact Hpos.
    + pose proof (lengthsRow_spec n row Hn 0 lengths) as Hrow.
      destruct (reflow.lengthsRow n 0 row lengths) as [lengths1|]; cbn [bind app].
      * destruct Hrow as (Hfit & Hlen1 & Hnth1).
        assert (Hpos1 : Forall (fun x => (0 <= x)%Z) lengths1).
        { apply Forall_forall. intros x Hx.
          destruct (In_nth _ _ 0%Z Hx) as (j & Hj & <-). rewrite Hnth1.
          rewrite Forall_forall in Hpos.
          assert (0 <= nth j lengths 0)%Z by (apply Hpos, nth_In; lia).
          destruct (_ && _); lia. }
        specialize (IH (S n) lengths1 Hpos1).
        destruct (reflow.lengthsRows (S n) matrix lengths1) as [lengths'|].
        -- destruct IH as (Hall & Hlen & Hnth). rewrite Hlen1 in *.
           repeat split; [|exact Hlen|].
           ++ constructor; [|exact Hall].
              destruct row; [cbn; lia | specialize (Hfit ltac:(discriminate)); lia].
           ++ intros j Hj. rewrite (Hnth j Hj), Hnth1. cbn [map fold_right].
              cbn [Nat.leb andb Nat.add].
              assert (H0 : (0 <= nth j lengths 0)%Z)
                by (rewrite Forall_forall in Hpos; apply Hpos, nth_In; exact Hj).
              assert (Em : (if j <? length row
                            then Z.max (nth j lengths 0%Z)
                                       (utf8.RuneCountInString (nth (j - 0) row []))
                            else nth j lengths 0%Z)
                           = Z.max (nth j lengths 0%Z) (cellWidth row j)).
              { rewrite Nat.sub_0_r. destruct (Nat.ltb_spec j (length row)).
                - rewrite nth_cellWidth by assumption. reflexivity.
                - rewrite cellWidth_beyond by assumption. lia. }
              rewrite Em. clear.
              induction (map (fun row0 => cellWidth row0 j) (rowsFrom (S n) matrix))
                as [|w ws IHw]; cbn [fold_right]; lia.
        -- rewrite Hlen1 in IH. apply Exists_cons_tl. exact IH.
      * apply Exists_cons_hd. cbn [Nat.add] in Hrow. exact Hrow.
Qed.

Lemma repeat_zero_nth n j : nth j (repeat 0%Z n) 0%Z = 0%Z.
Proof.
  revert j. induction n as [|n IH]; intros [|j]; cbn; auto.
Qed.

(** [calcLengths] succeeds exactly when no header or body row is longer
    than the header, and computes the column widths. *)
Lemma calcLengths_spec matrix :
  match reflow.calcLengths matrix with
  | Some lengths =>
    Forall (fun row => length row <= length (nth 0 matrix [])) (measuredRows matrix)
    /\ length lengths = length (nth 0 matrix [])
    /\ forall j, j < length (nth 0 matrix []) -> nth j lengths 0%Z = columnWidth matrix j
  | None =>
    Exists (fun row => length (nth 0 matrix []) < length row) (measuredRows matrix)
  end.
Proof.
  unfold reflow.calcLengths, columnWidth. rewrite measuredRows_rowsFrom.
  pose proof (lengthsRows_spec matrix 0 (repeat 0%Z (length (nth 0 matrix []))))
    as H.
  rewrite repeat_length in H.
  destruct (reflow.lengthsRows 0 matrix _) as [lengths|].
  - destruct H as (Hall & Hlen & Hnth);
      [apply Forall_forall; intros x Hx; apply repeat_spec in Hx; lia|].
    repeat split; try assumption.
    intros j Hj. rewrite (Hnth j Hj), repeat_zero_nth. reflexivity.
  - apply H. apply Forall_forall. intros x Hx. apply repeat_spec in Hx. lia.
Qed.

(** No cell is wider than its column. *)
Lemma cellWidth_le_columnWidth matrix row j :
  In row (measuredRows matrix) -> (cellWidth row j <= columnWidth matrix j)%Z.
Proof.
  unfold columnWidth. induction (measuredRows matrix) as [|r rows IH]; [intros []|].
  intros [-> | Hin]; cbn [map fold_right]; [lia|]. specialize (IH Hin). lia.
Qed.

Lemma columnWidth_nonneg matrix j : (0 <= columnWidth matrix j)%Z.
Proof.
  unfold columnWidth. induction (measuredRows matrix); cbn [map fold_right]; lia.
Qed.

(** ** The formatted cells *)

Lemma max_Zmax x y : reflow.max x y = Z.max x y.
Proof. unfold reflow.max. destruct (Z.gtb_spec x y); lia. Qed.

Lemma Repeat_byte c n :
  (0 <= n)%Z -> strings.Repeat [c] n = Some (repeat c (Z.to_nat n)).
Proof.
  intros Hn. unfold strings.Repeat. destruct (Z.ltb_spec n 0); [lia|].
  f_equal. induction (Z.to_nat n) as [|k IH]; [reflexivity|].
  cbn [repeat concat app]. rewrite IH. reflexivity.
Qed.

Lemma spaces_snoc a s : (0 <= a)%Z -> spaces a ++ SP :: s = spaces (a + 1) ++ s.
Proof.
  intros Ha. unfold spaces. rewrite Z2Nat.inj_add by lia.
  rewrite repeat_app, <- app_assoc. reflexivity.
Qed.

Lemma asciiByte_repeat c n : asciiByte c -> Forall asciiByte (repeat c n).
Proof. intros Hc. apply Forall_forall. intros x Hx. apply repeat_spec in Hx. subst. exact Hc. Qed.

Lemma asciiByte_SP : asciiByte SP.
Proof. reflexivity. Qed.

(** The regenerated separator cell. *)
Lemma formatCell_separator centered lengths j cell c len :
  nth_error centered j = Some c -> nth_error lengths j = Some len -> (0 <= len)%Z ->
  reflow.formatCell centered lengths 1 j cell
  = Some (if c then lit ":" ++ repeat "-"%char (Z.to_nat len) ++ lit ":"
          else repeat "-"%char (Z.to_nat (len + 2))).
Proof.
  intros Hc Hl Hlen. unfold reflow.formatCell. cbn [Nat.eqb].
  rewrite Hc, Hl. cbn [bind]. rewrite !max_Zmax.
  change (lit "-") with ["-"%char]. destruct c; cbn [bind].
  - rewrite Repeat_byte by lia. cbn [bind]. rewrite Z.max_r by lia. reflexivity.
  - rewrite Repeat_byte by lia. rewrite Z.max_r by lia. reflexivity.
Qed.

(** A header or body cell: the content between its paddings. *)
Lemma formatCell_content centered lengths i j cell c len :
  i <> 1 ->
  nth_error centered j = Some c -> nth_error lengths j = Some len ->
  (utf8.RuneCountInString cell <= len)%Z ->
  reflow.formatCell centered lengths i j cell
  = Some (spaces (leftPad c (len - utf8.RuneCountInString cell))
            ++ cell
            ++ spaces (rightPad c (len - utf8.RuneCountInString cell))).
Proof.
  intros Hi Hc Hl Hw. unfold reflow.formatCell.
  apply Nat.eqb_neq in Hi. rewrite Hi, Hc, Hl. cbn [bind].
  set (w := utf8.RuneCountInString cell) in *.
  rewrite !max_Zmax. unfold rightPad, leftPad.
  destruct c.
  - rewrite Z.quot_div_nonneg by lia.
    destruct (Z.eqb_spec (len - w) 1) as [E1|E1].
    + rewrite E1. change (1 / 2)%Z with 0%Z. change (Z.max 1 0) with 1%Z.
      rewrite Repeat_byte by lia. cbn [bind].
      replace (Z.max 1 (1 - (1 - 1))) with 1%Z by lia.
      rewrite Repeat_byte by lia. cbn [bind].
      destruct (Z.leb_spec (1 + w + 1) (len + 1)); [|lia].
      reflexivity.
    + assert (Hd : (len - w = 0 \/ 2 <= len - w)%Z) by lia.
      rewrite Repeat_byte by lia. cbn [bind]. rewrite Repeat_byte by lia. cbn [bind].
      f_equal. fold (spaces (Z.max 1 ((len - w) / 2))).
      fold (spaces (Z.max 1 (len - w - (Z.max 1 ((len - w) / 2) - 1)))).
      destruct Hd as [E0|E2].
      * rewrite E0. change (0 / 2)%Z with 0%Z. change ((0 + 2) / 2)%Z with 1%Z.
        change (Z.max 1 0) with 1%Z.
        replace (Z.max 1 (0 - (1 - 1))) with 1%Z by lia.
        destruct (Z.leb_spec (1 + w + 1) (len + 1)); [lia|]. reflexivity.
      * assert (Hq : (1 <= (len - w) / 2)%Z) by (apply Z.div_le_lower_bound; lia).
        assert (Hq2 : (2 * ((len - w) / 2) <= len - w)%Z)
          by (apply Z.mul_div_le; lia).
        rewrite (Z.max_r 1 ((len - w) / 2)) by lia.
        rewrite Z.max_r by lia.
        destruct (Z.leb_spec ((len - w) / 2 + w + (len - w - ((len - w) / 2 - 1)))
                             (len + 1)); [|lia].
        cbn [app]. rewrite spaces_snoc by lia.
        replace ((len - w + 2) / 2)%Z with ((len - w) / 2 + 1)%Z.
        2:{ replace (len - w + 2)%Z with (len - w + 1 * 2)%Z by lia.
            rewrite Z.div_add by lia. reflexivity. }
        do 3 f_equal. lia.
  - rewrite Repeat_byte by lia. cbn [bind]. rewrite Repeat_byte by lia. cbn [bind].
    destruct (Z.leb_spec (1 + w + Z.max 1 (len - w + 1)) (len + 1)); [lia|].
    f_equal. cbn [app]. do 2 f_equal. unfold spaces. f_equal. lia.
Qed.

(** The formatted matrix, cell by cell. *)
Lemma formatRow_cells centered lengths i row : forall j0 row',
  reflow.formatRow centered lengths i j0 row = Some row' ->
  length row' = length row
  /\ forall j, match nth_error row j with
               | Some cell =>
                 exists cell', nth_error row' j = Some cell'
                   /\ reflow.formatCell centered lengths i (j0 + j) cell = Some cell'
               | None => nth_error row' j = None
               end.
Proof.
  induction row as [|cell row IH]; intros j0 row' H.
  - injection H as <-. split; [reflexivity|]. intros [|j]; reflexivity.
  - cbn [reflow.formatRow] in H.
    destruct (reflow.formatCell centered lengths i j0 cell) as [cell'|] eqn:Ec;
      [|discriminate].
    cbn [bind] in H.
    destruct (reflow.formatRow centered lengths i (S j0) row) as [row''|] eqn:Er;
      [|discriminate].
    injection H as <-. destruct (IH _ _ Er) as [Hlen Hnth].
    split; [cbn; congruence|].
    intros [|j]; cbn [nth_error].
    + exists cell'. rewrite Nat.add_0_r. auto.
    + specialize (Hnth j). rewrite Nat.add_succ_r. exact Hnth.
Qed.

Lemma formatRows_rows centered lengths matrix : forall i0 matrix',
  reflow.formatRows centered lengths i0 matrix = Some matrix' ->
  length matrix' = length matrix
  /\ forall i, match nth_error matrix i with
               | Some row =>
                 exists row', nth_error matrix' i = Some row'
                   /\ reflow.formatRow centered lengths (i0 + i) 0 row = Some row'
               | None => nth_error matrix' i = None
               end.
Proof.
  induction matrix as [|row matrix IH]; intros i0 matrix' H.
  - injection H as <-. split; [reflexivity|]. intros [|i]; reflexivity.
  - cbn [reflow.formatRows] in H.
    destruct (reflow.formatRow centered lengths i0 0 row) as [row'|] eqn:Er;
      [|discriminate].
    cbn [bind] in H.
    destruct (reflow.formatRows centered lengths (S i0) matrix) as [matrix''|] eqn:Em;
      [|discriminate].
    injection H as <-. destruct (IH _ _ Em) as [Hlen Hnth].
    split; [cbn; congruence|].
    intros [|i]; cbn [nth_error].
    + exists row'. rewrite Nat.add_0_r. auto.
    + specialize (Hnth i). rewrite Nat.add_succ_r. exact Hnth.
Qed.

(** Every cell of a formatted matrix is the formatted cell at the same
    place of the matrix. *)
Lemma formatMatrix_cells matrix matrix' :
  reflow.formatMatrix matrix = Some matrix' ->
  exists lengths,
    reflow.calcLengths matrix = Some lengths
    /\ length matrix' = length matrix
    /\ forall i j,
        match cellAt matrix i j with
        | Some cell =>
          exists cell', cellAt matrix' i j = Some cell'
            /\ reflow.formatCell (reflow.centeredOf (nth 1 matrix [])) lengths i j cell
               = Some cell'
        | None => cellAt matrix' i j = None
        end.
Proof.
  unfold reflow.formatMatrix. intros H.
  destruct (reflow.calcLengths matrix) as [lengths|]; [|discriminate].
  cbn [bind] in H. exists lengths. split; [reflexivity|].
  destruct (formatRows_rows _ _ _ _ _ H) as [Hlen Hrows].
  split; [exact Hlen|]. intros i j. unfold cellAt. specialize (Hrows i).
  destruct (nth_error matrix i) as [row|]; cbn [bind].
  - destruct Hrows as (row' & -> & Hrow). cbn [bind].
    destruct (formatRow_cells _ _ _ _ _ _ Hrow) as [_ Hcells]. exact (Hcells j).
  - rewrite Hrows. reflexivity.
Qed.

Lemma formatCell_lookup centered lengths i j cell cell' :
  reflow.formatCell centered lengths i j cell = Some cell' ->
  exists c len, nth_error centered j = Some c /\ nth_error lengths j = Some len.
Proof.
  unfold reflow.formatCell.
  destruct (nth_error centered j) as [c|], (nth_error lengths j) as [len|];
    destruct (i =? 1); cbn [bind]; try discriminate; try (destruct c; discriminate);
    eauto.
Qed.

Lemma row_measured (matrix : list (list str)) i row :
  nth_error matrix i = Some row -> i <> 1 -> In row (measuredRows matrix).
Proof.
  intros H Hi. destruct matrix as [|h [|s body]]; cbn [measuredRows].
  - destruct i; discriminate.
  - eapply nth_error_In. exact H.
  - destruct i as [|[|i]]; [left; injection H; auto | congruence |].
    right. eapply nth_error_In. exact H.
Qed.

Lemma leftPad_bounds c d :
  (0 <= d)%Z -> (1 <= leftPad c d /\ 1 <= rightPad c d)%Z.
Proof.
  intros Hd. unfold rightPad, leftPad. destruct c; [|lia].
  destruct (Z.eqb_spec d 1); [lia|].
  assert (2 * ((d + 2) / 2) <= d + 2)%Z by (apply Z.mul_div_le; lia).
  assert (1 <= (d + 2) / 2)%Z by (apply Z.div_le_lower_bound; lia).
  assert (d = 0 \/ 2 <= d)%Z as [->|] by lia; [cbn; lia | lia].
Qed.

Lemma spaces_length n : (0 <= n)%Z -> Z.of_nat (length (spaces n)) = n.
Proof. intros. unfold spaces. rewrite repeat_length. lia. Qed.

(** The width invariant on a formatted matrix. *)
Lemma formatMatrix_widths matrix matrix' :
  reflow.formatMatrix matrix = Some matrix' ->
  forall i j cell', cellAt matrix' i j = Some cell' ->
    utf8.RuneCountInString cell' = (columnWidth matrix j + 2)%Z.
Proof.
  intros H i j cell' Hcell'.
  destruct (formatMatrix_cells _ _ H) as (lengths & Hcalc & _ & Hcells).
  specialize (Hcells i j).
  destruct (cellAt matrix i j) as [cell|] eqn:Hcell; [|congruence].
  destruct Hcells as (cell'' & E & Hf). rewrite E in Hcell'. injection Hcell' as ->.
  destruct (formatCell_lookup _ _ _ _ _ _ Hf) as (c & len & Hc & Hl).
  pose proof (calcLengths_spec matrix) as Hspec. rewrite Hcalc in Hspec.
  destruct Hspec as (_ & Hlen & Hwidth).
  assert (Hj : j < length (nth 0 matrix [])).
  { rewrite <- Hlen. apply nth_error_Some. congruence. }
  assert (Elen : len = columnWidth matrix j).
  { rewrite <- (Hwidth j Hj). symmetry. apply nth_error_nth_Z. exact Hl. }
  pose proof (columnWidth_nonneg matrix j) as Hnn.
  destruct (Nat.eq_dec i 1) as [->|Hi].
  - rewrite (formatCell_separator _ _ _ _ _ _ Hc Hl) in Hf by lia.
    injection Hf as <-. unfold utf8.RuneCountInString. destruct c.
    + rewrite count_ascii.
      * change (lit ":") with [":"%char]. cbn [app length].
        rewrite length_app, repeat_length. cbn [length]. lia.
      * constructor; [reflexivity|].
        apply Forall_app. split; [apply asciiByte_repeat; reflexivity | repeat constructor].
    + rewrite count_ascii by (apply asciiByte_repeat; reflexivity).
      rewrite repeat_length. lia.
  - unfold cellAt in Hcell.
    destruct (nth_error matrix i) as [row|] eqn:Hrow; [|discriminate].
    cbn [bind] in Hcell.
    assert (Hw : (utf8.RuneCountInString cell <= len)%Z).
    { rewrite Elen.
      pose proof (cellWidth_le_columnWidth matrix row j (row_measured _ _ _ Hrow Hi)) as Hle.
      unfold cellWidth in Hle. rewrite Hcell in Hle. exact Hle. }
    rewrite (formatCell_content _ _ _ _ _ _ _ Hi Hc Hl Hw) in Hf. injection Hf as <-.
    destruct (leftPad_bounds c (len - utf8.RuneCountInString cell)) as [Hlp Hrp]; [lia|].
    rewrite RuneCount_padded by (apply asciiByte_repeat, asciiByte_SP).
    rewrite !spaces_length by lia. unfold rightPad. lia.
Qed.

(** C1.  For every block that [Prettify] reflows, every cell of the
    replacement - header cells, body cells and the regenerated separator
    cells - has the rune count of its column's width plus two, the width of
    a column being the largest rune count among its header and body
    cells. *)
Theorem width_invariant rawTable table :
  reflow.reflowTable rawTable = Some (Some table) ->
  exists matrix',
    reflow.formatMatrix (reflow.parseMatrix (strings.FieldsFunc rawTable isNewline))
    = Some matrix'
    /\ table = reflow.buildTable matrix'
    /\ forall i j cell',
        cellAt matrix' i j = Some cell' ->
        utf8.RuneCountInString cell'
        = (columnWidth (reflow.parseMatrix (strings.FieldsFunc rawTable isNewline)) j
           + 2)%Z.
Proof.
  unfold reflow.reflowTable.
  destruct (length (strings.FieldsFunc rawTable isNewline) <? 3); [discriminate|].
  destruct (reflow.formatMatrix _) as [matrix'|] eqn:Hf; [|discriminate].
  cbn [bind]. intros [= <-]. exists matrix'. repeat split.
  apply formatMatrix_widths. exact Hf.
Qed.

(** C5, as the code has it.  In a centered column, a header or body cell
    that is [d] runes narrower than the column stands between
    [leftPad true d] spaces and [rightPad true d] spaces, [d + 2] in all.
    When [d] is not 1 the left padding is the half of [d + 2] rounded down
    and the right padding the rest, so an odd space in excess goes to the
    right; when [d] is 1 the left padding is 2 and the right padding 1. *)
Theorem centered_padding matrix matrix' i j cell :
  reflow.formatMatrix matrix = Some matrix' ->
  i <> 1 -> cellAt matrix i j = Some cell ->
  nth_error (reflow.centeredOf (nth 1 matrix [])) j = Some true ->
  let d := (columnWidth matrix j - utf8.RuneCountInString cell)%Z in
  (0 <= d)%Z
  /\ cellAt matrix' i j
     = Some (spaces (leftPad true d) ++ cell ++ spaces (rightPad true d))
  /\ (leftPad true d + rightPad true d = d + 2)%Z
  /\ ((d = 1 /\ leftPad true d = 2 /\ rightPad true d = 1)%Z
      \/ (d <> 1 /\ leftPad true d = (d + 2) / 2
          /\ leftPad true d <= rightPad true d <= leftPad true d + 1)%Z).
Proof.
  intros H Hi Hcell Hcen d.
  destruct (formatMatrix_cells _ _ H) as (lengths & Hcalc & _ & Hcells).
  specialize (Hcells i j). rewrite Hcell in Hcells.
  destruct Hcells as (cell' & E & Hf).
  destruct (formatCell_lookup _ _ _ _ _ _ Hf) as (c & len & Hc & Hl).
  rewrite Hcen in Hc. injection Hc as <-.
  pose proof (calcLengths_spec matrix) as Hspec. rewrite Hcalc in Hspec.
  destruct Hspec as (_ & Hlen & Hwidth).
  assert (Hj : j < length (nth 0 matrix [])).
  { rewrite <- Hlen. apply nth_error_Some. congruence. }
  assert (Elen : len = columnWidth matrix j).
  { rewrite <- (Hwidth j Hj). symmetry. apply nth_error_nth_Z. exact Hl. }
  unfold cellAt in Hcell.
  destruct (nth_error matrix i) as [row|] eqn:Hrow; [|discriminate].
  cbn [bind] in Hcell.
  assert (Hw : (utf8.RuneCountInString cell <= len)%Z).
  { rewrite Elen.
    pose proof (cellWidth_le_columnWidth matrix row j (row_measured _ _ _ Hrow Hi)) as Hle.
    unfold cellWidth in Hle. rewrite Hcell in Hle. exact Hle. }
  rewrite (formatCell_content _ _ _ _ _ _ _ Hi Hcen Hl Hw) in Hf. injection Hf as <-.
  subst len. fold d in E, Hw |- *.
  assert (Hd : (0 <= d)%Z) by (unfold d; lia).
  split; [exact Hd|]. split; [exact E|].
  split; [unfold rightPad; lia|].
  unfold rightPad, leftPad. destruct (Z.eqb_spec d 1) as [->|Hd1]; [left; lia|].
  right. split; [exact Hd1|]. split; [reflexivity|].
  assert (2 * ((d + 2) / 2) <= d + 2)%Z by (apply Z.mul_div_le; lia).
  assert (d + 2 < 2 * ((d + 2) / 2) + 2)%Z.
  { pose proof (Z.mod_pos_bound (d + 2) 2 ltac:(lia)).
    pose proof (Z.div_mod (d + 2) 2 ltac:(lia)). lia. }
  lia.
Qed.

Lemma width_invariant_witness :
  reflow.reflowTable tableA = Some (Some tableAReflowed)
  /\ exists matrix',
      reflow.formatMatrix (reflow.parseMatrix (strings.FieldsFunc tableA isNewline))
      = Some matrix'
      /\ tableAReflowed = reflow.buildTable matrix'
      /\ forall i j cell',
          cellAt matrix' i j = Some cell' ->
          utf8.RuneCountInString cell'
          = (columnWidth (reflow.parseMatrix (strings.FieldsFunc tableA isNewline)) j
             + 2)%Z.
Proof.
  assert (H : reflow.reflowTable tableA = Some (Some tableAReflowed))
    by (vm_compute; reflexivity).
  split; [exact H|]. exact (width_invariant tableA tableAReflowed H).
Defined.

Lemma centered_padding_witness :
  let matrix := reflow.parseMatrix (strings.FieldsFunc centeredTable isNewline) in
  reflow.formatMatrix matrix = Some [[lit " ab "]; [lit ":--:"]; [lit "  c "]]
  /\ 2 <> 1
  /\ cellAt matrix 2 0 = Some (lit "c")
  /\ nth_error (reflow.centeredOf (nth 1 matrix [])) 0 = Some true
  /\ cellAt [[lit " ab "]; [lit ":--:"]; [lit "  c "]] 2 0
     = Some (spaces (leftPad true 1) ++ lit "c" ++ spaces (rightPad true 1)).
Proof.
  intros matrix.
  assert (H1 : reflow.formatMatrix matrix
               = Some [[lit " ab "]; [lit ":--:"]; [lit "  c "]])
    by (vm_compute; reflexivity).
  assert (H2 : 2 <> 1) by discriminate.
  assert (H3 : cellAt matrix 2 0 = Some (lit "c")) by (vm_compute; reflexivity).
  assert (H4 : nth_error (reflow.centeredOf (nth 1 matrix [])) 0 = Some true)
    by (vm_compute; reflexivity).
  repeat (split; [assumption|]).
  exact (proj1 (proj2 (centered_padding matrix _ 2 0 (lit "c") H1 H2 H3 H4))).
Defined.

(** C5 fails as stated: in a centered column of width 2 the cell [c] has
    three spaces to share, and two are put on the left, one on the right. *)
Lemma centered_extra_space_left :
  Prettify centeredTable = Some (text [lit "| ab |"; lit "|:--:|"; lit "|  c |"]).
Proof. vm_compute. reflexivity. Qed.

(** ** Failing and skipped blocks *)

Lemma formatCell_defined centered lengths i j cell :
  j < length centered -> j < length lengths ->
  exists cell', reflow.formatCell centered lengths i j cell = Some cell'.
Proof.
  intros Hc Hl. unfold reflow.formatCell.
  destruct (nth_error centered j) as [c|] eqn:Ec; [|apply nth_error_None in Ec; lia].
  destruct (nth_error lengths j) as [len|] eqn:El; [|apply nth_error_None in El; lia].
  assert (HR : forall s m x, (0 <= m)%Z -> exists r, strings.Repeat s (reflow.max m x) = Some r).
  { intros s m x Hm. unfold strings.Repeat. rewrite max_Zmax.
    destruct (Z.ltb_spec (Z.max m x) 0); [lia | eauto]. }
  destruct (i =? 1); cbn [bind].
  - destruct c.
    + destruct (HR (lit "-") 0%Z len) as [r ->]; [lia|]. cbn [bind]. eauto.
    + apply HR. lia.
  - destruct c.
    + destruct (HR [SP] 1%Z (Z.quot (len - utf8.RuneCountInString cell) 2)) as [l ->];
        [lia|]. cbn [bind].
      match goal with
      | |- context [strings.Repeat [SP] (reflow.max 1 ?x)] =>
        destruct (HR [SP] 1%Z x) as [r ->]; [lia|]
      end.
      cbn [bind]. eauto.
    + change (strings.Repeat [SP] 1) with (Some [SP]). cbn [bind].
      destruct (HR [SP] 1%Z (len - utf8.RuneCountInString cell + 1)%Z) as [r ->]; [lia|].
      cbn [bind]. eauto.
Qed.

Lemma formatRow_defined centered lengths i row : forall j0,
  j0 + length row <= length centered -> j0 + length row <= length lengths ->
  exists row', reflow.formatRow centered lengths i j0 row = Some row'.
Proof.
  induction row as [|cell row IH]; intros j0 Hc Hl; [cbn; eauto|].
  cbn [length] in *. cbn [reflow.formatRow].
  destruct (formatCell_defined centered lengths i j0 cell) as [cell' ->]; try lia.
  destruct (IH (S j0)) as [row' ->]; try lia. cbn [bind]. eauto.
Qed.

Lemma formatRows_defined centered lengths matrix : forall i0,
  Forall (fun row => length row <= length centered /\ length row <= length lengths)
         matrix ->
  exists matrix', reflow.formatRows centered lengths i0 matrix = Some matrix'.
Proof.
  intros i0 H. revert i0.
  induction H as [|row matrix [Hc Hl] _ IH]; intros i0; [cbn; eauto|].
  cbn [reflow.formatRows].
  destruct (formatRow_defined centered lengths i0 row 0) as [row' ->]; try lia.
  destruct (IH (S i0)) as [matrix' ->]. cbn [bind]. eauto.
Qed.

Lemma measuredRows_incl (matrix : list (list str)) row :
  In row (measuredRows matrix) -> In row matrix.
Proof.
  destruct matrix as [|h [|s body]]; cbn [measuredRows]; auto.
  intros [<- | H]; [left; reflexivity | right; right; exact H].
Qed.

(** A regular matrix is formatted without failure. *)
Lemma formatMatrix_defined matrix :
  regular matrix -> exists matrix', reflow.formatMatrix matrix = Some matrix'.
Proof.
  intros [Hsep Hrows]. unfold reflow.formatMatrix.
  pose proof (calcLengths_spec matrix) as Hspec.
  destruct (reflow.calcLengths matrix) as [lengths|].
  - destruct Hspec as (_ & Hlen & _). cbn [bind].
    apply formatRows_defined. eapply Forall_impl; [|exact Hrows].
    intros row Hrow. cbv beta in Hrow.
    unfold reflow.centeredOf. rewrite length_map, Hsep, Hlen. lia.
  - exfalso. apply Exists_exists in Hspec. destruct Hspec as (row & Hin & Hlt).
    rewrite Forall_forall in Hrows. specialize (Hrows row (measuredRows_incl _ _ Hin)).
    lia.
Qed.

Lemma reflowTable_defined rawTable :
  length (strings.FieldsFunc rawTable isNewline) < 3
  \/ regular (reflow.parseMatrix (strings.FieldsFunc rawTable isNewline)) ->
  exists r, reflow.reflowTable rawTable = Some r.
Proof.
  intros H. unfold reflow.reflowTable.
  destruct (Nat.ltb_spec (length (strings.FieldsFunc rawTable isNewline)) 3);
    [eauto|].
  destruct H as [H | H]; [lia|].
  destruct (formatMatrix_defined _ H) as [matrix' ->]. cbn [bind]. eauto.
Qed.

Lemma steps_defined tables : forall s,
  Forall (fun rawTable => exists r, reflow.reflowTable rawTable = Some r) tables ->
  exists s', fold_left reflow.step tables (Some s) = Some s'.
Proof.
  induction tables as [|rawTable tables IH]; intros s H; [cbn; eauto|].
  inversion H as [|? ? [r Hr] Hrest]; subst. cbn [fold_left].
  unfold reflow.step at 2. cbn [bind]. rewrite Hr. cbn [bind].
  destruct r; apply IH; exact Hrest.
Qed.

(** C2, as the code has it.  [Prettify] returns a result on every input in
    which each matched block of three or more lines parses to a matrix
    whose separator row has as many cells as the header row and none of
    whose rows has more cells than the header row.  Such a block is
    reflowed, also when one of its rows has fewer cells than the header
    row; a block of fewer than three lines is left as it is. *)
Theorem Prettify_defined s :
  (forall rawTable,
      In rawTable (regexp.FindAllString reflow.tableRe s) ->
      length (strings.FieldsFunc rawTable isNewline) < 3
      \/ regular (reflow.parseMatrix (strings.FieldsFunc rawTable isNewline))) ->
  (exists out, Prettify s = Some out)
  /\ forall rawTable,
      In rawTable (regexp.FindAllString reflow.tableRe s) ->
      if length (strings.FieldsFunc rawTable isNewline) <? 3
      then reflow.reflowTable rawTable = Some None
      else exists matrix',
          reflow.formatMatrix
            (reflow.parseMatrix (strings.FieldsFunc rawTable isNewline))
          = Some matrix'
          /\ reflow.reflowTable rawTable = Some (Some (reflow.buildTable matrix')).
Proof.
  intros H. split.
  - unfold Prettify.
    destruct (steps_defined (regexp.FindAllString reflow.tableRe s) s) as [s' ->].
    + apply Forall_forall. intros rawTable Hin. apply reflowTable_defined, H, Hin.
    + cbn [bind]. eauto.
  - intros rawTable Hin. unfold reflow.reflowTable.
    destruct (Nat.ltb_spec (length (strings.FieldsFunc rawTable isNewline)) 3);
      [reflexivity|].
    destruct (H rawTable Hin) as [Hlt | Hreg]; [lia|].
    destruct (formatMatrix_defined _ Hreg) as [matrix' Hm].
    exists matrix'. rewrite Hm. split; reflexivity.
Qed.

Lemma Prettify_defined_witness :
  (forall rawTable,
      In rawTable (regexp.FindAllString reflow.tableRe shortRowTable) ->
      length (strings.FieldsFunc rawTable isNewline) < 3
      \/ regular (reflow.parseMatrix (strings.FieldsFunc rawTable isNewline)))
  /\ exists out, Prettify shortRowTable = Some out.
Proof.
  assert (H : forall rawTable,
             In rawTable (regexp.FindAllString reflow.tableRe shortRowTable) ->
             length (strings.FieldsFunc rawTable isNewline) < 3
             \/ regular (reflow.parseMatrix (strings.FieldsFunc rawTable isNewline))).
  { intros rawTable Hin.
    assert (E : regexp.FindAllString reflow.tableRe shortRowTable = [shortRowTable])
      by (vm_compute; reflexivity).
    rewrite E in Hin. destruct Hin as [<- | []]. right. split.
    - vm_compute. reflexivity.
    - vm_compute. repeat constructor. }
  split; [exact H|]. exact (proj1 (Prettify_defined shortRowTable H)).
Defined.

(** C2 fails as stated: [Prettify] panics on a block with a body row that
    has more cells than the header row, and a block with a body row that has
    fewer cells is matched and reflowed, not left as it is. *)
Lemma mismatched_rows :
  regexp.FindAllString reflow.tableRe longRowTable = [longRowTable]
  /\ Prettify longRowTable = None
  /\ regexp.FindAllString reflow.tableRe shortRowTable = [shortRowTable]
  /\ Prettify shortRowTable = Some (text [lit "| a | b |"; lit "|---|---|"; lit "| c |"]).
Proof. repeat split; vm_compute; reflexivity. Qed.

(** Lines of a block. *)
Lemma fields_length_some f s : forall w,
  length (strings.fields f (Some w) s) = length (strings.fields f (Some []) s).
Proof.
  induction s as [|c s IH]; intros w; [reflexivity|].
  cbn [strings.fields]. destruct (f c); [reflexivity|].
  rewrite IH. symmetry. apply IH.
Qed.

Lemma fields_length_none f s :
  length (strings.fields f None s) <= length (strings.fields f (Some []) s).
Proof.
  induction s as [|c s IH]; [cbn; lia|].
  cbn [strings.fields]. destruct (f c); [cbn [length]; lia | reflexivity].
Qed.

Lemma fields_length_run f h rest : forall cur,
  Forall (fun c => f c = false) h ->
  length (strings.fields f cur (h ++ rest))
  <= length (strings.fields f (Some []) rest).
Proof.
  induction h as [|c h IH]; intros cur Hh.
  - cbn [app]. destruct cur; [rewrite fields_length_some; lia | apply fields_length_none].
  - inversion Hh as [|? ? Hc Hh']; subst. cbn [app strings.fields]. rewrite Hc.
    apply IH. exact Hh'.
Qed.

Lemma no_newline line :
  ~ In NL line -> Forall (fun c => isNewline c = false) line.
Proof.
  intros H. apply Forall_forall. intros c Hc. unfold isNewline.
  destruct (Ascii.eqb_spec c NL); [subst; contradiction | reflexivity].
Qed.

(** C3, as the code has it.  A block made of a header line and a separator
    line, without body rows, has fewer than three lines, with or without a
    final newline; the loop of [Prettify] passes over it and the text stays
    as it is. *)
Theorem header_only_skipped header separator s :
  ~ In NL header -> ~ In NL separator ->
  reflow.reflowTable (header ++ [NL] ++ separator) = Some None
  /\ reflow.reflowTable (header ++ [NL] ++ separator ++ [NL]) = Some None
  /\ reflow.step (Some s) (header ++ [NL] ++ separator) = Some s
  /\ reflow.step (Some s) (header ++ [NL] ++ separator ++ [NL]) = Some s.
Proof.
  intros Hh Hs. apply no_newline in Hh. apply no_newline in Hs.
  assert (L1 : length (strings.FieldsFunc (header ++ [NL] ++ separator) isNewline) <= 2).
  { unfold strings.FieldsFunc.
    etransitivity; [apply fields_length_run; exact Hh|].
    cbn [app strings.fields]. change (isNewline NL) with true. cbn [rev length].
    rewrite <- (app_nil_r separator).
    pose proof (fields_length_run isNewline separator [] None Hs) as H.
    cbn [strings.fields length] in H. lia. }
  assert (L2 : length (strings.FieldsFunc (header ++ [NL] ++ separator ++ [NL]) isNewline)
               <= 2).
  { unfold strings.FieldsFunc.
    etransitivity; [apply fields_length_run; exact Hh|].
    cbn [app strings.fields]. change (isNewline NL) with true. cbn [rev length].
    pose proof (fields_length_run isNewline separator [NL] None Hs) as H.
    cbn [strings.fields] in H. change (isNewline NL) with true in H.
    cbn [strings.fields rev length] in H. lia. }
  assert (R1 : reflow.reflowTable (header ++ [NL] ++ separator) = Some None).
  { unfold reflow.reflowTable.
    destruct (Nat.ltb_spec (length (strings.FieldsFunc (header ++ [NL] ++ separator)
                                                       isNewline)) 3); [reflexivity | lia]. }
  assert (R2 : reflow.reflowTable (header ++ [NL] ++ separator ++ [NL]) = Some None).
  { unfold reflow.reflowTable.
    destruct (Nat.ltb_spec
                (length (strings.FieldsFunc (header ++ [NL] ++ separator ++ [NL])
                                            isNewline)) 3); [reflexivity | lia]. }
  repeat split; try assumption; unfold reflow.step; cbn [bind];
    rewrite ?R1, ?R2; reflexivity.
Qed.

Lemma header_only_skipped_witness :
  ~ In NL (lit "|a|") /\ ~ In NL (lit "|-|")
  /\ reflow.step (Some headerOnlyTable) (lit "|a|" ++ [NL] ++ lit "|-|" ++ [NL])
     = Some headerOnlyTable.
Proof.
  assert (H1 : ~ In NL (lit "|a|")) by (cbn; intuition discriminate).
  assert (H2 : ~ In NL (lit "|-|")) by (cbn; intuition discriminate).
  split; [exact H1|]. split; [exact H2|].
  exact (proj2 (proj2 (proj2 (header_only_skipped (lit "|a|") (lit "|-|")
                                                   headerOnlyTable H1 H2)))).
Defined.

(** C3 fails as stated: a header and a separator without body rows are
    matched as a block, and [Prettify] returns the text as it is instead of
    the reflowed rows. *)
Lemma header_only_unchanged :
  regexp.FindAllString reflow.tableRe headerOnlyTable = [headerOnlyTable]
  /\ Prettify headerOnlyTable = Some headerOnlyTable
  /\ headerOnlyTable <> text [lit "| a |"; lit "|---|"].
Proof.
  split; [vm_compute; reflexivity|]. split; [vm_compute; reflexivity|]. discriminate.
Qed.

(** ** Matching *)

Import regexp.

(** A greedy star over one byte stops after the last byte of the run when
    the continuation succeeds there. *)
Lemma starLoop_run (p : ascii -> bool) m k u rest r :
  (forall prev x s k', m prev (x :: s) k' = if p x then k' (Some x) s else None) ->
  (forall prev k', m prev [] k' = None) ->
  Forall (fun x => p x = true) u ->
  match rest with [] => True | y :: _ => p y = false end ->
  (forall prev, k prev rest = Some r) ->
  forall n prev,
    length u <= n ->
    starLoop m k n prev (u ++ rest) = Some r.
Proof.
  intros Hm Hnil Hu Hrest Hk. induction Hu as [|x u Hx _ IH]; intros n prev Hn.
  - cbn [app]. destruct n as [|n]; [apply Hk|].
    cbn [starLoop]. destruct rest as [|y rest].
    + rewrite Hnil. apply Hk.
    + rewrite Hm, Hrest. apply Hk.
  - destruct n as [|n]; [cbn in Hn; lia|].
    cbn [app starLoop]. rewrite Hm, Hx.
    replace (length (u ++ rest) <? length (x :: u ++ rest)) with true
      by (symmetry; apply Nat.ltb_lt; cbn; lia).
    rewrite (IH n (Some x)); [reflexivity | cbn in Hn; lia].
Qed.

(** A greedy star over one byte gives back the last byte of the run when
    the continuation fails behind the run and succeeds in front of that
    byte. *)
Lemma starLoop_back (p : ascii -> bool) m k u x rest r :
  (forall prev x s k', m prev (x :: s) k' = if p x then k' (Some x) s else None) ->
  (forall prev k', m prev [] k' = None) ->
  Forall (fun x => p x = true) u -> p x = true ->
  match rest with [] => True | y :: _ => p y = false end ->
  (forall prev, k prev rest = None) ->
  (forall prev, k prev (x :: rest) = Some r) ->
  forall n prev,
    S (length u) <= n ->
    starLoop m k n prev (u ++ x :: rest) = Some r.
Proof.
  intros Hm Hnil Hu Hx Hrest Hfail Hok.
  induction Hu as [|y u Hy _ IH]; intros n prev Hn.
  - destruct n as [|n]; [lia|]. cbn [app starLoop]. rewrite Hm, Hx.
    replace (length rest <? length (x :: rest)) with true
      by (symmetry; apply Nat.ltb_lt; cbn; lia).
    assert (E : starLoop m k n (Some x) rest = None).
    { destruct n as [|n]; [apply Hfail|]. cbn [starLoop].
      destruct rest as [|z rest]; [rewrite Hnil | rewrite Hm, Hrest]; apply Hfail. }
    rewrite E. apply Hok.
  - destruct n as [|n]; [lia|]. cbn [app starLoop]. rewrite Hm, Hy.
    replace (length (u ++ x :: rest) <? length (y :: u ++ x :: rest)) with true
      by (symmetry; apply Nat.ltb_lt; cbn; lia).
    rewrite IH by (cbn in Hn; lia). reflexivity.
Qed.

Lemma exec_Lit c prev x s k :
  exec (Lit c) prev (x :: s) k = if Ascii.eqb x c then k (Some x) s else None.
Proof. reflexivity. Qed.

Lemma exec_NotLit c prev x s k :
  exec (NotLit c) prev (x :: s) k = if negb (Ascii.eqb x c) then k (Some x) s else None.
Proof. cbn [exec]. destruct (Ascii.eqb x c); reflexivity. Qed.

(** [\|[^\n]+\|] on a line. *)
Lemma exec_line b rest k r prev :
  lineBody b ->
  (forall p, k p (NL :: rest) = Some r) ->
  exec reflow.pipe prev (lit "|" ++ b ++ lit "|" ++ NL :: rest)
       (fun p s => exec (Plus (NotLit NL)) p s
                        (fun p' s' => exec reflow.pipe p' s' k))
  = Some r.
Proof.
  intros [Hne Hnl] Hk. destruct b as [|x b]; [congruence|].
  change (lit "|") with ["|"%char]. cbn [app]. unfold reflow.pipe at 1.
  rewrite exec_Lit. cbn [Ascii.eqb Bool.eqb]. cbn match.
  unfold Plus. cbn [exec]. fold (exec (NotLit NL)).
  assert (Hx : Ascii.eqb x NL = false).
  { destruct (Ascii.eqb_spec x NL); [subst; cbn in Hnl; tauto | reflexivity]. }
  rewrite Hx.
  apply (starLoop_back (fun c => negb (Ascii.eqb c NL))).
  - intros. apply exec_NotLit.
  - reflexivity.
  - apply Forall_forall. intros y Hy.
    destruct (Ascii.eqb_spec y NL); [subst; cbn in Hnl; tauto | reflexivity].
  - reflexivity.
  - reflexivity.
  - intros p. reflexivity.
  - intros p. unfold reflow.pipe. rewrite exec_Lit. cbn. apply Hk.
  - rewrite !length_app. cbn. lia.
Qed.

Lemma exec_header b rest k r prev :
  lineBody b ->
  (forall p, k p rest = Some r) ->
  exec reflow.headerRe prev (tableLine b ++ NL :: rest) k = Some r.
Proof.
  intros Hb Hk. unfold reflow.headerRe, tableLine. cbn [exec].
  rewrite <- !app_assoc. fold (exec reflow.pipe).
  apply (exec_line b rest
           (fun p s => exec (Quest (Lit CR)) p s (fun p' s' => exec (Lit NL) p' s' k))
           r prev Hb).
  intros p. cbn. apply Hk.
Qed.

Lemma exec_row b rest k r prev :
  lineBody b ->
  (forall p, k p rest = Some r) ->
  exec reflow.rowRe prev (tableLine b ++ NL :: rest) k = Some r.
Proof.
  intros Hb Hk. unfold reflow.rowRe, tableLine. cbn [exec].
  rewrite <- !app_assoc. fold (exec reflow.pipe).
  apply (exec_line b rest
           (fun p s => exec (Quest (Lit CR)) p s
                            (fun p' s' => exec (Quest (Lit NL)) p' s' k))
           r prev Hb).
  intros p. cbn. rewrite Hk. reflexivity.
Qed.

Lemma exec_rows bodies k r :
  Forall lineBody bodies ->
  (forall p, k p [] = Some r) ->
  forall n prev,
    length bodies <= n ->
    starLoop (exec reflow.rowRe) k n prev (rowsText bodies) = Some r.
Proof.
  intros Hb Hk. induction Hb as [|b bodies Hb _ IH]; intros n prev Hn.
  - cbn. destruct n; [apply Hk|]. cbn [starLoop]. cbn. apply Hk.
  - destruct n as [|n]; [cbn in Hn; lia|].
    unfold rowsText. cbn [map concat]. fold (rowsText bodies).
    cbn [starLoop]. rewrite <- app_assoc. cbn [app].
    rewrite (exec_row b (rowsText bodies) _ r prev Hb); [reflexivity|].
    intros p.
    replace (length (rowsText bodies)
             <? length (tableLine b ++ NL :: rowsText bodies)) with true
      by (symmetry; apply Nat.ltb_lt; rewrite length_app; cbn; lia).
    apply IH. cbn in Hn. lia.
Qed.

Lemma exec_Cat r1 r2 prev s k :
  exec (Cat r1 r2) prev s k = exec r1 prev s (fun p' s' => exec r2 p' s' k).
Proof. reflexivity. Qed.

Lemma exec_Quest r1 prev s k :
  exec (Quest r1) prev s k = orElse (exec r1 prev s k) (k prev s).
Proof. reflexivity. Qed.

Lemma exec_BeginLine s k : exec BeginLine None s k = k None s.
Proof. reflexivity. Qed.

Lemma exec_Star r1 prev s k :
  exec (Star r1) prev s k = starLoop (exec r1) k (length s) prev s.
Proof. reflexivity. Qed.

Lemma exec_dashes m prev tail k r :
  match tail with [] => True | y :: _ => Ascii.eqb y "-"%char = false end ->
  (forall p, k p tail = Some r) ->
  exec (Plus (Lit "-"%char)) prev (repeat "-"%char (S m) ++ tail) k = Some r.
Proof.
  intros Htail Hk. unfold Plus. rewrite exec_Cat. cbn [repeat app].
  rewrite exec_Lit. change (Ascii.eqb "-"%char "-"%char) with true. cbv beta iota.
  rewrite exec_Star.
  apply (starLoop_run (fun x => Ascii.eqb x "-"%char)).
  - intros. apply exec_Lit.
  - reflexivity.
  - apply Forall_forall. intros x Hx. apply repeat_spec in Hx. subst. reflexivity.
  - exact Htail.
  - exact Hk.
  - rewrite length_app, repeat_length. lia.
Qed.

Lemma exec_separatorCell c rest k r prev :
  separatorCell c ->
  (forall p, k p ("|"%char :: rest) = Some r) ->
  exec reflow.separatorCellRe prev (lit "|" ++ c ++ "|"%char :: rest) k = Some r.
Proof.
  intros Hc Hk. unfold reflow.separatorCellRe, reflow.pipe.
  change (lit "|") with ["|"%char]. cbn [app].
  rewrite exec_Cat, exec_Lit. change (Ascii.eqb "|"%char "|"%char) with true.
  cbv beta iota. rewrite exec_Cat, exec_Quest.
  destruct Hc as [m | m].
  - cbn [repeat app]. rewrite exec_Lit.
    change (Ascii.eqb "-"%char ":"%char) with false. cbv beta iota. cbn [orElse].
    rewrite exec_Cat.
    apply (exec_dashes m (Some "|"%char) ("|"%char :: rest)); [reflexivity|].
    intros p. rewrite exec_Quest. rewrite exec_Lit.
    change (Ascii.eqb "|"%char ":"%char) with false. cbv beta iota. cbn [orElse].
    apply Hk.
  - cbn [app]. rewrite exec_Lit. change (Ascii.eqb ":"%char ":"%char) with true.
    cbv beta iota. rewrite exec_Cat, <- app_assoc. cbn [app].
    rewrite (exec_dashes m (Some ":"%char) (":"%char :: "|"%char :: rest) _ r);
      [reflexivity | reflexivity |].
    intros p. rewrite exec_Quest, exec_Lit.
    change (Ascii.eqb ":"%char ":"%char) with true. cbv beta iota.
    rewrite Hk. reflexivity.
Qed.

Lemma exec_separatorCell_end rest k prev :
  match rest with [] => True | y :: _ => y = NL end ->
  exec reflow.separatorCellRe prev ("|"%char :: rest) k = None.
Proof.
  intros H. destruct rest as [|y rest]; [reflexivity|]. subst y. reflexivity.
Qed.

Lemma exec_separatorCells cells rest k r :
  Forall separatorCell cells ->
  match rest with [] => True | y :: _ => y = NL end ->
  (forall p, k p rest = Some r) ->
  forall n prev,
    length cells <= n ->
    starLoop (exec reflow.separatorCellRe)
             (fun p s => exec reflow.pipe p s k) n prev
             (separatorLine cells ++ rest)
    = Some r.
Proof.
  intros Hc Hrest Hk. induction Hc as [|c cells Hc _ IH]; intros n prev Hn.
  - unfold separatorLine. cbn [map concat app]. change (lit "|") with ["|"%char].
    cbn [app]. destruct n as [|n].
    + cbn. apply Hk.
    + cbn [starLoop]. rewrite exec_separatorCell_end by exact Hrest.
      cbn. apply Hk.
  - destruct n as [|n]; [cbn in Hn; lia|].
    unfold separatorLine. cbn [map concat]. fold (separatorLine cells).
    rewrite <- !app_assoc. cbn [starLoop].
    assert (Hhead : exists tail, concat (map (fun c0 => lit "|" ++ c0) cells)
                                   ++ lit "|" ++ rest = "|"%char :: tail).
    { destruct cells; cbn; eauto. }
    destruct Hhead as [tail Htail]. rewrite Htail.
    rewrite (exec_separatorCell c tail _ r prev Hc); [reflexivity|].
    intros p. rewrite <- Htail.
    replace (length (concat (map (fun c0 => lit "|" ++ c0) cells) ++ lit "|" ++ rest)
             <? length (lit "|" ++ c
                          ++ concat (map (fun c0 => lit "|" ++ c0) cells)
                          ++ lit "|" ++ rest))
      with true by (symmetry; apply Nat.ltb_lt; rewrite !length_app; cbn; lia).
    rewrite app_assoc. apply IH. cbn in Hn. lia.
Qed.

Lemma separatorLine_length cells : length cells <= length (separatorLine cells).
Proof.
  unfold separatorLine. rewrite length_app.
  induction cells as [|c cells IH]; cbn [map concat]; [cbn; lia|].
  rewrite !length_app. change (length (lit "|")) with 1 in *. cbn [length]. lia.
Qed.

Lemma exec_separator cells rest k r prev :
  cells <> [] -> Forall separatorCell cells ->
  match rest with [] => True | y :: _ => y = NL end ->
  (forall p, k p rest = Some r) ->
  exec reflow.separatorRe prev (separatorLine cells ++ rest) k = Some r.
Proof.
  intros Hne Hc Hrest Hk. destruct cells as [|c cells]; [congruence|].
  inversion Hc as [|? ? Hc1 Hcs]; subst.
  unfold reflow.separatorRe, Plus. cbn [exec]. fold (exec reflow.separatorCellRe).
  unfold separatorLine. cbn [map concat]. fold (separatorLine cells).
  rewrite <- !app_assoc.
  assert (Hhead : exists tail, concat (map (fun c0 => lit "|" ++ c0) cells)
                                 ++ lit "|" ++ rest = "|"%char :: tail).
  { destruct cells; cbn; eauto. }
  destruct Hhead as [tail Htail]. rewrite Htail.
  apply (exec_separatorCell c tail _ r prev Hc1).
  intros p. rewrite <- Htail, app_assoc.
  apply (exec_separatorCells cells rest k r Hcs Hrest Hk).
  rewrite length_app.
  pose proof (separatorLine_length cells) as Hlen. unfold separatorLine in Hlen. lia.
Qed.

(** The whole text of a table is one match of the expression. *)
Lemma exec_table header cells bodies :
  lineBody header -> cells <> [] -> Forall separatorCell cells ->
  Forall lineBody bodies ->
  exec reflow.tableRe None
       (tableLine header ++ NL :: separatorLine cells ++ NL :: rowsText bodies)
       (fun _ rest => Some rest)
  = Some [].
Proof.
  intros Hh Hne Hc Hb. unfold reflow.tableRe.
  rewrite exec_Cat, exec_BeginLine. cbv beta. rewrite exec_Cat.
  apply exec_header; [exact Hh|].
  intros p. rewrite exec_Cat.
  apply exec_separator; try assumption; [reflexivity|].
  intros p1. rewrite exec_Cat, exec_Quest. unfold reflow.bodyRe.
  rewrite exec_Cat, exec_Lit. change (Ascii.eqb NL NL) with true. cbv beta iota.
  rewrite exec_Star.
  rewrite (exec_rows bodies _ [] Hb); [reflexivity | | ].
  - intros p2. reflexivity.
  - clear. unfold rowsText. induction bodies as [|b bodies IH]; cbn [map concat];
      [cbn; lia|]. rewrite !length_app. cbn [length]. lia.
Qed.

Lemma matchHere_table header cells bodies :
  lineBody header -> cells <> [] -> Forall separatorCell cells ->
  Forall lineBody bodies ->
  let t := tableLine header ++ NL :: separatorLine cells ++ NL :: rowsText bodies in
  matchHere reflow.tableRe None t = Some (length t).
Proof.
  intros Hh Hne Hc Hb t. unfold matchHere.
  unfold t. rewrite exec_table by assumption. cbn [length]. rewrite Nat.sub_0_r.
  reflexivity.
Qed.

(** ** A text that is one match *)

Lemma scan_skip_all {A : Type} r (emit : str -> list A) keep :
  (forall p, matchHere r p [] = None) ->
  forall s prev adj, scan r emit keep prev (length s) adj s = [].
Proof.
  intros Hnil. induction s as [|c s IH]; intros prev adj.
  - cbn [length scan]. rewrite Hnil. reflexivity.
  - cbn [length scan]. apply IH.
Qed.

Lemma matchHere_table_nil p : matchHere reflow.tableRe p [] = None.
Proof.
  unfold matchHere, reflow.tableRe. rewrite exec_Cat.
  destruct p as [x|]; cbn [exec]; [destruct (Ascii.eqb x NL)|]; reflexivity.
Qed.

Lemma FindAllString_whole t :
  t <> [] -> matchHere reflow.tableRe None t = Some (length t) ->
  FindAllString reflow.tableRe t = [t].
Proof.
  intros Hne Hm. unfold FindAllString. destruct t as [|c t]; [congruence|].
  cbn [scan]. rewrite Hm. cbn [length].
  rewrite scan_skip_all by apply matchHere_table_nil.
  change (S (length t)) with (length (c :: t)). rewrite firstn_all. reflexivity.
Qed.

Lemma HasPrefix_refl s : strings.HasPrefix s s = true.
Proof.
  induction s as [|c s IH]; [reflexivity|]. cbn [strings.HasPrefix].
  rewrite Ascii.eqb_refl. exact IH.
Qed.

Lemma replace_skip_all old new n s :
  strings.replace old new n (length s) s = [].
Proof.
  revert n. induction s as [|c s IH]; intros n; [reflexivity|]. cbn. apply IH.
Qed.

(** Replacing a text by itself as a whole. *)
Lemma Replace_whole s new : s <> [] -> strings.Replace s s new 1 = new.
Proof.
  intros Hne. unfold strings.Replace. destruct s as [|c s]; [congruence|].
  cbn [strings.replace]. change (1 =? 0)%Z with false. cbv iota.
  rewrite HasPrefix_refl. cbn [length Nat.sub]. rewrite Nat.sub_0_r.
  rewrite replace_skip_all. apply app_nil_r.
Qed.

Lemma matchHere_newlines prev s :
  match s with a :: b :: _ => a <> NL \/ b <> NL | _ => True end ->
  matchHere reflow.newlinesRe prev s = None.
Proof.
  intros H. unfold matchHere, reflow.newlinesRe. rewrite exec_Cat.
  destruct s as [|a [|b s]]; [reflexivity | | ].
  - rewrite exec_Lit. destruct (Ascii.eqb a NL); reflexivity.
  - rewrite exec_Lit. destruct (Ascii.eqb_spec a NL) as [->|]; [|reflexivity].
    cbv beta. rewrite exec_Cat, exec_Lit.
    destruct (Ascii.eqb_spec b NL) as [->|]; [|reflexivity].
    destruct H; congruence.
Qed.

(** A text without two newlines in a row is left as it is by the
    normalisation of newlines. *)
Lemma ReplaceAll_singleNewlines s :
  singleNewlines s -> ReplaceAllString reflow.newlinesRe s [NL; NL] = s.
Proof.
  unfold ReplaceAllString. generalize (@None ascii) as prev. generalize false as adj.
  induction s as [|a s IH]; intros adj prev H.
  - cbn [scan]. rewrite matchHere_newlines by exact I. reflexivity.
  - cbn [scan]. rewrite matchHere_newlines.
    + cbn [app]. f_equal. apply IH. destruct s; [exact I | apply H].
    + destruct s; [exact I | apply H].
Qed.

Lemma dropWhile_stop p c s : p c = false -> strings.dropWhile p (c :: s) = c :: s.
Proof. intros H. cbn. rewrite H. reflexivity. Qed.

Lemma TrimRight_last x c cut :
  strings.inSet cut c = false -> strings.inSet cut NL = true ->
  strings.TrimRight (x ++ [c; NL]) cut = x ++ [c].
Proof.
  intros Hc Hn. unfold strings.TrimRight. rewrite rev_app_distr.
  cbn [rev app strings.dropWhile]. rewrite Hn, Hc. cbn [rev].
  rewrite rev_involutive. reflexivity.
Qed.

(** The final trimming of a text that starts with a pipe and ends with a
    pipe and a newline. *)
Lemma cleanup_trim mid :
  strings.Trim ("|"%char :: mid ++ ["|"%char; NL]) [SP; NL] ++ [NL]
  = "|"%char :: mid ++ ["|"%char; NL].
Proof.
  unfold strings.Trim. rewrite app_comm_cons, TrimRight_last by reflexivity.
  unfold strings.TrimLeft. cbn [app]. rewrite dropWhile_stop by reflexivity.
  cbn [app]. rewrite <- app_assoc. reflexivity.
Qed.

(** ** Parsing an aligned line *)

Lemma dropWhile_app_all p l s :
  Forall (fun c => p c = true) l -> strings.dropWhile p (l ++ s) = strings.dropWhile p s.
Proof.
  induction 1 as [|c l Hc _ IH]; [reflexivity|]. cbn [app strings.dropWhile].
  rewrite Hc. exact IH.
Qed.

Lemma hd_app (x : str) y d : x <> [] -> hd d (x ++ y) = hd d x.
Proof. destruct x; [congruence | reflexivity]. Qed.

Lemma not_cut_nonempty_hd c : cutByte (hd SP c) = false -> c <> [].
Proof. intros H ->. discriminate. Qed.

Lemma not_cut_nonempty_last c : cutByte (last c SP) = false -> c <> [].
Proof. intros H ->. discriminate. Qed.

(** [Trim] with the cutset of pipe and space gives the part between the
    first and the last byte that is neither. *)
Lemma Trim_core l x r :
  cutByte (hd SP x) = false -> cutByte (last x SP) = false ->
  Forall (fun c => cutByte c = true) l -> Forall (fun c => cutByte c = true) r ->
  strings.Trim (l ++ x ++ r) ["|"%char; SP] = x.
Proof.
  intros Hhd Hlast Hl Hr. unfold strings.Trim.
  assert (ER : strings.TrimRight (l ++ x ++ r) ["|"%char; SP] = l ++ x).
  { unfold strings.TrimRight. rewrite app_assoc, rev_app_distr.
    fold cutByte. rewrite dropWhile_app_all by (apply Forall_rev; exact Hr).
    pose proof (not_cut_nonempty_last x Hlast) as Hne.
    rewrite (app_removelast_last SP Hne) at 1.
    rewrite app_assoc, rev_app_distr. cbn [rev app].
    rewrite dropWhile_stop by exact Hlast.
    change (last x SP :: rev (l ++ removelast x))
      with (rev [last x SP] ++ rev (l ++ removelast x)).
    rewrite <- rev_app_distr, rev_involutive, <- app_assoc.
    rewrite <- (app_removelast_last SP Hne). reflexivity. }
  rewrite ER. unfold strings.TrimLeft. fold cutByte.
  rewrite dropWhile_app_all by exact Hl.
  pose proof (not_cut_nonempty_hd x Hhd) as Hne.
  destruct x as [|c x]; [congruence|]. apply dropWhile_stop. exact Hhd.
Qed.

Lemma fields_run f h rest : forall w,
  Forall (fun c => f c = false) h ->
  strings.fields f (Some w) (h ++ rest) = strings.fields f (Some (rev h ++ w)) rest.
Proof.
  induction h as [|c h IH]; intros w Hh; [reflexivity|].
  inversion Hh as [|? ? Hc Hh']; subst. cbn [app strings.fields]. rewrite Hc.
  rewrite IH by exact Hh'. cbn [rev]. rewrite <- app_assoc. reflexivity.
Qed.

Lemma fields_first f h rest :
  h <> [] -> Forall (fun c => f c = false) h ->
  strings.fields f None (h ++ rest) = strings.fields f (Some (rev h)) rest.
Proof.
  intros Hne Hh. destruct h as [|c h]; [congruence|].
  inversion Hh as [|? ? Hc Hh']; subst. cbn [app strings.fields]. rewrite Hc.
  rewrite fields_run by exact Hh'. reflexivity.
Qed.

(** The fields of joined fields. *)
Lemma fields_Join f sep fs :
  f sep = true ->
  Forall (fun w => w <> [] /\ Forall (fun c => f c = false) w) fs ->
  strings.FieldsFunc (strings.Join fs [sep]) f = fs.
Proof.
  intros Hsep Hfs. unfold strings.FieldsFunc.
  induction Hfs as [|w fs [Hne Hw] Hfs IH]; [reflexivity|].
  destruct fs as [|w' fs].
  - cbn [strings.Join]. rewrite <- (app_nil_r w) at 1.
    rewrite fields_first by assumption. cbn [strings.fields].
    rewrite rev_involutive. reflexivity.
  - rewrite Join_cons by discriminate. rewrite fields_first by assumption.
    cbn [app strings.fields]. rewrite Hsep, rev_involutive. f_equal. exact IH.
Qed.

(** The lines of a text. *)
Lemma fields_text lines :
  Forall (fun l => l <> [] /\ Forall (fun c => isNewline c = false) l) lines ->
  strings.FieldsFunc (text lines) isNewline = lines.
Proof.
  intros H. unfold strings.FieldsFunc, text.
  induction H as [|l lines [Hne Hl] _ IH]; [reflexivity|].
  cbn [map concat]. rewrite <- app_assoc. rewrite fields_first by assumption.
  cbn [app strings.fields]. change (isNewline NL) with true. cbv iota.
  rewrite rev_involutive. f_equal. exact IH.
Qed.

Lemma Join_zeroFirst a c b ts :
  strings.Join (map render ((a, c, b) :: ts)) (lit "|")
  = repeat SP a ++ strings.Join (map render (zeroFirst ((a, c, b) :: ts))) (lit "|").
Proof.
  cbn [zeroFirst map]. destruct ts as [|t ts].
  - reflexivity.
  - rewrite !Join_cons by discriminate. cbn [render repeat app].
    rewrite <- !app_assoc. reflexivity.
Qed.

Lemma Join_zeroLast ts :
  ts <> [] ->
  exists b, strings.Join (map render ts) (lit "|")
            = strings.Join (map render (zeroLast ts)) (lit "|") ++ repeat SP b.
Proof.
  induction ts as [|[[a c] b] ts IH]; [congruence|]. intros _.
  destruct ts as [|t ts].
  - exists b. cbn [zeroLast map strings.Join render repeat].
    rewrite app_nil_r, <- app_assoc. reflexivity.
  - destruct (IH ltac:(discriminate)) as [b' E]. exists b'.
    change (zeroLast ((a, c, b) :: t :: ts)) with ((a, c, b) :: zeroLast (t :: ts)).
    cbn [map]. rewrite Join_cons by discriminate.
    rewrite (Join_cons (render (a, c, b)) (map render (zeroLast (t :: ts))))
      by (destruct t as [[? ?] ?]; destruct ts; intros Hnil; discriminate Hnil).
    cbn [map] in E. rewrite E, <- !app_assoc. reflexivity.
Qed.

Lemma render_TrimSpace t : strings.TrimSpace (render t) = strings.TrimSpace (content t).
Proof.
  destruct t as [[a c] b]. cbn [render content].
  apply TrimSpace_ascii_padded; apply Forall_forall; intros x Hx; apply repeat_spec in Hx;
    subst; reflexivity.
Qed.

Lemma content_zeroLast ts : map content (zeroLast ts) = map content ts.
Proof.
  induction ts as [|[[a c] b] ts IH]; [reflexivity|].
  destruct ts as [|t ts]; [reflexivity|].
  change (zeroLast ((a, c, b) :: t :: ts)) with ((a, c, b) :: zeroLast (t :: ts)).
  cbn [map]. rewrite IH. reflexivity.
Qed.

Lemma content_zeroFirst ts : map content (zeroFirst ts) = map content ts.
Proof. destruct ts as [|[[a c] b] ts]; reflexivity. Qed.

Lemma map_TrimSpace_render ts ts' :
  map content ts = map content ts' ->
  map strings.TrimSpace (map render ts) = map strings.TrimSpace (map render ts').
Proof.
  intros H. rewrite !map_map.
  rewrite (map_ext _ _ render_TrimSpace ts), (map_ext _ _ render_TrimSpace ts').
  rewrite <- !(map_map content strings.TrimSpace), H. reflexivity.
Qed.

Lemma cutByte_pipe_free c : core c -> c <> [] /\ Forall (fun x => isPipe x = false) c.
Proof. intros (Hh & _ & Hp). split; [apply not_cut_nonempty_hd, Hh | exact Hp]. Qed.

Lemma render_field t :
  core (content t) ->
  render t <> [] /\ Forall (fun x => isPipe x = false) (render t).
Proof.
  destruct t as [[a c] b]. cbn [content render]. intros Hc.
  destruct (cutByte_pipe_free c Hc) as [Hne Hp]. split.
  - destruct c; [congruence|]. destruct a; discriminate.
  - apply Forall_app. split; [|apply Forall_app; split; [exact Hp|]];
      apply Forall_forall; intros x Hx; apply repeat_spec in Hx; subst; reflexivity.
Qed.

Lemma hd_Join e rest sep : e <> [] -> hd SP (strings.Join (e :: rest) sep) = hd SP e.
Proof.
  intros He. destruct rest; [reflexivity|]. rewrite Join_cons by discriminate.
  apply hd_app. exact He.
Qed.

Lemma last_app_str (x y : str) d : y <> [] -> last (x ++ y) d = last y d.
Proof.
  intros Hy. induction x as [|c x IH]; [reflexivity|].
  cbn [app]. destruct (x ++ y) eqn:E.
  - apply app_eq_nil in E. destruct E. congruence.
  - exact IH.
Qed.

Lemma last_Join_zeroLast ts :
  ts <> [] -> Forall (fun t => core (content t)) ts ->
  cutByte (last (strings.Join (map render (zeroLast ts)) (lit "|")) SP) = false.
Proof.
  induction ts as [|[[a c] b] ts IH]; [congruence|]. intros _ H.
  inversion H as [|? ? Hc Hts]; subst. cbn [content] in Hc.
  destruct ts as [|t ts].
  - cbn [zeroLast map strings.Join render repeat]. rewrite app_nil_r.
    rewrite last_app_str by (apply not_cut_nonempty_hd, Hc). apply Hc.
  - change (zeroLast ((a, c, b) :: t :: ts)) with ((a, c, b) :: zeroLast (t :: ts)).
    cbn [map]. rewrite Join_cons
      by (destruct t as [[? ?] ?]; destruct ts; intros Hnil; discriminate Hnil).
    specialize (IH ltac:(discriminate) Hts).
    assert (Hne : strings.Join (map render (zeroLast (t :: ts))) (lit "|") <> []).
    { intros E. rewrite E in IH. discriminate IH. }
    rewrite !last_app_str; try exact Hne; [exact IH|].
    intros E. apply app_eq_nil in E. destruct E. congruence.
Qed.

(** The cells of an aligned line: the trimmed contents between the
    pipes. *)
Lemma parseLine_rendered ts :
  ts <> [] -> Forall (fun t => core (content t)) ts ->
  reflow.parseLine (tableLine (strings.Join (map render ts) (lit "|")))
  = map (fun t => strings.TrimSpace (content t)) ts.
Proof.
  intros Hne Hts. unfold reflow.parseLine.
  destruct ts as [|[[a c] b] ts]; [congruence|].
  inversion Hts as [|? ? Hc Hts']; subst. cbn [content] in Hc.
  set (ts1 := zeroFirst ((a, c, b) :: ts)).
  assert (Hts1 : Forall (fun t => core (content t)) ts1)
    by (constructor; [exact Hc | exact Hts']).
  destruct (Join_zeroLast ts1 ltac:(discriminate)) as [b' Eb].
  assert (Eline : tableLine (strings.Join (map render ((a, c, b) :: ts)) (lit "|"))
                  = ("|"%char :: repeat SP a)
                      ++ strings.Join (map render (zeroLast ts1)) (lit "|")
                      ++ (repeat SP b' ++ ["|"%char])).
  { unfold tableLine. rewrite Join_zeroFirst. fold ts1. rewrite Eb.
    change (lit "|") with ["|"%char]. cbn [app]. rewrite <- !app_assoc. reflexivity. }
  rewrite Eline, Trim_core.
  - change (lit "|") with ["|"%char].
    rewrite fields_Join.
    + rewrite (map_TrimSpace_render (zeroLast ts1) ((a, c, b) :: ts))
        by (rewrite content_zeroLast; reflexivity).
      rewrite map_map. apply map_ext, render_TrimSpace.
    + reflexivity.
    + apply Forall_forall. intros w Hw. apply in_map_iff in Hw.
      destruct Hw as (t & <- & Ht). apply render_field.
      assert (Hin : In (content t) (map content ts1)).
      { rewrite <- content_zeroLast. apply in_map. exact Ht. }
      apply in_map_iff in Hin. destruct Hin as (t' & Et & Ht').
      rewrite <- Et. rewrite Forall_forall in Hts1. apply Hts1. exact Ht'.
  - unfold ts1, zeroFirst.
    assert (E : exists rest, map render (zeroLast ((0, c, b) :: ts))
                             = (c ++ repeat SP (match ts with [] => 0 | _ => b end))
                                 :: rest).
    { destruct ts; cbn [zeroLast map render repeat app]; eauto. }
    destruct E as [rest ->].
    pose proof (not_cut_nonempty_hd c (proj1 Hc)) as Hcne.
    rewrite hd_Join by (destruct c; [congruence | discriminate]).
    rewrite hd_app by exact Hcne. apply Hc.
  - apply last_Join_zeroLast; [discriminate | exact Hts1].
  - constructor; [reflexivity|]. apply Forall_forall. intros x Hx.
    apply repeat_spec in Hx. subst. reflexivity.
  - apply Forall_app. split; [|repeat constructor].
    apply Forall_forall. intros x Hx. apply repeat_spec in Hx. subst. reflexivity.
Qed.

(** ** The reflowed form of a proper matrix *)

Lemma count_nonneg s : forall k, (0 <= utf8.count k s)%Z.
Proof.
  induction s as [|c s IH]; intros k; [cbn; lia|].
  cbn [utf8.count]. destruct k; [specialize (IH (utf8.advance c s - 1)); lia | apply IH].
Qed.

Lemma RuneCount_pos s : s <> [] -> (1 <= utf8.RuneCountInString s)%Z.
Proof.
  intros H. destruct s as [|c s]; [congruence|]. unfold utf8.RuneCountInString.
  cbn [utf8.count]. pose proof (count_nonneg s (utf8.advance c s - 1)). lia.
Qed.

(** A header or body row of a formatted matrix: its cells between
    spaces. *)
Lemma formatRow_rendered centered lengths i row : forall j0 row',
  i <> 1 ->
  reflow.formatRow centered lengths i j0 row = Some row' ->
  (forall j cell len, nth_error row j = Some cell ->
                      nth_error lengths (j0 + j) = Some len ->
                      (utf8.RuneCountInString cell <= len)%Z) ->
  exists ts, row' = map render ts /\ map content ts = row.
Proof.
  induction row as [|cell row IH]; intros j0 row' Hi H Hw.
  - injection H as <-. exists []. split; reflexivity.
  - cbn [reflow.formatRow] in H.
    destruct (reflow.formatCell centered lengths i j0 cell) as [cell'|] eqn:Ec;
      [|discriminate].
    cbn [bind] in H.
    destruct (reflow.formatRow centered lengths i (S j0) row) as [row''|] eqn:Er;
      [|discriminate].
    injection H as <-.
    destruct (formatCell_lookup _ _ _ _ _ _ Ec) as (c & len & Hc & Hl).
    assert (Hle : (utf8.RuneCountInString cell <= len)%Z).
    { apply (Hw 0 cell len); [reflexivity | rewrite Nat.add_0_r; exact Hl]. }
    rewrite (formatCell_content _ _ _ _ _ _ _ Hi Hc Hl Hle) in Ec. injection Ec as <-.
    destruct (IH (S j0) row'' Hi Er) as (ts & -> & Hts).
    { intros j cell0 len0 Hj Hl0. apply (Hw (S j) cell0 len0); [exact Hj|].
      rewrite Nat.add_succ_r. exact Hl0. }
    exists ((Z.to_nat (leftPad c (len - utf8.RuneCountInString cell)), cell,
             Z.to_nat (rightPad c (len - utf8.RuneCountInString cell))) :: ts).
    split; [reflexivity | cbn [map content]; rewrite Hts; reflexivity].
Qed.

Lemma isCentered_separator (c : bool) m :
  reflow.isCentered (if c then ":"%char :: repeat "-"%char (S m) ++ [":"%char]
                     else repeat "-"%char (S m)) = c.
Proof.
  destruct c; [|reflexivity]. unfold reflow.isCentered, strings.HasSuffix.
  cbn [strings.HasPrefix lit String.list_ascii_of_string rev].
  rewrite rev_app_distr. reflexivity.
Qed.

(** The separator row of a formatted matrix with columns of positive
    width. *)
Lemma formatRow_separator centered lengths row : forall j0 row',
  reflow.formatRow centered lengths 1 j0 row = Some row' ->
  (forall j len, nth_error lengths j = Some len -> (1 <= len)%Z) ->
  Forall separatorCell row'
  /\ map reflow.isCentered row' = firstn (length row) (skipn j0 centered).
Proof.
  induction row as [|cell row IH]; intros j0 row' H Hpos.
  - injection H as <-. split; [constructor | reflexivity].
  - cbn [reflow.formatRow] in H.
    destruct (reflow.formatCell centered lengths 1 j0 cell) as [cell'|] eqn:Ec;
      [|discriminate].
    cbn [bind] in H.
    destruct (reflow.formatRow centered lengths 1 (S j0) row) as [row''|] eqn:Er;
      [|discriminate].
    injection H as <-.
    destruct (formatCell_lookup _ _ _ _ _ _ Ec) as (c & len & Hc & Hl).
    pose proof (Hpos j0 len Hl) as Hlen.
    rewrite (formatCell_separator _ _ _ _ _ _ Hc Hl) in Ec by lia.
    injection Ec as <-.
    destruct (IH (S j0) row'' Er Hpos) as [Hsep Hcen].
    assert (Em : exists m, Z.to_nat len = S m /\ Z.to_nat (len + 2) = S (S (S m))).
    { exists (Z.to_nat (len - 1)). lia. }
    destruct Em as (m & Em1 & Em2). rewrite Em1, Em2.
    split.
    + constructor; [|exact Hsep]. destruct c.
      * apply (separator_centered m).
      * apply (separator_left (S (S m))).
    + cbn [map length]. rewrite Hcen.
      assert (Esk : skipn j0 centered = c :: skipn (S j0) centered).
      { clear -Hc. revert centered Hc. induction j0 as [|j0 IHj]; intros centered Hc.
        - destruct centered; [discriminate|]. injection Hc as ->. reflexivity.
        - destruct centered; [discriminate|]. cbn [skipn]. apply IHj. exact Hc. }
      rewrite Esk. cbn [firstn]. f_equal.
      destruct c.
      * apply (isCentered_separator true m).
      * apply (isCentered_separator false (S (S m))).
Qed.

(** Formatting does not read the cells of the separator row. *)
Lemma formatRow_separator_any centered lengths row1 : forall row2 j0,
  length row1 = length row2 ->
  reflow.formatRow centered lengths 1 j0 row1
  = reflow.formatRow centered lengths 1 j0 row2.
Proof.
  induction row1 as [|c1 row1 IH]; intros [|c2 row2] j0 Hlen; try discriminate;
    [reflexivity|].
  cbn [reflow.formatRow].
  change (reflow.formatCell centered lengths 1 j0 c1)
    with (reflow.formatCell centered lengths 1 j0 c2).
  rewrite (IH row2 (S j0)) by (cbn in Hlen; lia). reflexivity.
Qed.

Lemma formatMatrix_separator_any header separator1 separator2 body :
  map reflow.isCentered separator1 = map reflow.isCentered separator2 ->
  reflow.formatMatrix (header :: separator1 :: body)
  = reflow.formatMatrix (header :: separator2 :: body).
Proof.
  intros Hc. unfold reflow.formatMatrix, reflow.calcLengths, reflow.centeredOf.
  cbn [nth reflow.lengthsRows]. rewrite Hc.
  destruct (reflow.lengthsRow 0 0 header _) as [l1|]; [|reflexivity].
  cbn [bind]. rewrite !lengthsRow_separator. cbn [bind].
  destruct (reflow.lengthsRows 2 body l1) as [lengths|]; [|reflexivity].
  cbn [bind reflow.formatRows].
  destruct (reflow.formatRow _ lengths 0 0 header) as [h'|]; [|reflexivity].
  cbn [bind].
  rewrite (formatRow_separator_any _ lengths separator1 separator2 0);
    [reflexivity|].
  apply (f_equal (@length _)) in Hc. rewrite !length_map in Hc. exact Hc.
Qed.

Lemma buildTable_text matrix : reflow.buildTable matrix = text (map lineOf matrix).
Proof.
  unfold reflow.buildTable, text. rewrite map_map. f_equal. apply map_ext.
  intros row. unfold reflow.buildRow, lineOf, tableLine.
  rewrite <- !app_assoc. reflexivity.
Qed.

Lemma spaceWidth_hd x r :
  strings.isAsciiSpace x = false -> (code x < 128)%N -> strings.spaceWidth (x :: r) = 0.
Proof.
  intros Hs Hx. unfold strings.spaceWidth. rewrite Hs.
  destruct r as [|c1 r]; [reflexivity|].
  destruct (strings.isSpace2 (code x) (code c1)) eqn:E2.
  { unfold strings.isSpace2 in E2. apply andb_prop in E2. destruct E2 as [E _].
    apply N.eqb_eq in E. lia. }
  destruct r as [|c2 r]; [reflexivity|].
  destruct (strings.isSpace3 (code x) (code c1) (code c2)) eqn:E3; [|reflexivity].
  unfold strings.isSpace3 in E3.
  rewrite !orb_true_iff, !andb_true_iff, !N.eqb_eq in E3. lia.
Qed.

Lemma spaceWidthLast_hd y r :
  strings.isAsciiSpace y = false -> (code y < 128)%N ->
  strings.spaceWidthLast (y :: r) = 0.
Proof.
  intros Hs Hy. unfold strings.spaceWidthLast. rewrite Hs.
  destruct r as [|c1 r]; [reflexivity|].
  destruct (strings.isSpace2 (code c1) (code y)) eqn:E2.
  { apply isSpace2_code in E2. lia. }
  destruct r as [|c2 r]; [reflexivity|].
  destruct (strings.isSpace3 (code c2) (code c1) (code y)) eqn:E3; [|reflexivity].
  apply isSpace3_code in E3. lia.
Qed.

Lemma TrimSpace_fixed c :
  strings.spaceWidth c = 0 -> strings.spaceWidthLast (rev c) = 0 ->
  strings.TrimSpace c = c.
Proof.
  intros H1 H2. unfold strings.TrimSpace.
  rewrite trimLeftSpace_fixed by exact H1. apply trimRightSpace_fixed. exact H2.
Qed.

Lemma TrimSpace_widths c :
  strings.TrimSpace c = c ->
  strings.spaceWidth c = 0 /\ strings.spaceWidthLast (rev c) = 0.
Proof.
  intros H. destruct (TrimSpace_split c) as (l & r & _ & _ & _ & H1 & H2).
  rewrite H in H1, H2. split; assumption.
Qed.

Lemma spaceWidth_zero_hd x r :
  strings.spaceWidth (x :: r) = 0 -> strings.isAsciiSpace x = false.
Proof.
  unfold strings.spaceWidth. destruct (strings.isAsciiSpace x); [discriminate | reflexivity].
Qed.

Lemma spaceWidthLast_zero_hd y r :
  strings.spaceWidthLast (y :: r) = 0 -> strings.isAsciiSpace y = false.
Proof.
  unfold strings.spaceWidthLast.
  destruct (strings.isAsciiSpace y); [discriminate | reflexivity].
Qed.

Lemma cutByte_false x :
  x <> "|"%char -> strings.isAsciiSpace x = false -> cutByte x = false.
Proof.
  intros Hp Hs. unfold cutByte, strings.inSet. cbn [existsb].
  destruct (Ascii.eqb_spec x "|"%char); [congruence|].
  destruct (Ascii.eqb_spec x SP) as [->|]; [discriminate Hs | reflexivity].
Qed.

Lemma not_In_pipe c :
  ~ In "|"%char c -> Forall (fun x => isPipe x = false) c.
Proof.
  intros H. apply Forall_forall. intros x Hx. unfold isPipe.
  destruct (Ascii.eqb_spec x "|"%char); [subst; contradiction | reflexivity].
Qed.

(** A parsed cell that is not empty has no pipe and neither starts nor ends
    with a space. *)
Lemma solid_core c : solidCell c -> core c.
Proof.
  intros (Hne & Htrim & Hpipe & _).
  destruct (TrimSpace_widths c Htrim) as [H1 H2]. repeat split.
  - destruct c as [|x c]; [congruence|]. cbn [hd]. apply cutByte_false.
    + intros ->. apply Hpipe. left. reflexivity.
    + eapply spaceWidth_zero_hd. exact H1.
  - rewrite (app_removelast_last SP Hne) in H2 |- *.
    rewrite rev_app_distr in H2. cbn [rev app] in H2.
    rewrite last_last. apply cutByte_false.
    + intros E. apply Hpipe. rewrite (app_removelast_last SP Hne), E.
      apply in_or_app. right. left. reflexivity.
    + eapply spaceWidthLast_zero_hd. exact H2.
  - apply not_In_pipe, Hpipe.
Qed.

Lemma rev_repeat {A : Type} (x : A) n : rev (repeat x n) = repeat x n.
Proof.
  induction n as [|n IH]; [reflexivity|]. cbn [repeat rev]. rewrite IH.
  symmetry. apply repeat_cons.
Qed.

Lemma last_repeat (x d : ascii) m : last (repeat x (S m)) d = x.
Proof.
  rewrite <- rev_repeat. cbn [repeat rev]. apply last_last.
Qed.

Lemma Forall_repeat (P : ascii -> Prop) x n : P x -> Forall P (repeat x n).
Proof.
  intros H. apply Forall_forall. intros y Hy. apply repeat_spec in Hy. subst. exact H.
Qed.

(** A regenerated separator cell is parsed as itself. *)
Lemma separator_core c :
  separatorCell c ->
  core c /\ strings.TrimSpace c = c /\ Forall (fun x => isNewline x = false) c.
Proof.
  intros [m | m].
  - split; [|split].
    + split; [reflexivity|]. split; [rewrite last_repeat; reflexivity|].
      apply Forall_repeat. reflexivity.
    + apply TrimSpace_fixed.
      * cbn [repeat]. apply spaceWidth_hd; reflexivity.
      * rewrite rev_repeat. cbn [repeat]. apply spaceWidthLast_hd; reflexivity.
    + apply Forall_repeat. reflexivity.
  - split; [|split].
    + split; [reflexivity|]. split; [rewrite app_comm_cons, last_last; reflexivity|].
      constructor; [reflexivity|]. apply Forall_app.
      split; [apply Forall_repeat; reflexivity | repeat constructor].
    + apply TrimSpace_fixed.
      * apply spaceWidth_hd; reflexivity.
      * rewrite app_comm_cons, rev_app_distr. cbn [rev app].
        apply spaceWidthLast_hd; reflexivity.
    + constructor; [reflexivity|]. apply Forall_app.
      split; [apply Forall_repeat; reflexivity | repeat constructor].
Qed.

Lemma Forall_Join (P : ascii -> Prop) fs sep :
  Forall P sep -> Forall (Forall P) fs -> Forall P (strings.Join fs sep).
Proof.
  intros Hsep Hfs. induction Hfs as [|w fs Hw Hfs IH]; [constructor|].
  destruct fs as [|w' fs]; [exact Hw|].
  rewrite Join_cons by discriminate.
  apply Forall_app. split; [exact Hw|]. apply Forall_app. split; [exact Hsep | exact IH].
Qed.

Lemma render_no_newline t :
  Forall (fun x => isNewline x = false) (content t) ->
  Forall (fun x => isNewline x = false) (render t).
Proof.
  destruct t as [[a c] b]. cbn [content render]. intros Hc.
  apply Forall_app. split; [|apply Forall_app; split; [exact Hc|]];
    apply Forall_forall; intros x Hx; apply repeat_spec in Hx; subst; reflexivity.
Qed.

(** The line of a rendered row is a table line: not empty, without
    newline. *)
Lemma lineOf_rendered ts :
  ts <> [] ->
  Forall (fun t => core (content t)
                   /\ Forall (fun x => isNewline x = false) (content t)) ts ->
  lineBody (strings.Join (map render ts) (lit "|"))
  /\ lineOf (map render ts) <> []
  /\ Forall (fun x => isNewline x = false) (lineOf (map render ts)).
Proof.
  intros Hne Hts.
  assert (Hnl : Forall (fun x => isNewline x = false)
                       (strings.Join (map render ts) (lit "|"))).
  { apply Forall_Join; [repeat constructor|].
    apply Forall_forall. intros w Hw. apply in_map_iff in Hw.
    destruct Hw as (t & <- & Ht). apply render_no_newline.
    rewrite Forall_forall in Hts. apply (Hts t Ht). }
  repeat split.
  - destruct ts as [|t ts]; [congruence|]. inversion Hts as [|? ? [Hc _] _]; subst.
    destruct (render_field t Hc) as [Hr _].
    destruct ts as [|t' ts]; [exact Hr|]. cbn [map]. rewrite Join_cons by discriminate.
    intros E. apply app_eq_nil in E. destruct E. congruence.
  - intros Hin. rewrite Forall_forall in Hnl. specialize (Hnl NL Hin). discriminate.
  - discriminate.
  - unfold lineOf, tableLine. constructor; [reflexivity|].
    apply Forall_app. split; [exact Hnl | repeat constructor].
Qed.

Lemma formatRows_rendered centered lengths body : forall i0 body',
  2 <= i0 ->
  reflow.formatRows centered lengths i0 body = Some body' ->
  (forall row j cell len, In row body -> nth_error row j = Some cell ->
                          nth_error lengths j = Some len ->
                          (utf8.RuneCountInString cell <= len)%Z) ->
  exists tsb, body' = map (map render) tsb /\ map (map content) tsb = body.
Proof.
  induction body as [|row body IH]; intros i0 body' Hi H Hw.
  - injection H as <-. exists []. split; reflexivity.
  - cbn [reflow.formatRows] in H.
    destruct (reflow.formatRow centered lengths i0 0 row) as [row'|] eqn:Er;
      [|discriminate].
    cbn [bind] in H.
    destruct (reflow.formatRows centered lengths (S i0) body) as [body''|] eqn:Eb;
      [|discriminate].
    injection H as <-.
    destruct (formatRow_rendered centered lengths i0 row 0 row' ltac:(lia) Er)
      as (ts & -> & Hts).
    { intros j cell len Hj Hl. apply (Hw row j cell len); [left; reflexivity | exact Hj|].
      exact Hl. }
    destruct (IH (S i0) body'' ltac:(lia) Eb) as (tsb & -> & Htsb).
    { intros row0 j cell len Hin. apply Hw. right. exact Hin. }
    exists (ts :: tsb). split; [reflexivity | cbn [map]; rewrite Hts, Htsb; reflexivity].
Qed.

(** The shape of the reflowed form of a proper matrix. *)
Lemma proper_formatted matrix matrix' :
  properMatrix matrix -> reflow.formatMatrix matrix = Some matrix' ->
  exists header separator body tsh sep' tsb,
    matrix = header :: separator :: body
    /\ body <> []
    /\ matrix' = map render tsh :: sep' :: map (map render) tsb
    /\ map content tsh = header /\ map (map content) tsb = body
    /\ header <> [] /\ Forall (fun row => row <> []) body
    /\ sep' <> [] /\ Forall separatorCell sep'
    /\ map reflow.isCentered sep' = map reflow.isCentered separator.
Proof.
  intros (header & separator & body & n & -> & Hbody & Hn & Hlen & Hsolid) H.
  inversion Hlen as [|? ? Hlh Hlen']; subst.
  inversion Hlen' as [|? ? Hls Hlb]; subst.
  inversion Hsolid as [|? ? Hsh Hsb]; subst.
  set (matrix := header :: separator :: body) in *.
  pose proof (calcLengths_spec matrix) as Hspec.
  unfold reflow.formatMatrix in H.
  destruct (reflow.calcLengths matrix) as [lengths|]; [|discriminate].
  cbn [bind] in H. destruct Hspec as (_ & Hll & Hwidth).
  change (nth 0 matrix []) with header in Hll, Hwidth.
  change (nth 1 matrix []) with separator in H.
  assert (Hlook : forall j len, nth_error lengths j = Some len ->
                                j < length header /\ len = columnWidth matrix j).
  { intros j len Hl.
    assert (Hj : j < length header) by (rewrite <- Hll; apply nth_error_Some; congruence).
    split; [exact Hj|]. rewrite <- (Hwidth j Hj). symmetry. apply nth_error_nth_Z, Hl. }
  assert (Hfit : forall row j cell len,
             In row (header :: body) -> nth_error row j = Some cell ->
             nth_error lengths j = Some len ->
             (utf8.RuneCountInString cell <= len)%Z).
  { intros row j cell len Hin Hcell Hl. destruct (Hlook j len Hl) as [_ ->].
    pose proof (cellWidth_le_columnWidth matrix row j Hin) as Hle.
    unfold cellWidth in Hle. rewrite Hcell in Hle. exact Hle. }
  assert (Hpos : forall j len, nth_error lengths j = Some len -> (1 <= len)%Z).
  { intros j len Hl. destruct (Hlook j len Hl) as [Hj ->].
    destruct (nth_error header j) as [cell|] eqn:Hcell;
      [|apply nth_error_None in Hcell; lia].
    pose proof (cellWidth_le_columnWidth matrix header j (or_introl eq_refl)) as Hle.
    unfold cellWidth in Hle. rewrite Hcell in Hle.
    rewrite Forall_forall in Hsh.
    destruct (Hsh cell (nth_error_In _ _ Hcell)) as (Hne & _).
    pose proof (RuneCount_pos cell Hne). lia. }
  unfold matrix in H. cbn [reflow.formatRows] in H.
  destruct (reflow.formatRow _ lengths 0 0 header) as [h'|] eqn:Eh; [|discriminate].
  cbn [bind] in H.
  destruct (reflow.formatRow _ lengths 1 0 separator) as [s'|] eqn:Es; [|discriminate].
  cbn [bind] in H.
  destruct (reflow.formatRows _ lengths 2 body) as [b'|] eqn:Eb; [|discriminate].
  cbn [bind] in H. injection H as <-.
  destruct (formatRow_rendered _ lengths 0 header 0 h' ltac:(lia) Eh) as (tsh & -> & Htsh).
  { intros j cell len Hj Hl. apply (Hfit header j cell len); [left; reflexivity | exact Hj|].
    exact Hl. }
  destruct (formatRows_rendered _ lengths body 2 b' ltac:(lia) Eb) as (tsb & -> & Htsb).
  { intros row j cell len Hin. apply Hfit. right. exact Hin. }
  destruct (formatRow_separator _ lengths separator 0 s' Es Hpos) as [Hsep Hcen].
  cbn [skipn] in Hcen. unfold reflow.centeredOf in Hcen.
  rewrite <- (length_map reflow.isCentered separator), firstn_all in Hcen.
  exists header, separator, body, tsh, s', tsb.
  repeat split; try assumption; try reflexivity.
  - intros ->. cbn in Hn. lia.
  - eapply Forall_impl; [|exact Hlb]. intros row Hrow ->. cbn in Hrow. lia.
  - intros ->. apply (f_equal (@length _)) in Hcen. rewrite !length_map in Hcen.
    cbn in Hcen. lia.
Qed.

Lemma concat_pipes cells :
  cells <> [] ->
  concat (map (fun c => lit "|" ++ c) cells) = lit "|" ++ strings.Join cells (lit "|").
Proof.
  induction cells as [|c cells IH]; [congruence|]. intros _.
  destruct cells as [|c' cells].
  - cbn. rewrite app_nil_r. reflexivity.
  - cbn [map concat]. rewrite Join_cons by discriminate.
    cbn [map concat] in IH. rewrite IH by discriminate.
    rewrite <- !app_assoc. reflexivity.
Qed.

Lemma lineOf_separator cells : cells <> [] -> lineOf cells = separatorLine cells.
Proof.
  intros H. unfold lineOf, tableLine, separatorLine.
  rewrite concat_pipes by exact H. rewrite <- !app_assoc. reflexivity.
Qed.

Lemma text_rows rows :
  text (map lineOf rows) = rowsText (map (fun r => strings.Join r (lit "|")) rows).
Proof. unfold text, rowsText. rewrite !map_map. reflexivity. Qed.

(** Lines that are not empty and hold no newline make a text without two
    newlines in a row. *)
Lemma singleNewlines_line l s :
  l <> [] -> Forall (fun x => isNewline x = false) l ->
  singleNewlines s -> match s with x :: _ => x <> NL | [] => True end ->
  singleNewlines (l ++ NL :: s)
  /\ match l ++ NL :: s with x :: _ => x <> NL | [] => True end.
Proof.
  intros Hne Hl Hs Hhd.
  assert (Hx : forall x, isNewline x = false -> x <> NL).
  { intros x Hx ->. discriminate Hx. }
  induction l as [|x l IH]; [congruence|].
  inversion Hl as [|? ? Hxn Hl']; subst. specialize (Hx x Hxn) as Hxne.
  split; [|exact Hxne].
  destruct l as [|y l].
  - cbn [app singleNewlines]. split; [left; exact Hxne|].
    destruct s as [|z s]; [exact I|]. split; [right; exact Hhd | exact Hs].
  - cbn [app singleNewlines]. split; [left; exact Hxne|].
    apply (IH ltac:(discriminate) Hl').
Qed.

Lemma singleNewlines_text lines :
  Forall (fun l => l <> [] /\ Forall (fun c => isNewline c = false) l) lines ->
  singleNewlines (text lines)
  /\ match text lines with x :: _ => x <> NL | [] => True end.
Proof.
  induction 1 as [|l lines [Hne Hl] _ [IH1 IH2]]; [split; exact I|].
  unfold text. cbn [map concat]. fold (text lines). rewrite <- app_assoc.
  apply singleNewlines_line; assumption.
Qed.

Lemma text_shape lines :
  lines <> [] -> Forall (fun l => exists b, l = tableLine b) lines ->
  exists mid, text lines = "|"%char :: mid ++ ["|"%char; NL].
Proof.
  induction lines as [|l lines IH]; [congruence|]. intros _ H.
  inversion H as [|? ? [b ->] Hrest]; subst.
  unfold text. cbn [map concat]. fold (text lines).
  destruct lines as [|l' lines].
  - exists b. unfold tableLine. cbn. rewrite app_nil_r, <- !app_assoc. reflexivity.
  - destruct (IH ltac:(discriminate) Hrest) as [mid ->].
    exists (b ++ ["|"%char; NL; "|"%char] ++ mid). unfold tableLine.
    change (lit "|") with ["|"%char]. cbn [app]. rewrite <- !app_assoc.
    cbn [app]. reflexivity.
Qed.

Lemma render_plain cells : map render (map (fun c => (0, c, 0)) cells) = cells.
Proof.
  rewrite map_map. rewrite <- (map_id cells) at 2. apply map_ext.
  intros c. cbn. apply app_nil_r.
Qed.

Lemma solid_content ts :
  Forall solidCell (map content ts) ->
  Forall (fun t => core (content t)
                   /\ Forall (fun x => isNewline x = false) (content t)) ts
  /\ map (fun t => strings.TrimSpace (content t)) ts = map content ts.
Proof.
  intros H. rewrite Forall_map in H. split.
  - eapply Forall_impl; [|exact H]. intros t Ht. cbv beta in Ht.
    split; [apply solid_core, Ht|].
    apply no_newline. apply Ht.
  - apply map_ext_in. intros t Ht. rewrite Forall_forall in H. apply (H t Ht).
Qed.

(** The reflowed form of a proper matrix is parsed back into the matrix,
    with the regenerated separator. *)
Lemma parse_rendered_row ts :
  ts <> [] -> Forall solidCell (map content ts) ->
  reflow.parseLine (lineOf (map render ts)) = map content ts.
Proof.
  intros Hne H. destruct (solid_content ts H) as [Hc Ht].
  unfold lineOf. rewrite parseLine_rendered; [exact Ht | exact Hne |].
  eapply Forall_impl; [|exact Hc]. intros t Hct. apply Hct.
Qed.

Lemma parse_separator_row cells :
  cells <> [] -> Forall separatorCell cells ->
  reflow.parseLine (lineOf cells) = cells.
Proof.
  intros Hne H. rewrite <- (render_plain cells) at 1. unfold lineOf.
  rewrite parseLine_rendered.
  - rewrite map_map. rewrite <- (map_id cells) at 2. apply map_ext_in.
    intros c Hc. cbn [content]. rewrite Forall_forall in H.
    apply (separator_core c (H c Hc)).
  - destruct cells; [congruence | discriminate].
  - rewrite Forall_map. eapply Forall_impl; [|exact H].
    intros c Hc. cbn [content]. apply (separator_core c Hc).
Qed.

(** The text of an aligned table with non-empty cells is a fixed point of
    [Prettify]. *)
Lemma aligned_fixed matrix matrix' :
  properMatrix matrix -> reflow.formatMatrix matrix = Some matrix' ->
  Prettify (reflow.buildTable matrix') = Some (reflow.buildTable matrix').
Proof.
  intros Hproper Hformat.
  destruct (proper_formatted matrix matrix' Hproper Hformat)
    as (header & separator & body & tsh & sep' & tsb & -> & Hbody & -> & Hth & Htb
        & Hhne & Hbne & Hsne & Hsep & Hcen).
  destruct Hproper as (h0 & s0 & b0 & n & E & _ & _ & _ & Hsolid).
  injection E as <- <- <-.
  inversion Hsolid as [|? ? Hsh Hsb]; subst.
  assert (Htsh : tsh <> []) by (intros ->; apply Hhne; reflexivity).
  assert (Htsb : Forall (fun ts => ts <> [] /\ Forall solidCell (map content ts)) tsb).
  { rewrite Forall_map in Hbne, Hsb. apply Forall_forall. intros ts Hts.
    rewrite Forall_forall in Hbne, Hsb. split; [|apply Hsb, Hts].
    intros ->. apply (Hbne [] Hts). reflexivity. }
  set (matrix' := map render tsh :: sep' :: map (map render) tsb) in *.
  set (t := reflow.buildTable matrix').
  (* the lines of the text *)
  assert (Hline_h : lineBody (strings.Join (map render tsh) (lit "|"))
                    /\ lineOf (map render tsh) <> []
                    /\ Forall (fun x => isNewline x = false) (lineOf (map render tsh))).
  { apply lineOf_rendered; [exact Htsh|]. apply solid_content, Hsh. }
  assert (Hline_s : lineOf sep' <> []
                    /\ Forall (fun x => isNewline x = false) (lineOf sep')).
  { rewrite <- (render_plain sep').
    apply lineOf_rendered; [destruct sep'; [congruence | discriminate]|].
    rewrite Forall_map. eapply Forall_impl; [|exact Hsep].
    intros c Hc. cbn [content]. split; apply (separator_core c Hc). }
  assert (Hline_b : Forall (fun ts =>
                      lineBody (strings.Join (map render ts) (lit "|"))
                      /\ lineOf (map render ts) <> []
                      /\ Forall (fun x => isNewline x = false) (lineOf (map render ts)))
                           tsb).
  { eapply Forall_impl; [|exact Htsb]. intros ts [Hne Hs].
    apply lineOf_rendered; [exact Hne|]. apply solid_content, Hs. }
  assert (Hlines : Forall (fun l => l <> [] /\ Forall (fun c => isNewline c = false) l)
                          (map lineOf matrix')).
  { unfold matrix'. cbn [map]. constructor; [split; apply Hline_h|].
    constructor; [exact Hline_s|]. rewrite Forall_map, Forall_map.
    eapply Forall_impl; [|exact Hline_b]. intros ts Hts. split; apply Hts. }
  assert (Et : t = text (map lineOf matrix')) by apply buildTable_text.
  (* the text is parsed into the matrix with the regenerated separator *)
  assert (Hparse : reflow.parseMatrix (strings.FieldsFunc t isNewline)
                   = map content tsh :: sep' :: map (map content) tsb).
  { rewrite Et, fields_text by exact Hlines. unfold matrix', reflow.parseMatrix.
    cbn [map]. rewrite parse_rendered_row by assumption.
    rewrite parse_separator_row by assumption. do 2 f_equal.
    rewrite !map_map. apply map_ext_in. intros ts Hts.
    rewrite Forall_forall in Htsb. apply parse_rendered_row; apply (Htsb ts Hts). }
  assert (Hreflow : reflow.reflowTable t = Some (Some t)).
  { unfold reflow.reflowTable. rewrite Hparse.
    rewrite Et at 1. rewrite fields_text by exact Hlines.
    assert (Hlen : 3 <= length (map lineOf matrix')).
    { unfold matrix'. cbn [map length]. rewrite !length_map.
      destruct tsb; [exfalso; apply Hbody; reflexivity | cbn; lia]. }
    destruct (Nat.ltb_spec (length (map lineOf matrix')) 3); [lia|].
    rewrite (formatMatrix_separator_any _ sep' separator _ Hcen), Hformat.
    reflexivity. }
  (* the text is one match of the expression *)
  assert (Hshape : t = tableLine (strings.Join (map render tsh) (lit "|"))
                         ++ NL :: separatorLine sep'
                         ++ NL :: rowsText (map (fun r => strings.Join r (lit "|"))
                                                (map (map render) tsb))).
  { rewrite Et. unfold matrix'. cbn [map]. unfold text at 1. cbn [map concat].
    fold (text (map lineOf (map (map render) tsb))).
    rewrite text_rows, <- lineOf_separator by exact Hsne.
    unfold lineOf at 1. rewrite <- !app_assoc. reflexivity. }
  assert (Hne : t <> []).
  { rewrite Hshape. unfold tableLine. discriminate. }
  assert (Hfind : regexp.FindAllString reflow.tableRe t = [t]).
  { apply FindAllString_whole; [exact Hne|]. rewrite Hshape.
    apply matchHere_table; [apply Hline_h | exact Hsne | exact Hsep |].
    rewrite Forall_map, Forall_map. eapply Forall_impl; [|exact Hline_b].
    intros ts Hts. apply Hts. }
  (* the final cleanup leaves the text as it is *)
  assert (Hclean : reflow.cleanup t = t).
  { unfold reflow.cleanup.
    rewrite ReplaceAll_singleNewlines
      by (rewrite Et; apply singleNewlines_text, Hlines).
    destruct (text_shape (map lineOf matrix')) as [mid Hmid].
    - unfold matrix'. discriminate.
    - rewrite Forall_map. apply Forall_forall. intros row _.
      exists (strings.Join row (lit "|")). reflexivity.
    - rewrite Et, Hmid. apply cleanup_trim. }
  unfold Prettify. rewrite Hfind. cbn [fold_left]. unfold reflow.step.
  cbn [bind]. rewrite Hreflow. cbn [bind]. rewrite Replace_whole by exact Hne.
  cbn [bind]. rewrite Hclean. reflexivity.
Qed.

(** ** Parsed cells *)

Lemma fields_bytes f s : forall cur w c,
  Forall (fun x => f x = false) (match cur with Some w0 => w0 | None => [] end) ->
  In w (strings.fields f cur s) -> In c w ->
  f c = false /\ (In c s \/ In c (match cur with Some w0 => w0 | None => [] end)).
Proof.
  induction s as [|x s IH]; intros cur w c Hcur Hw Hc.
  - destruct cur as [w0|]; [|destruct Hw]. destruct Hw as [<- | []].
    apply in_rev in Hc. rewrite Forall_forall in Hcur. split; [apply Hcur, Hc | right; exact Hc].
  - cbn [strings.fields] in Hw. destruct (f x) eqn:Hx.
    + destruct cur as [w0|].
      * destruct Hw as [<- | Hw].
        -- apply in_rev in Hc. rewrite Forall_forall in Hcur.
           split; [apply Hcur, Hc | right; exact Hc].
        -- destruct (IH None w c ltac:(constructor) Hw Hc) as [H1 [H2 | []]].
           split; [exact H1 | left; right; exact H2].
      * destruct (IH None w c ltac:(constructor) Hw Hc) as [H1 [H2 | []]].
        split; [exact H1 | left; right; exact H2].
    + destruct (IH (Some (x :: match cur with Some w0 => w0 | None => [] end)) w c)
        as [H1 H2]; [constructor; [exact Hx | exact Hcur] | exact Hw | exact Hc |].
      split; [exact H1|]. destruct H2 as [H2 | [<- | H2]]; auto.
      * left. right. exact H2.
      * left. left. reflexivity.
Qed.

Lemma FieldsFunc_bytes f s w c :
  In w (strings.FieldsFunc s f) -> In c w -> f c = false /\ In c s.
Proof.
  intros Hw Hc. destruct (fields_bytes f s None w c ltac:(constructor) Hw Hc)
    as [H1 [H2 | []]]. split; assumption.
Qed.

Lemma dropWhile_In p s c : In c (strings.dropWhile p s) -> In c s.
Proof.
  destruct (dropWhile_split p s) as (t & E & _). intros H. rewrite E.
  apply in_or_app. right. exact H.
Qed.

Lemma Trim_In s cutset c : In c (strings.Trim s cutset) -> In c s.
Proof.
  unfold strings.Trim, strings.TrimLeft, strings.TrimRight. intros H.
  apply dropWhile_In, in_rev, dropWhile_In, in_rev in H. exact H.
Qed.

Lemma TrimSpace_In s c : In c (strings.TrimSpace s) -> In c s.
Proof.
  destruct (TrimSpace_split s) as (l & r & E & _). intros H. rewrite E.
  apply in_or_app. right. apply in_or_app. left. exact H.
Qed.

Lemma TrimSpace_idempotent s :
  strings.TrimSpace (strings.TrimSpace s) = strings.TrimSpace s.
Proof.
  destruct (TrimSpace_split s) as (l & r & _ & _ & _ & H1 & H2).
  apply TrimSpace_fixed; assumption.
Qed.

(** A cell of a parsed block that is not empty is solid. *)
Lemma parsed_cell_solid rawTable row cell :
  In row (reflow.parseMatrix (strings.FieldsFunc rawTable isNewline)) ->
  In cell row -> cell <> [] -> solidCell cell.
Proof.
  intros Hrow Hcell Hne. unfold reflow.parseMatrix in Hrow.
  apply in_map_iff in Hrow. destruct Hrow as (line & <- & Hline).
  unfold reflow.parseLine in Hcell. apply in_map_iff in Hcell.
  destruct Hcell as (w & <- & Hw).
  split; [exact Hne|]. split; [apply TrimSpace_idempotent|]. split.
  - intros Hin. apply TrimSpace_In in Hin.
    destruct (FieldsFunc_bytes _ _ _ _ Hw Hin) as [Hp _]. discriminate Hp.
  - intros Hin. apply TrimSpace_In in Hin.
    destruct (FieldsFunc_bytes _ _ _ _ Hw Hin) as [_ Hin'].
    apply Trim_In in Hin'.
    destruct (FieldsFunc_bytes _ _ _ _ Hline Hin') as [Hn _]. discriminate Hn.
Qed.

Lemma cellAt_In (matrix : list (list str)) i j cell :
  cellAt matrix i j = Some cell ->
  exists row, nth_error matrix i = Some row /\ In row matrix /\ In cell row.
Proof.
  unfold cellAt. destruct (nth_error matrix i) as [row|] eqn:E; [|discriminate].
  cbn [bind]. intros H. exists row. repeat split.
  - eapply nth_error_In. exact E.
  - eapply nth_error_In. exact H.
Qed.

(** The reflowed form of a table block whose rows all have the same
    number of cells, at least one, and whose header and body cells are not
    empty, is, alone, a text that [Prettify] returns as it is. *)
Lemma reflowed_block_fixed rawTable table :
  reflow.reflowTable rawTable = Some (Some table) ->
  (exists n, 1 <= n
             /\ Forall (fun row => length row = n)
                       (reflow.parseMatrix (strings.FieldsFunc rawTable isNewline))) ->
  (forall i j cell,
      i <> 1 ->
      cellAt (reflow.parseMatrix (strings.FieldsFunc rawTable isNewline)) i j
      = Some cell ->
      cell <> []) ->
  Prettify table = Some table
  /\ (once <- Prettify table ;; Prettify once) = Prettify table.
Proof.
  intros Hreflow (n & Hn & Hrows) Hcells.
  unfold reflow.reflowTable in Hreflow.
  set (matrix := reflow.parseMatrix (strings.FieldsFunc rawTable isNewline)) in *.
  destruct (Nat.ltb_spec (length (strings.FieldsFunc rawTable isNewline)) 3)
    as [|Hlen]; [discriminate|].
  destruct (reflow.formatMatrix matrix) as [matrix'|] eqn:Hformat; [|discriminate].
  cbn [bind] in Hreflow. injection Hreflow as <-.
  assert (Hproper : properMatrix matrix).
  { assert (Hlm : 3 <= length matrix)
      by (unfold matrix, reflow.parseMatrix; rewrite length_map; exact Hlen).
    destruct matrix as [|header [|separator [|row body]]] eqn:Em;
      try (cbn in Hlm; lia).
    exists header, separator, (row :: body), n.
    split; [reflexivity|]. split; [discriminate|]. split; [exact Hn|].
    split; [exact Hrows|].
    assert (Hsolid : forall i r, i <> 1 -> nth_error matrix i = Some r ->
                                 Forall solidCell r).
    { intros i r Hi Hr. apply Forall_forall. intros cell Hcell.
      destruct (In_nth_error _ _ Hcell) as [j Hj].
      apply (parsed_cell_solid rawTable r cell).
      - fold matrix. eapply nth_error_In. exact Hr.
      - exact Hcell.
      - apply (Hcells i j cell Hi). rewrite <- Em. fold matrix. unfold cellAt.
        rewrite Hr. exact Hj. }
    rewrite Em in Hsolid. constructor.
    - apply (Hsolid 0); [lia | reflexivity].
    - apply Forall_forall. intros r Hr. destruct (In_nth_error _ _ Hr) as [k Hk].
      apply (Hsolid (S (S k))); [lia | exact Hk]. }
  assert (Hfix : Prettify (reflow.buildTable matrix') = Some (reflow.buildTable matrix'))
    by (apply (aligned_fixed matrix matrix' Hproper Hformat)).
  split; [exact Hfix|]. rewrite Hfix. cbn [bind]. exact Hfix.
Qed.


(** ** The normalisation of newlines *)

Lemma newline_run s :
  exists m t, s = repeat NL m ++ t
              /\ match t with [] => True | y :: _ => Ascii.eqb y NL = false end.
Proof.
  induction s as [|c s (m & t & -> & Ht)].
  - exists 0, []. split; [reflexivity | exact I].
  - destruct (Ascii.eqb_spec c NL) as [->|Hc].
    + exists (S m), t. split; [reflexivity | exact Ht].
    + exists 0, (c :: repeat NL m ++ t). split; [reflexivity|].
      apply Ascii.eqb_neq. exact Hc.
Qed.

(** A run of two or more newlines is matched as a whole. *)
Lemma matchHere_newline_run m t prev :
  match t with [] => True | y :: _ => Ascii.eqb y NL = false end ->
  matchHere reflow.newlinesRe prev (repeat NL (S (S m)) ++ t) = Some (S (S m)).
Proof.
  intros Ht. unfold matchHere, reflow.newlinesRe. cbn [repeat app].
  rewrite exec_Cat, exec_Lit, Ascii.eqb_refl, exec_Cat, exec_Lit, Ascii.eqb_refl.
  rewrite exec_Star.
  rewrite (starLoop_run (fun x => Ascii.eqb x NL) _ _ (repeat NL m) t t).
  - f_equal. cbn [length]. rewrite length_app, repeat_length. lia.
  - intros. apply exec_Lit.
  - reflexivity.
  - apply Forall_forall. intros x Hx. apply repeat_spec in Hx. subst.
    apply Ascii.eqb_refl.
  - exact Ht.
  - reflexivity.
  - rewrite length_app, repeat_length. lia.
Qed.

Lemma scan_skip {A : Type} r (emit : str -> list A) keep u : forall prev adj t,
  exists prev', scan r emit keep prev (length u) adj (u ++ t)
                = scan r emit keep prev' 0 adj t.
Proof.
  induction u as [|c u IH]; intros prev adj t.
  - exists prev. reflexivity.
  - cbn [length app scan]. apply IH.
Qed.

Lemma squeeze_start n t :
  match t with [] => True | y :: _ => Ascii.eqb y NL = false end ->
  squeeze n t = squeeze 0 t.
Proof. destruct t as [|y t]; [reflexivity|]. cbn [squeeze]. intros ->. reflexivity. Qed.

Lemma squeeze_run m t : forall n,
  match t with [] => True | y :: _ => Ascii.eqb y NL = false end ->
  squeeze n (repeat NL m ++ t) = repeat NL (Nat.min m (2 - n)) ++ squeeze 0 t.
Proof.
  induction m as [|m IH]; intros n Ht.
  - cbn [repeat app Nat.min]. apply squeeze_start, Ht.
  - cbn [repeat app squeeze]. rewrite Ascii.eqb_refl, IH by exact Ht.
    destruct (Nat.ltb_spec n 2).
    + replace (2 - n) with (S (2 - S n)) by lia. reflexivity.
    + replace (2 - n) with 0 by lia. replace (2 - S n) with 0 by lia.
      rewrite !Nat.min_0_r. reflexivity.
Qed.

(** The replacement of the runs of two or more newlines by two newlines
    cuts every run of newlines down to two, and changes nothing else. *)
Lemma ReplaceAll_squeeze s :
  ReplaceAllString reflow.newlinesRe s [NL; NL] = squeeze 0 s.
Proof.
  unfold ReplaceAllString. generalize (@None ascii) as prev, false as adj.
  assert (H : forall n s, length s <= n -> forall adj prev,
               scan reflow.newlinesRe (fun _ => [NL; NL]) (fun c => [c]) prev 0 adj s
               = squeeze 0 s).
  { clear s. induction n as [|n IH]; intros s Hn adj prev.
    - destruct s; [|cbn in Hn; lia]. cbn [scan].
      rewrite matchHere_newlines by exact I. reflexivity.
    - destruct (newline_run s) as (m & t & -> & Ht).
      destruct m as [|[|m]].
      + cbn [repeat app]. destruct t as [|y t].
        * cbn [scan]. rewrite matchHere_newlines by exact I. reflexivity.
        * cbn [scan]. rewrite matchHere_newlines.
          -- cbn [app squeeze]. rewrite Ht. f_equal. apply IH. cbn in Hn. lia.
          -- destruct t; [exact I|]. left. apply Ascii.eqb_neq. exact Ht.
      + cbn [repeat app]. cbn [scan]. rewrite matchHere_newlines.
        * cbn [app squeeze]. rewrite Ascii.eqb_refl. cbn [Nat.ltb Nat.leb app].
          f_equal. rewrite (squeeze_start 1 t Ht). apply IH.
          cbn in Hn. lia.
        * destruct t as [|y t]; [exact I|]. right. apply Ascii.eqb_neq. exact Ht.
      + rewrite squeeze_run by exact Ht.
        replace (Nat.min (S (S m)) (2 - 0)) with 2 by lia.
        pose proof (matchHere_newline_run m t prev Ht) as Hm.
        destruct (scan_skip reflow.newlinesRe (fun _ : str => [NL; NL])
                            (fun c => [c]) (repeat NL m) (Some NL) true t)
          as [prev' E].
        rewrite repeat_length in E.
        cbn [repeat app] in Hm |- *. cbn [scan]. rewrite Hm, E.
        cbn [app]. do 2 f_equal. apply IH. rewrite length_app, repeat_length in Hn.
        cbn in Hn. lia. }
  intros adj prev. apply (H (length s)). lia.
Qed.

Lemma capped_mono s : forall m n, m <= n -> capped n s = true -> capped m s = true.
Proof.
  induction s as [|c s IH]; intros m n Hmn H; [reflexivity|].
  cbn [capped] in H |- *. destruct (Ascii.eqb c NL); [|exact H].
  apply andb_prop in H. destruct H as [Hn Hs]. apply Nat.ltb_lt in Hn.
  apply andb_true_intro. split; [apply Nat.ltb_lt; lia|].
  apply (IH (S m) (S n)); [lia | exact Hs].
Qed.

Lemma capped_squeeze s : forall n, capped n (squeeze n s) = true.
Proof.
  induction s as [|c s IH]; intros n; [reflexivity|].
  cbn [squeeze]. destruct (Ascii.eqb c NL) eqn:Ec.
  - destruct (Nat.ltb_spec n 2) as [Hn|Hn].
    + cbn [app capped]. change (Ascii.eqb NL NL) with true. cbv iota.
      apply andb_true_intro. split; [apply Nat.ltb_lt; exact Hn | apply IH].
    + cbn [app]. apply (capped_mono _ n (S n)); [lia | apply IH].
  - cbn [capped]. rewrite Ec. apply IH.
Qed.

Lemma squeeze_capped s : forall n, capped n s = true -> squeeze n s = s.
Proof.
  induction s as [|c s IH]; intros n H; [reflexivity|].
  cbn [capped] in H. cbn [squeeze]. destruct (Ascii.eqb_spec c NL) as [->|Hc].
  - apply andb_prop in H. destruct H as [Hn Hs]. rewrite Hn. cbn [app].
    f_equal. apply IH, Hs.
  - f_equal. apply IH, H.
Qed.

Lemma capped_suffix a b : forall n, capped n (a ++ b) = true -> capped 0 b = true.
Proof.
  induction a as [|c a IH]; intros n H.
  - apply (capped_mono b 0 n); [lia | exact H].
  - cbn [app capped] in H. destruct (Ascii.eqb c NL).
    + apply andb_prop in H. apply (IH (S n)), H.
    + apply (IH 0), H.
Qed.

Lemma capped_prefix a b : forall n, capped n (a ++ b) = true -> capped n a = true.
Proof.
  induction a as [|c a IH]; intros n H; [reflexivity|].
  cbn [app capped] in H |- *. destruct (Ascii.eqb c NL).
  - apply andb_prop in H. destruct H as [Hn Hs]. rewrite Hn. apply (IH (S n)), Hs.
  - apply (IH 0), H.
Qed.

Lemma capped_snoc init c : forall n,
  c <> NL -> capped n (init ++ [c]) = true -> capped n (init ++ [c; NL]) = true.
Proof.
  induction init as [|d init IH]; intros n Hc H.
  - cbn [app capped]. apply Ascii.eqb_neq in Hc. rewrite Hc. reflexivity.
  - cbn [app capped] in H |- *. destruct (Ascii.eqb d NL).
    + apply andb_prop in H. destruct H as [Hn Hs]. rewrite Hn.
      apply (IH (S n) Hc Hs).
    + apply (IH 0 Hc H).
Qed.

Lemma capped_triple a b : forall n, capped n (a ++ [NL; NL; NL] ++ b) = false.
Proof.
  induction a as [|c a IH]; intros n.
  - cbn [app capped]. change (Ascii.eqb NL NL) with true. cbv iota.
    destruct n as [|[|n]]; reflexivity.
  - cbn [app capped]. destruct (Ascii.eqb c NL); [|apply IH].
    rewrite IH. apply andb_false_r.
Qed.

Lemma squeeze_In s c : forall n, In c (squeeze n s) -> In c s.
Proof.
  induction s as [|x s IH]; intros n H; [exact H|].
  cbn [squeeze] in H. destruct (Ascii.eqb_spec x NL) as [->|Hx].
  - apply in_app_or in H. destruct H as [H | H].
    + left. destruct (n <? 2); [destruct H as [<- | []]; reflexivity | destruct H].
    + right. apply (IH (S n)), H.
  - destruct H as [<- | H]; [left; reflexivity | right; apply (IH 0), H].
Qed.

(** ** The final trimming *)

Lemma dropWhile_fixed p s :
  strings.dropWhile p (strings.dropWhile p s) = strings.dropWhile p s.
Proof.
  induction s as [|c s IH]; [reflexivity|].
  cbn [strings.dropWhile]. destruct (p c) eqn:Ec; [exact IH|].
  cbn [strings.dropWhile]. rewrite Ec. reflexivity.
Qed.

(** What [Trim] returns neither starts nor ends with a byte of the
    cutset, and is a part of the string. *)
Lemma Trim_split s cutset :
  exists l r,
    s = l ++ strings.Trim s cutset ++ r
    /\ (forall c rest, strings.Trim s cutset = c :: rest ->
                       strings.inSet cutset c = false)
    /\ (forall init c, strings.Trim s cutset = init ++ [c] ->
                       strings.inSet cutset c = false).
Proof.
  unfold strings.Trim, strings.TrimLeft.
  destruct (TrimRight_split s cutset) as (r & Hs & _ & Hlast).
  destruct (dropWhile_split (strings.inSet cutset) (strings.TrimRight s cutset))
    as (l & Hl & _ & Hhd).
  exists l, r. split; [|split].
  - rewrite app_assoc, <- Hl. exact Hs.
  - exact Hhd.
  - intros init c E. apply (Hlast (l ++ init) c).
    rewrite Hl at 1. rewrite E, app_assoc. reflexivity.
Qed.

(** [Trim] leaves alone a string that neither starts nor ends with a byte
    of the cutset, also behind one more byte of the cutset. *)
Lemma Trim_fixed_snoc body cutset x :
  (forall c rest, body = c :: rest -> strings.inSet cutset c = false) ->
  (forall init c, body = init ++ [c] -> strings.inSet cutset c = false) ->
  strings.inSet cutset x = true ->
  strings.Trim (body ++ [x]) cutset = body.
Proof.
  intros Hhd Hlast Hx. unfold strings.Trim, strings.TrimRight, strings.TrimLeft.
  rewrite rev_app_distr. cbn [rev app strings.dropWhile]. rewrite Hx.
  destruct (rev body) as [|c init] eqn:Er.
  - apply (f_equal (@rev ascii)) in Er. rewrite rev_involutive in Er. subst body.
    reflexivity.
  - assert (Eb : body = rev init ++ [c]).
    { apply (f_equal (@rev ascii)) in Er. rewrite rev_involutive in Er. exact Er. }
    cbn [strings.dropWhile]. rewrite (Hlast (rev init) c Eb).
    change (rev (c :: init)) with (rev init ++ [c]). rewrite <- Eb.
    destruct body as [|b body]; [reflexivity|].
    cbn [strings.dropWhile]. rewrite (Hhd b body eq_refl). reflexivity.
Qed.

(** The cleanup, as a function of the text. *)
Lemma cleanup_squeeze s :
  reflow.cleanup s = strings.Trim (squeeze 0 s) [SP; NL] ++ [NL].
Proof. unfold reflow.cleanup. rewrite ReplaceAll_squeeze. reflexivity. Qed.

Lemma cleanup_capped s : capped 0 (reflow.cleanup s) = true.
Proof.
  rewrite cleanup_squeeze.
  destruct (Trim_split (squeeze 0 s) [SP; NL]) as (l & r & E & _ & Hlast).
  pose proof (capped_squeeze s 0) as Hc. rewrite E in Hc.
  apply capped_suffix in Hc. apply capped_prefix in Hc.
  destruct (strings.Trim (squeeze 0 s) [SP; NL]) as [|b body] eqn:Eb using rev_ind;
    [reflexivity|].
  rewrite <- app_assoc. cbn [app]. apply capped_snoc; [|exact Hc].
  intros ->. specialize (Hlast body NL eq_refl). discriminate Hlast.
Qed.

(** The cleanup does nothing to a text it has produced. *)
Lemma cleanup_fixed s : reflow.cleanup (reflow.cleanup s) = reflow.cleanup s.
Proof.
  rewrite (cleanup_squeeze (reflow.cleanup s)).
  rewrite squeeze_capped by apply cleanup_capped.
  rewrite cleanup_squeeze.
  destruct (Trim_split (squeeze 0 s) [SP; NL]) as (l & r & _ & Hhd & Hlast).
  rewrite (Trim_fixed_snoc _ [SP; NL] NL Hhd Hlast eq_refl). reflexivity.
Qed.

Lemma cleanup_In s c : In c (reflow.cleanup s) -> c = NL \/ In c s.
Proof.
  rewrite cleanup_squeeze. intros H. apply in_app_or in H. destruct H as [H | H].
  - right. apply Trim_In in H. apply (squeeze_In _ _ 0), H.
  - left. destruct H as [<- | []]. reflexivity.
Qed.

(** ** Texts without tables *)

(** No table starts where the text does not go on with a pipe. *)
Lemma matchHere_table_pipe prev s :
  match s with [] => True | c :: _ => c <> "|"%char end ->
  matchHere reflow.tableRe prev s = None.
Proof.
  intros H. unfold matchHere, reflow.tableRe, reflow.headerRe, reflow.pipe.
  rewrite exec_Cat.
  assert (E : exec (Cat (Cat (Lit "|"%char)
                             (Cat (Plus (NotLit NL))
                                  (Cat (Lit "|"%char) (Cat (Quest (Lit CR)) (Lit NL)))))
                        (Cat reflow.separatorRe (Cat (Quest reflow.bodyRe) EndLine)))
                   prev s (fun _ rest => Some rest) = None).
  { rewrite !exec_Cat. destruct s as [|c s]; [reflexivity|].
    rewrite exec_Lit. apply Ascii.eqb_neq in H. rewrite H. reflexivity. }
  destruct prev as [x|]; cbn [exec]; [destruct (Ascii.eqb x NL)|];
    try reflexivity; cbn [exec] in E; rewrite E; reflexivity.
Qed.

Lemma FindAllString_pipe s :
  ~ In "|"%char s -> FindAllString reflow.tableRe s = [].
Proof.
  unfold FindAllString.
  assert (E : forall prev adj,
             ~ In "|"%char s ->
             scan reflow.tableRe (fun m => [m]) (fun _ : ascii => @nil str) prev 0 adj s
             = []); [|apply E].
  induction s as [|c s IH]; intros prev adj H.
  - cbn [scan]. rewrite matchHere_table_pipe by exact I. reflexivity.
  - cbn [scan]. rewrite matchHere_table_pipe.
    + cbn [app]. apply IH. intros Hin. apply H. right. exact Hin.
    + intros ->. apply H. left. reflexivity.
Qed.

Lemma inSet_space_newline c :
  strings.inSet [SP; NL] c = false -> c <> SP /\ c <> NL.
Proof.
  unfold strings.inSet. cbn [existsb]. intros H.
  apply orb_false_elim in H. destruct H as [H1 H].
  apply orb_false_elim in H. destruct H as [H2 _].
  split; apply Ascii.eqb_neq; assumption.
Qed.

Lemma Prettify_cleanup s out :
  Prettify s = Some out -> exists s', out = reflow.cleanup s'.
Proof.
  unfold Prettify.
  destruct (fold_left reflow.step (FindAllString reflow.tableRe s) (Some s)) as [s'|];
    [|discriminate].
  cbn [bind]. intros [= <-]. exists s'. reflexivity.
Qed.

(** What [Prettify] returns ends with one newline, in front of which the
    text neither starts nor ends with a space or a newline, and nowhere has
    three newlines in a row. *)
Theorem Prettify_normal_form s out :
  Prettify s = Some out ->
  exists body,
    out = body ++ [NL]
    /\ (forall c rest, body = c :: rest -> c <> SP /\ c <> NL)
    /\ (forall init c, body = init ++ [c] -> c <> SP /\ c <> NL)
    /\ (forall a b, out <> a ++ [NL; NL; NL] ++ b).
Proof.
  intros H. destruct (Prettify_cleanup s out H) as [s' ->].
  exists (strings.Trim (squeeze 0 s') [SP; NL]).
  destruct (Trim_split (squeeze 0 s') [SP; NL]) as (l & r & _ & Hhd & Hlast).
  split; [apply cleanup_squeeze|]. split; [|split].
  - intros c rest E. apply inSet_space_newline, (Hhd c rest E).
  - intros init c E. apply inSet_space_newline, (Hlast init c E).
  - intros a b E. pose proof (cleanup_capped s') as Hc. rewrite E in Hc.
    rewrite capped_triple in Hc. discriminate Hc.
Qed.

Lemma Prettify_normal_form_witness :
  Prettify blankLinesText = Some blankLinesNormal
  /\ exists body,
      blankLinesNormal = body ++ [NL]
      /\ (forall c rest, body = c :: rest -> c <> SP /\ c <> NL)
      /\ (forall init c, body = init ++ [c] -> c <> SP /\ c <> NL)
      /\ (forall a b, blankLinesNormal <> a ++ [NL; NL; NL] ++ b).
Proof.
  assert (H : Prettify blankLinesText = Some blankLinesNormal)
    by (vm_compute; reflexivity).
  split; [exact H|]. exact (Prettify_normal_form blankLinesText blankLinesNormal H).
Defined.

(** On a text without a pipe [Prettify] only normalises: every run of
    newlines is cut down to two, spaces and newlines are cut off both
    ends, and one newline is added; a second pass changes nothing. *)
Theorem Prettify_without_pipe s :
  ~ In "|"%char s ->
  Prettify s = Some (strings.Trim (squeeze 0 s) [SP; NL] ++ [NL])
  /\ (once <- Prettify s ;; Prettify once) = Prettify s.
Proof.
  intros H.
  assert (E : forall t, ~ In "|"%char t -> Prettify t = Some (reflow.cleanup t)).
  { intros t Ht. unfold Prettify. rewrite FindAllString_pipe by exact Ht.
    reflexivity. }
  rewrite (E s H). split; [rewrite cleanup_squeeze; reflexivity|].
  cbn [bind]. rewrite E.
  - rewrite cleanup_fixed. reflexivity.
  - intros Hin. apply cleanup_In in Hin. destruct Hin as [Hin | Hin];
      [discriminate Hin | exact (H Hin)].
Qed.

Lemma Prettify_without_pipe_witness :
  ~ In "|"%char blankLinesText
  /\ Prettify blankLinesText
     = Some (strings.Trim (squeeze 0 blankLinesText) [SP; NL] ++ [NL])
  /\ (once <- Prettify blankLinesText ;; Prettify once) = Prettify blankLinesText.
Proof.
  assert (H : ~ In "|"%char blankLinesText).
  { intros Hin. vm_compute in Hin.
    repeat (destruct Hin as [Hin | Hin]; [discriminate Hin|]). destruct Hin. }
  split; [exact H|]. exact (Prettify_without_pipe blankLinesText H).
Defined.

(** ** The bounds of the reflow *)

Lemma irregular_not_regular matrix : irregular matrix -> ~ regular matrix.
Proof.
  intros [Hsep | Hrow] [Hs Hr]; [exact (Hsep Hs)|].
  apply Exists_exists in Hrow. destruct Hrow as (row & Hin & Hlt).
  rewrite Forall_forall in Hr. specialize (Hr row Hin). lia.
Qed.

Lemma regular_or_irregular matrix : regular matrix \/ irregular matrix.
Proof.
  unfold regular, irregular.
  destruct (Nat.eq_dec (length (nth 1 matrix [])) (length (nth 0 matrix [])))
    as [Hs|Hs]; [|right; left; exact Hs].
  destruct (Forall_Exists_dec (fun row : list str => length row <= length (nth 0 matrix []))
                              (fun row => le_dec (length row) (length (nth 0 matrix [])))
                              matrix) as [Hall | Hex].
  - left. split; assumption.
  - right. right. eapply Exists_impl; [|exact Hex]. cbv beta. intros row Hrow. lia.
Qed.

(** The reflow of a matrix of two rows or more runs through only when the
    matrix is regular. *)
Lemma formatMatrix_regular matrix matrix' :
  2 <= length matrix -> reflow.formatMatrix matrix = Some matrix' -> regular matrix.
Proof.
  intros Hlen H.
  destruct (formatMatrix_cells _ _ H) as (lengths & Hcalc & _ & Hcells).
  pose proof (calcLengths_spec matrix) as Hspec. rewrite Hcalc in Hspec.
  destruct Hspec as (_ & Hll & _).
  assert (Hb : forall i row, nth_error matrix i = Some row ->
                             length row <= length (nth 0 matrix [])
                             /\ length row <= length (nth 1 matrix [])).
  { intros i row Hrow. destruct (Nat.eq_dec (length row) 0) as [E|E]; [lia|].
    destruct (nth_error row (length row - 1)) as [cell|] eqn:Hcell;
      [|apply nth_error_None in Hcell; lia].
    specialize (Hcells i (length row - 1)). unfold cellAt in Hcells.
    rewrite Hrow in Hcells. cbn [bind] in Hcells. rewrite Hcell in Hcells.
    destruct Hcells as (cell' & _ & Hf).
    destruct (formatCell_lookup _ _ _ _ _ _ Hf) as (c & len & Hc & Hl).
    assert (Hjc : length row - 1 < length (reflow.centeredOf (nth 1 matrix [])))
      by (apply nth_error_Some; congruence).
    assert (Hjl : length row - 1 < length lengths)
      by (apply nth_error_Some; congruence).
    unfold reflow.centeredOf in Hjc. rewrite length_map in Hjc. lia. }
  destruct matrix as [|header [|separator body]]; try (cbn in Hlen; lia).
  split.
  - cbn [nth]. destruct (Hb 0 header eq_refl) as [_ H0].
    destruct (Hb 1 separator eq_refl) as [H1 _]. cbn [nth] in H0, H1. lia.
  - apply Forall_forall. intros row Hin. destruct (In_nth_error _ _ Hin) as [i Hi].
    apply (Hb i row Hi).
Qed.

Lemma reflowTable_none rawTable :
  reflow.reflowTable rawTable = None
  <-> 3 <= length (strings.FieldsFunc rawTable isNewline)
      /\ irregular (reflow.parseMatrix (strings.FieldsFunc rawTable isNewline)).
Proof.
  unfold reflow.reflowTable.
  destruct (Nat.ltb_spec (length (strings.FieldsFunc rawTable isNewline)) 3) as [Hlt|Hge].
  - split; [discriminate | lia].
  - set (matrix := reflow.parseMatrix (strings.FieldsFunc rawTable isNewline)).
    assert (Hlen : 2 <= length matrix)
      by (unfold matrix, reflow.parseMatrix; rewrite length_map; lia).
    destruct (reflow.formatMatrix matrix) as [matrix'|] eqn:Hf; cbn [bind].
    + split; [discriminate|]. intros [_ Hirr]. exfalso.
      apply (irregular_not_regular matrix Hirr).
      apply (formatMatrix_regular matrix matrix' Hlen Hf).
    + split; [|reflexivity]. intros _. split; [exact Hge|].
      destruct (regular_or_irregular matrix) as [Hreg | Hirr]; [|exact Hirr].
      destruct (formatMatrix_defined matrix Hreg) as [matrix' E]. congruence.
Qed.

Lemma steps_none tables : fold_left reflow.step tables None = None.
Proof. induction tables as [|rawTable tables IH]; [reflexivity | exact IH]. Qed.

Lemma steps_panic tables : forall s,
  fold_left reflow.step tables (Some s) = None
  <-> Exists (fun rawTable => reflow.reflowTable rawTable = None) tables.
Proof.
  induction tables as [|rawTable tables IH]; intros s.
  - cbn [fold_left]. split; [discriminate | intros H; inversion H].
  - cbn [fold_left]. unfold reflow.step at 2. cbn [bind].
    destruct (reflow.reflowTable rawTable) as [r|] eqn:Er; cbn [bind].
    + assert (E : exists s', match r with
                             | Some table => Some (strings.Replace s rawTable table 1)
                             | None => Some s
                             end = Some s') by (destruct r; eauto).
      destruct E as [s' ->]. rewrite IH. split.
      * intros H. apply Exists_cons_tl. exact H.
      * intros H. inversion H as [? ? Hhd | ? ? Htl]; subst; [congruence | exact Htl].
    + rewrite steps_none. split; [|reflexivity]. intros _. apply Exists_cons_hd.
      exact Er.
Qed.

(** [Prettify] panics exactly on the texts in which a matched block of
    three lines or more has a separator row that does not have as many
    cells as the header row, or a row with more cells than the header row:
    there an index into [lengths] or [centered] is out of range. *)
Theorem Prettify_panics s :
  Prettify s = None
  <-> exists rawTable,
      In rawTable (FindAllString reflow.tableRe s)
      /\ 3 <= length (strings.FieldsFunc rawTable isNewline)
      /\ irregular (reflow.parseMatrix (strings.FieldsFunc rawTable isNewline)).
Proof.
  unfold Prettify.
  destruct (fold_left reflow.step (FindAllString reflow.tableRe s) (Some s))
    as [s'|] eqn:E; cbn [bind].
  - split; [discriminate|]. intros (rawTable & Hin & Hpanic).
    apply reflowTable_none in Hpanic.
    assert (Hex : Exists (fun rawTable => reflow.reflowTable rawTable = None)
                         (FindAllString reflow.tableRe s))
      by (apply Exists_exists; eauto).
    apply steps_panic with (s := s) in Hex. congruence.
  - split; [|reflexivity]. intros _. apply steps_panic in E.
    apply Exists_exists in E. destruct E as (rawTable & Hin & Hnone).
    exists rawTable. split; [exact Hin|]. apply reflowTable_none. exact Hnone.
Qed.

(** ** The cells of a reflowed block *)

(** The cell of row [i] and column [j] of a reflowed matrix: it is
    formatted with the alignment of the separator cell of the column and
    the width of the column. *)
Lemma formatMatrix_lookup matrix matrix' i j cell :
  reflow.formatMatrix matrix = Some matrix' ->
  cellAt matrix i j = Some cell ->
  exists c lengths,
    nth_error (reflow.centeredOf (nth 1 matrix [])) j = Some c
    /\ nth_error lengths j = Some (columnWidth matrix j)
    /\ reflow.formatCell (reflow.centeredOf (nth 1 matrix [])) lengths i j cell
       = cellAt matrix' i j
    /\ (i <> 1 -> (utf8.RuneCountInString cell <= columnWidth matrix j)%Z).
Proof.
  intros H Hcell.
  destruct (formatMatrix_cells _ _ H) as (lengths & Hcalc & _ & Hcells).
  specialize (Hcells i j). rewrite Hcell in Hcells.
  destruct Hcells as (cell' & E & Hf).
  destruct (formatCell_lookup _ _ _ _ _ _ Hf) as (c & len & Hc & Hl).
  pose proof (calcLengths_spec matrix) as Hspec. rewrite Hcalc in Hspec.
  destruct Hspec as (_ & Hlen & Hwidth).
  assert (Hj : j < length (nth 0 matrix [])).
  { rewrite <- Hlen. apply nth_error_Some. congruence. }
  assert (Elen : len = columnWidth matrix j).
  { rewrite <- (Hwidth j Hj). symmetry. apply nth_error_nth_Z. exact Hl. }
  exists c, lengths. split; [exact Hc|]. split; [congruence|].
  split; [congruence|]. intros Hi. unfold cellAt in Hcell.
  destruct (nth_error matrix i) as [row|] eqn:Hrow; [|discriminate].
  cbn [bind] in Hcell.
  pose proof (cellWidth_le_columnWidth matrix row j (row_measured _ _ _ Hrow Hi)) as Hle.
  unfold cellWidth in Hle. rewrite Hcell in Hle. exact Hle.
Qed.

(** In a column that is not centered, a header or body cell stands behind
    one space and in front of as many spaces as it is narrower than the
    column, and one more. *)
Theorem left_aligned_padding matrix matrix' i j cell :
  reflow.formatMatrix matrix = Some matrix' ->
  i <> 1 -> cellAt matrix i j = Some cell ->
  nth_error (reflow.centeredOf (nth 1 matrix [])) j = Some false ->
  let d := (columnWidth matrix j - utf8.RuneCountInString cell)%Z in
  (0 <= d)%Z
  /\ cellAt matrix' i j = Some ([SP] ++ cell ++ spaces (d + 1)).
Proof.
  intros H Hi Hcell Hcen d.
  destruct (formatMatrix_lookup _ _ _ _ _ H Hcell) as (c & lengths & Hc & Hl & Hf & Hw).
  specialize (Hw Hi). rewrite Hcen in Hc. injection Hc as <-.
  split; [unfold d; lia|]. rewrite <- Hf.
  rewrite (formatCell_content _ _ _ _ _ _ _ Hi Hcen Hl Hw).
  fold d. unfold rightPad, leftPad. replace (d + 2 - 1)%Z with (d + 1)%Z by lia.
  reflexivity.
Qed.

Lemma left_aligned_padding_witness :
  let matrix := reflow.parseMatrix (strings.FieldsFunc oneSidedTable isNewline) in
  reflow.formatMatrix matrix = Some [[lit " ab "]; [lit "----"]; [lit " c  "]]
  /\ 2 <> 1
  /\ cellAt matrix 2 0 = Some (lit "c")
  /\ nth_error (reflow.centeredOf (nth 1 matrix [])) 0 = Some false
  /\ cellAt [[lit " ab "]; [lit "----"]; [lit " c  "]] 2 0
     = Some ([SP] ++ lit "c" ++ spaces (1 + 1)).
Proof.
  intros matrix.
  assert (H1 : reflow.formatMatrix matrix
               = Some [[lit " ab "]; [lit "----"]; [lit " c  "]])
    by (vm_compute; reflexivity).
  assert (H2 : 2 <> 1) by discriminate.
  assert (H3 : cellAt matrix 2 0 = Some (lit "c")) by (vm_compute; reflexivity).
  assert (H4 : nth_error (reflow.centeredOf (nth 1 matrix [])) 0 = Some false)
    by (vm_compute; reflexivity).
  repeat (split; [assumption|]).
  exact (proj2 (left_aligned_padding matrix _ 2 0 (lit "c") H1 H2 H3 H4)).
Defined.

(** The separator row is made anew: the cell of a centered column is a
    colon, as many dashes as the column is wide and a colon; the cell of
    any other column is two dashes more than the column is wide, so a colon
    on one side only is lost.  A column is centered in the result exactly
    when it was. *)
Theorem separator_regenerated matrix matrix' j cell :
  reflow.formatMatrix matrix = Some matrix' ->
  cellAt matrix 1 j = Some cell ->
  let w := Z.to_nat (columnWidth matrix j) in
  let cell' := if reflow.isCentered cell
               then lit ":" ++ repeat "-"%char w ++ lit ":"
               else repeat "-"%char (w + 2) in
  cellAt matrix' 1 j = Some cell'
  /\ reflow.isCentered cell' = reflow.isCentered cell.
Proof.
  intros H Hcell w cell'.
  destruct (formatMatrix_lookup _ _ _ _ _ H Hcell) as (c & lengths & Hc & Hl & Hf & _).
  assert (Ec : c = reflow.isCentered cell).
  { unfold cellAt in Hcell.
    destruct (nth_error matrix 1) as [row|] eqn:Hrow; [|discriminate].
    cbn [bind] in Hcell. rewrite (nth_error_nth _ _ [] Hrow) in Hc.
    unfold reflow.centeredOf in Hc.
    rewrite (map_nth_error reflow.isCentered _ _ Hcell) in Hc. congruence. }
  pose proof (columnWidth_nonneg matrix j) as Hnn. split.
  - rewrite <- Hf, (formatCell_separator _ _ _ _ _ _ Hc Hl Hnn). f_equal.
    unfold cell'. rewrite <- Ec. destruct c; [reflexivity|]. f_equal.
    unfold w. lia.
  - unfold cell'. destruct (reflow.isCentered cell).
    + unfold reflow.isCentered, strings.HasSuffix.
      change (lit ":") with [":"%char]. rewrite !rev_app_distr. reflexivity.
    + replace (w + 2) with (S (S w)) by lia. reflexivity.
Qed.

Lemma separator_regenerated_witness :
  let matrix := reflow.parseMatrix (strings.FieldsFunc oneSidedTable isNewline) in
  reflow.formatMatrix matrix = Some [[lit " ab "]; [lit "----"]; [lit " c  "]]
  /\ cellAt matrix 1 0 = Some (lit ":-")
  /\ cellAt [[lit " ab "]; [lit "----"]; [lit " c  "]] 1 0 = Some (lit "----")
  /\ reflow.isCentered (lit "----") = reflow.isCentered (lit ":-").
Proof.
  intros matrix.
  assert (H1 : reflow.formatMatrix matrix
               = Some [[lit " ab "]; [lit "----"]; [lit " c  "]])
    by (vm_compute; reflexivity).
  assert (H2 : cellAt matrix 1 0 = Some (lit ":-")) by (vm_compute; reflexivity).
  repeat (split; [assumption|]).
  exact (separator_regenerated matrix _ 0 (lit ":-") H1 H2).
Defined.

Lemma formatRow_length centered lengths i row : forall j row',
  reflow.formatRow centered lengths i j row = Some row' -> length row' = length row.
Proof. intros j row' H. apply (formatRow_cells _ _ _ _ _ _ H). Qed.

Lemma formatRows_lengths centered lengths matrix : forall i matrix',
  reflow.formatRows centered lengths i matrix = Some matrix' ->
  map (@length str) matrix' = map (@length str) matrix.
Proof.
  induction matrix as [|row matrix IH]; intros i matrix' H.
  - injection H as <-. reflexivity.
  - cbn [reflow.formatRows] in H.
    destruct (reflow.formatRow centered lengths i 0 row) as [row'|] eqn:Er;
      [|discriminate].
    cbn [bind] in H.
    destruct (reflow.formatRows centered lengths (S i) matrix) as [matrix''|] eqn:Em;
      [|discriminate].
    cbn [bind] in H. injection H as <-. cbn [map]. f_equal.
    + apply (formatRow_length _ _ _ _ _ _ Er).
    + apply (IH _ _ Em).
Qed.

(** ** Reading a reflowed block again *)

Lemma Repeat_In s count r x : strings.Repeat s count = Some r -> In x r -> In x s.
Proof.
  unfold strings.Repeat. destruct (count <? 0)%Z; [discriminate|]. intros [= <-] H.
  apply in_concat in H. destruct H as (y & Hy & Hx). apply repeat_spec in Hy.
  subst. exact Hx.
Qed.

(** A formatted cell is made of the bytes of the cell, spaces, dashes and
    colons. *)
Lemma formatCell_bytes centered lengths i j cell cell' x :
  reflow.formatCell centered lengths i j cell = Some cell' -> In x cell' ->
  In x cell \/ x = SP \/ x = "-"%char \/ x = ":"%char.
Proof.
  unfold reflow.formatCell.
  assert (Hsp : forall n r, strings.Repeat [SP] n = Some r -> In x r -> x = SP).
  { intros n r Hr Hx. apply (Repeat_In _ _ _ _ Hr) in Hx.
    destruct Hx as [<- | []]. reflexivity. }
  assert (Hd : forall n r, strings.Repeat (lit "-") n = Some r -> In x r ->
                           x = "-"%char).
  { intros n r Hr Hx. apply (Repeat_In _ _ _ _ Hr) in Hx.
    destruct Hx as [<- | []]. reflexivity. }
  destruct (i =? 1).
  - destruct (nth_error centered j) as [c|]; [|discriminate]. cbn [bind].
    destruct (nth_error lengths j) as [len|];
      [|destruct c; discriminate].
    destruct c; cbn [bind].
    + destruct (strings.Repeat (lit "-") (reflow.max 0 len)) as [dashes|] eqn:Er;
        [|discriminate].
      cbn [bind]. intros [= <-] Hx. change (lit ":") with [":"%char] in Hx.
      cbn [app] in Hx. destruct Hx as [<- | Hx]; [auto|].
      apply in_app_or in Hx. destruct Hx as [Hx | [<- | []]]; [|auto].
      right. right. left. exact (Hd _ _ Er Hx).
    + intros Er Hx. right. right. left. exact (Hd _ _ Er Hx).
  - destruct (nth_error lengths j) as [len|]; [|discriminate]. cbn [bind].
    destruct (nth_error centered j) as [c|]; [|discriminate]. cbn [bind].
    destruct (strings.Repeat [SP] _) as [left|] eqn:El; [|discriminate]. cbn [bind].
    destruct (strings.Repeat [SP] _) as [right|] eqn:Er in |- *; [|discriminate].
    cbn [bind]. intros [= <-] Hx.
    apply in_app_or in Hx. destruct Hx as [Hx | Hx];
      [right; left; exact (Hsp _ _ El Hx)|].
    apply in_app_or in Hx. destruct Hx as [Hx | Hx].
    + right. left. destruct (_ <=? _)%Z; [destruct Hx as [<- | []]; reflexivity | destruct Hx].
    + apply in_app_or in Hx. destruct Hx as [Hx | Hx]; [left; exact Hx|].
      right. left. exact (Hsp _ _ Er Hx).
Qed.

(** A cell of a parsed block holds neither a pipe nor a newline. *)
Lemma parsed_cell_bytes rawTable row cell :
  In row (reflow.parseMatrix (strings.FieldsFunc rawTable isNewline)) ->
  In cell row -> ~ In "|"%char cell /\ ~ In NL cell.
Proof.
  intros Hrow Hcell. unfold reflow.parseMatrix in Hrow.
  apply in_map_iff in Hrow. destruct Hrow as (line & <- & Hline).
  unfold reflow.parseLine in Hcell. apply in_map_iff in Hcell.
  destruct Hcell as (w & <- & Hw). split.
  - intros Hin. apply TrimSpace_In in Hin.
    destruct (FieldsFunc_bytes _ _ _ _ Hw Hin) as [Hp _]. discriminate Hp.
  - intros Hin. apply TrimSpace_In in Hin.
    destruct (FieldsFunc_bytes _ _ _ _ Hw Hin) as [_ Hin'].
    apply Trim_In in Hin'.
    destruct (FieldsFunc_bytes _ _ _ _ Hline Hin') as [Hn _]. discriminate Hn.
Qed.

Lemma In_cellAt (matrix : list (list str)) row cell :
  In row matrix -> In cell row -> exists i j, cellAt matrix i j = Some cell.
Proof.
  intros Hrow Hcell. destruct (In_nth_error _ _ Hrow) as [i Hi].
  destruct (In_nth_error _ _ Hcell) as [j Hj]. exists i, j. unfold cellAt.
  rewrite Hi. exact Hj.
Qed.

(** The cells of the reflowed form of a parsed block hold neither a pipe
    nor a newline. *)
Lemma formatted_cell_bytes rawTable matrix' :
  reflow.formatMatrix (reflow.parseMatrix (strings.FieldsFunc rawTable isNewline))
  = Some matrix' ->
  Forall (Forall (fun cell => ~ In "|"%char cell /\ ~ In NL cell)) matrix'.
Proof.
  intros Hf. apply Forall_forall. intros row' Hrow'. apply Forall_forall.
  intros cell' Hcell'. destruct (In_cellAt _ _ _ Hrow' Hcell') as (i & j & Hc').
  destruct (formatMatrix_cells _ _ Hf) as (lengths & _ & _ & Hcells).
  specialize (Hcells i j).
  destruct (cellAt (reflow.parseMatrix (strings.FieldsFunc rawTable isNewline)) i j)
    as [cell|] eqn:Hc; [|congruence].
  destruct Hcells as (cell'' & E & Hfc). rewrite E in Hc'. injection Hc' as ->.
  destruct (cellAt_In _ _ _ _ Hc) as (row & _ & Hrow & Hcell).
  destruct (parsed_cell_bytes rawTable row cell Hrow Hcell) as [Hp Hn].
  split; intros Hin; destruct (formatCell_bytes _ _ _ _ _ _ _ Hfc Hin)
    as [H | [H | [H | H]]]; try discriminate H; auto.
Qed.

Lemma filter_isPipe_free c : ~ In "|"%char c -> filter isPipe c = [].
Proof.
  induction c as [|x c IH]; [reflexivity|]. intros H. cbn [filter].
  destruct (isPipe x) eqn:E.
  - exfalso. apply H. left. apply Ascii.eqb_eq in E. exact E.
  - apply IH. intros Hin. apply H. right. exact Hin.
Qed.

(** The pipes of a line of cells without pipes: one in front of each cell
    and one at the end, two for a row without cells. *)
Lemma lineOf_pipes row :
  Forall (fun cell => ~ In "|"%char cell) row ->
  length (filter isPipe (lineOf row)) = Nat.max 1 (length row) + 1.
Proof.
  intros H. unfold lineOf, tableLine. change (lit "|") with ["|"%char].
  rewrite !filter_app, !length_app. cbn [filter isPipe length].
  change (Ascii.eqb "|"%char "|"%char) with true. cbv iota. cbn [length].
  assert (E : length (filter isPipe (strings.Join row ["|"%char])) = length row - 1).
  { induction H as [|cell row Hc Hrow IH]; [reflexivity|].
    destruct row as [|cell2 row].
    - cbn [strings.Join length]. rewrite filter_isPipe_free by exact Hc. reflexivity.
    - rewrite Join_cons by discriminate. rewrite !filter_app, !length_app, IH.
      rewrite filter_isPipe_free by exact Hc. cbn. lia. }
  rewrite E. change (isPipe "|"%char) with true. cbv iota. cbn [length]. lia.
Qed.

(** The reflow keeps the rows and the cells.  The lines of the replacement
    of a block are those of the reflowed matrix: one line for each line of
    the block, made of a pipe, the cells joined by pipes, and a pipe; no
    cell holds a pipe or a newline, and each row has as many cells as the
    row it comes from.  So the number of pipes on a line of the
    replacement is the number of cells of the row of the block plus one
    (two for a row without cells): a row with fewer cells than the header
    row is not filled up. *)
Theorem reflow_keeps_shape rawTable table :
  reflow.reflowTable rawTable = Some (Some table) ->
  let matrix := reflow.parseMatrix (strings.FieldsFunc rawTable isNewline) in
  exists matrix',
    reflow.formatMatrix matrix = Some matrix'
    /\ strings.FieldsFunc table isNewline = map lineOf matrix'
    /\ table = text (map lineOf matrix')
    /\ map (@length str) matrix' = map (@length str) matrix
    /\ Forall (Forall (fun cell => ~ In "|"%char cell /\ ~ In NL cell)) matrix'
    /\ map (fun line => length (filter isPipe line)) (strings.FieldsFunc table isNewline)
       = map (fun row => Nat.max 1 (length row) + 1) matrix.
Proof.
  unfold reflow.reflowTable.
  destruct (length (strings.FieldsFunc rawTable isNewline) <? 3); [discriminate|].
  destruct (reflow.formatMatrix _) as [matrix'|] eqn:Hf; [|discriminate].
  cbn [bind]. intros [= <-].
  set (matrix := reflow.parseMatrix (strings.FieldsFunc rawTable isNewline)) in *.
  exists matrix'.
  pose proof (formatted_cell_bytes rawTable matrix' Hf) as Hbytes.
  assert (Elen : map (@length str) matrix' = map (@length str) matrix).
  { unfold reflow.formatMatrix in Hf.
    destruct (reflow.calcLengths _) as [lengths|]; [|discriminate].
    cbn [bind] in Hf. apply (formatRows_lengths _ _ _ _ _ Hf). }
  assert (Hlines : strings.FieldsFunc (reflow.buildTable matrix') isNewline
                   = map lineOf matrix').
  { rewrite buildTable_text. apply fields_text. rewrite Forall_map.
    eapply Forall_impl; [|exact Hbytes]. intros row Hrow. split.
    - unfold lineOf, tableLine. discriminate.
    - unfold lineOf, tableLine. change (lit "|") with ["|"%char].
      apply Forall_app. split; [repeat constructor|].
      apply Forall_app. split; [|repeat constructor].
      apply Forall_Join.
      + repeat constructor.
      + eapply Forall_impl; [|exact Hrow]. intros cell [_ Hn].
        apply Forall_forall. intros x Hx. apply Ascii.eqb_neq. intros ->.
        exact (Hn Hx). }
  split; [reflexivity|]. split; [exact Hlines|].
  split; [apply buildTable_text|]. split; [exact Elen|]. split; [exact Hbytes|].
  rewrite Hlines, map_map.
  transitivity (map (fun n => Nat.max 1 n + 1) (map (@length str) matrix')).
  - rewrite map_map. apply map_ext_in. intros row Hrow. apply lineOf_pipes.
    rewrite Forall_forall in Hbytes. eapply Forall_impl; [|exact (Hbytes row Hrow)].
    intros cell [Hp _]. exact Hp.
  - rewrite Elen, map_map. reflexivity.
Qed.

Lemma reflow_keeps_shape_witness :
  reflow.reflowTable shortRowTable
  = Some (Some (text [lit "| a | b |"; lit "|---|---|"; lit "| c |"]))
  /\ map (@length str)
         (reflow.parseMatrix (strings.FieldsFunc shortRowTable isNewline))
     = [2; 2; 1]
  /\ map (fun line => length (filter isPipe line))
         (strings.FieldsFunc (text [lit "| a | b |"; lit "|---|---|"; lit "| c |"])
                             isNewline)
     = [3; 3; 2]
  /\ exists matrix',
      reflow.formatMatrix
        (reflow.parseMatrix (strings.FieldsFunc shortRowTable isNewline))
      = Some matrix'
      /\ strings.FieldsFunc (text [lit "| a | b |"; lit "|---|---|"; lit "| c |"])
                            isNewline
         = map lineOf matrix'
      /\ text [lit "| a | b |"; lit "|---|---|"; lit "| c |"]
         = text (map lineOf matrix')
      /\ map (@length str) matrix'
         = map (@length str)
               (reflow.parseMatrix (strings.FieldsFunc shortRowTable isNewline))
      /\ Forall (Forall (fun cell => ~ In "|"%char cell /\ ~ In NL cell)) matrix'
      /\ map (fun line => length (filter isPipe line))
             (strings.FieldsFunc (text [lit "| a | b |"; lit "|---|---|"; lit "| c |"])
                                 isNewline)
         = map (fun row => Nat.max 1 (length row) + 1)
               (reflow.parseMatrix (strings.FieldsFunc shortRowTable isNewline)).
Proof.
  assert (H : reflow.reflowTable shortRowTable
              = Some (Some (text [lit "| a | b |"; lit "|---|---|"; lit "| c |"])))
    by (vm_compute; reflexivity).
  split; [exact H|]. split; [reflexivity|]. split; [reflexivity|].
  exact (reflow_keeps_shape shortRowTable _ H).
Defined.

(** A parsed block of three lines or more whose rows all have the same
    number of cells, at least one, and whose header and body cells are not
    empty, is a proper matrix. *)
Lemma parsed_proper rawTable n :
  3 <= length (strings.FieldsFunc rawTable isNewline) ->
  1 <= n ->
  Forall (fun row => length row = n)
         (reflow.parseMatrix (strings.FieldsFunc rawTable isNewline)) ->
  (forall i j cell,
      i <> 1 ->
      cellAt (reflow.parseMatrix (strings.FieldsFunc rawTable isNewline)) i j
      = Some cell ->
      cell <> []) ->
  properMatrix (reflow.parseMatrix (strings.FieldsFunc rawTable isNewline)).
Proof.
  intros Hlen Hn Hrows Hcells.
  set (matrix := reflow.parseMatrix (strings.FieldsFunc rawTable isNewline)) in *.
  assert (Hlm : 3 <= length matrix)
    by (unfold matrix, reflow.parseMatrix; rewrite length_map; exact Hlen).
  assert (Hsolid : forall i r, i <> 1 -> nth_error matrix i = Some r ->
                               Forall solidCell r).
  { intros i r Hi Hr. apply Forall_forall. intros cell Hcell.
    destruct (In_nth_error _ _ Hcell) as [j Hj].
    apply (parsed_cell_solid rawTable r cell).
    - fold matrix. eapply nth_error_In. exact Hr.
    - exact Hcell.
    - apply (Hcells i j cell Hi). unfold cellAt. rewrite Hr. exact Hj. }
  clearbody matrix.
  destruct matrix as [|header [|separator [|row body]]]; try (cbn in Hlm; lia).
  exists header, separator, (row :: body), n.
  split; [reflexivity|]. split; [discriminate|]. split; [exact Hn|].
  split; [exact Hrows|]. constructor.
  - apply (Hsolid 0); [lia | reflexivity].
  - apply Forall_forall. intros r Hr. destruct (In_nth_error _ _ Hr) as [k Hk].
    apply (Hsolid (S (S k))); [lia | exact Hk].
Qed.

(** The text of the reflowed form of a proper matrix is parsed into the
    header and body rows of the matrix, around the separator row made
    anew. *)
Lemma proper_reparsed matrix matrix' :
  properMatrix matrix -> reflow.formatMatrix matrix = Some matrix' ->
  exists header separator body separator',
    matrix = header :: separator :: body
    /\ reflow.parseMatrix (strings.FieldsFunc (reflow.buildTable matrix') isNewline)
       = header :: separator' :: body
    /\ nth_error matrix' 1 = Some separator'
    /\ map reflow.isCentered separator' = map reflow.isCentered separator.
Proof.
  intros Hproper Hformat.
  destruct (proper_formatted matrix matrix' Hproper Hformat)
    as (header & separator & body & tsh & sep' & tsb & -> & Hbody & -> & Hth & Htb
        & Hhne & Hbne & Hsne & Hsep & Hcen).
  destruct Hproper as (h0 & s0 & b0 & n & E & _ & _ & _ & Hsolid).
  injection E as <- <- <-.
  inversion Hsolid as [|? ? Hsh Hsb]; subst.
  assert (Htsh : tsh <> []) by (intros ->; apply Hhne; reflexivity).
  assert (Htsb : Forall (fun ts => ts <> [] /\ Forall solidCell (map content ts)) tsb).
  { rewrite Forall_map in Hbne, Hsb. apply Forall_forall. intros ts Hts.
    rewrite Forall_forall in Hbne, Hsb. split; [|apply Hsb, Hts].
    intros ->. apply (Hbne [] Hts). reflexivity. }
  exists (map content tsh), separator, (map (map content) tsb), sep'.
  split; [reflexivity|]. split; [|split; [reflexivity | exact Hcen]].
  set (matrix' := map render tsh :: sep' :: map (map render) tsb) in *.
  assert (Hline_h : lineBody (strings.Join (map render tsh) (lit "|"))
                    /\ lineOf (map render tsh) <> []
                    /\ Forall (fun x => isNewline x = false) (lineOf (map render tsh))).
  { apply lineOf_rendered; [exact Htsh|]. apply solid_content, Hsh. }
  assert (Hline_s : lineOf sep' <> []
                    /\ Forall (fun x => isNewline x = false) (lineOf sep')).
  { rewrite <- (render_plain sep').
    apply lineOf_rendered; [destruct sep'; [congruence | discriminate]|].
    rewrite Forall_map. eapply Forall_impl; [|exact Hsep].
    intros c Hc. cbn [content]. split; apply (separator_core c Hc). }
  assert (Hline_b : Forall (fun ts =>
                      lineBody (strings.Join (map render ts) (lit "|"))
                      /\ lineOf (map render ts) <> []
                      /\ Forall (fun x => isNewline x = false) (lineOf (map render ts)))
                           tsb).
  { eapply Forall_impl; [|exact Htsb]. intros ts [Hne Hs].
    apply lineOf_rendered; [exact Hne|]. apply solid_content, Hs. }
  assert (Hlines : Forall (fun l => l <> [] /\ Forall (fun c => isNewline c = false) l)
                          (map lineOf matrix')).
  { unfold matrix'. cbn [map]. constructor; [split; apply Hline_h|].
    constructor; [exact Hline_s|]. rewrite Forall_map, Forall_map.
    eapply Forall_impl; [|exact Hline_b]. intros ts Hts. split; apply Hts. }
  rewrite buildTable_text, fields_text by exact Hlines.
  unfold matrix', reflow.parseMatrix. cbn [map].
  rewrite parse_rendered_row by assumption.
  rewrite parse_separator_row by assumption. do 2 f_equal.
  rewrite !map_map. apply map_ext_in. intros ts Hts.
  rewrite Forall_forall in Htsb. apply parse_rendered_row; apply (Htsb ts Hts).
Qed.

(** The reflow changes no cell.  When the rows of a block all have the
    same number of cells, at least one, and no header or body cell is
    empty, the replacement of the block is parsed into the same header and
    body rows, and its separator row marks the same columns as centered. *)
Theorem reflow_keeps_cells rawTable table :
  reflow.reflowTable rawTable = Some (Some table) ->
  (exists n, 1 <= n
             /\ Forall (fun row => length row = n)
                       (reflow.parseMatrix (strings.FieldsFunc rawTable isNewline))) ->
  (forall i j cell,
      i <> 1 ->
      cellAt (reflow.parseMatrix (strings.FieldsFunc rawTable isNewline)) i j
      = Some cell ->
      cell <> []) ->
  let matrix := reflow.parseMatrix (strings.FieldsFunc rawTable isNewline) in
  let again := reflow.parseMatrix (strings.FieldsFunc table isNewline) in
  length again = length matrix
  /\ (forall i, i <> 1 -> nth_error again i = nth_error matrix i)
  /\ map reflow.isCentered (nth 1 again [])
     = map reflow.isCentered (nth 1 matrix []).
Proof.
  intros Hreflow (n & Hn & Hrows) Hcells matrix again.
  unfold reflow.reflowTable in Hreflow.
  destruct (Nat.ltb_spec (length (strings.FieldsFunc rawTable isNewline)) 3)
    as [|Hlen]; [discriminate|].
  fold matrix in Hreflow.
  destruct (reflow.formatMatrix matrix) as [matrix'|] eqn:Hformat; [|discriminate].
  cbn [bind] in Hreflow. injection Hreflow as <-.
  pose proof (parsed_proper rawTable n Hlen Hn Hrows Hcells) as Hproper.
  fold matrix in Hproper.
  destruct (proper_reparsed matrix matrix' Hproper Hformat)
    as (header & separator & body & separator' & Em & Ea & _ & Hcen).
  unfold again. rewrite Ea, Em. split; [reflexivity|]. split; [|exact Hcen].
  intros [|[|i]] Hi; [reflexivity | congruence | reflexivity].
Qed.

Lemma reflow_keeps_cells_witness :
  reflow.reflowTable tableA = Some (Some tableAReflowed)
  /\ reflow.parseMatrix (strings.FieldsFunc tableAReflowed isNewline)
     = [[lit "Name"; lit "Usage"];
        [lit "------"; lit "---------------------"];
        [lit "f"; lit "x"];
        [lit "foo"; lit "a long usage string"]]
  /\ forall i,
      i <> 1 ->
      nth_error (reflow.parseMatrix (strings.FieldsFunc tableAReflowed isNewline)) i
      = nth_error (reflow.parseMatrix (strings.FieldsFunc tableA isNewline)) i.
Proof.
  assert (H1 : reflow.reflowTable tableA = Some (Some tableAReflowed))
    by (vm_compute; reflexivity).
  assert (H2 : exists n, 1 <= n
                 /\ Forall (fun row => length row = n)
                           (reflow.parseMatrix (strings.FieldsFunc tableA isNewline))).
  { exists 2. split; [lia|]. vm_compute. repeat constructor. }
  assert (H3 : forall i j cell,
             i <> 1 ->
             cellAt (reflow.parseMatrix (strings.FieldsFunc tableA isNewline)) i j
             = Some cell ->
             cell <> []).
  { intros i j cell _ Hc. destruct (cellAt_In _ _ _ _ Hc) as (row & _ & Hrow & Hcell).
    vm_compute in Hrow.
    repeat (destruct Hrow as [<- | Hrow];
            [repeat (destruct Hcell as [<- | Hcell]; [discriminate|]);
             destruct Hcell|]).
    destruct Hrow. }
  split; [exact H1|]. split; [vm_compute; reflexivity|].
  exact (proj1 (proj2 (reflow_keeps_cells tableA tableAReflowed H1 H2 H3))).
Defined.

(** ** Texts that [Prettify] leaves as they are *)

Lemma replace_zero old new s : forall k, strings.replace old new 0 k s = skipn k s.
Proof.
  induction s as [|c s IH]; intros [|k]; try reflexivity. cbn. apply IH.
Qed.

Lemma HasPrefix_split old : forall s,
  strings.HasPrefix s old = true -> s = old ++ skipn (length old) s.
Proof.
  induction old as [|p old IH]; intros s H; [reflexivity|].
  destruct s as [|c s]; [discriminate|]. cbn [strings.HasPrefix] in H.
  apply andb_prop in H. destruct H as [Hc Hs]. apply Ascii.eqb_eq in Hc. subst c.
  cbn [app length skipn]. f_equal. apply IH, Hs.
Qed.

(** Replacing the first occurrence of a block by the block itself. *)
Lemma Replace_self raw : raw <> [] -> forall s, strings.Replace s raw raw 1 = s.
Proof.
  intros Hraw. unfold strings.Replace. induction s as [|c s IH]; [reflexivity|].
  cbn [strings.replace]. change (1 =? 0)%Z with false. cbv iota.
  destruct (strings.HasPrefix (c :: s) raw) eqn:Hp.
  - change (1 - 1)%Z with 0%Z. rewrite replace_zero.
    rewrite (HasPrefix_split raw (c :: s) Hp) at 1.
    destruct raw as [|p raw]; [congruence|]. cbn [length Nat.sub skipn].
    rewrite Nat.sub_0_r. reflexivity.
  - f_equal. exact IH.
Qed.

Lemma reflowed_nonempty raw table :
  reflow.reflowTable raw = Some (Some table) -> raw <> [].
Proof. intros H ->. discriminate H. Qed.

(** [Prettify] returns a text as it is when the final cleanup leaves the
    text alone and every matched block either has fewer than three lines
    or is its own reflowed form: the replacement of the first occurrence of
    such a block by its reflowed form changes nothing, wherever that
    occurrence is. *)
Theorem Prettify_unchanged t :
  (forall raw, In raw (FindAllString reflow.tableRe t) ->
               reflow.reflowTable raw = Some None
               \/ reflow.reflowTable raw = Some (Some raw)) ->
  reflow.cleanup t = t ->
  Prettify t = Some t.
Proof.
  intros Hblocks Hclean. unfold Prettify.
  assert (Hfold : forall tables s,
             (forall raw, In raw tables ->
                          reflow.reflowTable raw = Some None
                          \/ reflow.reflowTable raw = Some (Some raw)) ->
             fold_left reflow.step tables (Some s) = Some s).
  { induction tables as [|raw tables IH]; intros s H; [reflexivity|].
    cbn [fold_left]. unfold reflow.step at 2. cbn [bind].
    destruct (H raw (or_introl eq_refl)) as [E | E]; rewrite E; cbn [bind].
    - apply IH. intros r Hr. apply H. right. exact Hr.
    - rewrite Replace_self by (eapply reflowed_nonempty; exact E).
      apply IH. intros r Hr. apply H. right. exact Hr. }
  rewrite Hfold by exact Hblocks. cbn [bind]. rewrite Hclean. reflexivity.
Qed.

Lemma Prettify_unchanged_witness :
  FindAllString reflow.tableRe alignedDocument = [headerOnlyTable; tableAReflowed]
  /\ reflow.reflowTable headerOnlyTable = Some None
  /\ reflow.reflowTable tableAReflowed = Some (Some tableAReflowed)
  /\ reflow.cleanup alignedDocument = alignedDocument
  /\ Prettify alignedDocument = Some alignedDocument.
Proof.
  assert (H1 : FindAllString reflow.tableRe alignedDocument
               = [headerOnlyTable; tableAReflowed]) by (vm_compute; reflexivity).
  assert (H2 : reflow.reflowTable headerOnlyTable = Some None)
    by (vm_compute; reflexivity).
  assert (H3 : reflow.reflowTable tableAReflowed = Some (Some tableAReflowed))
    by (vm_compute; reflexivity).
  assert (H4 : reflow.cleanup alignedDocument = alignedDocument)
    by (vm_compute; reflexivity).
  repeat (split; [assumption|]).
  apply (Prettify_unchanged alignedDocument); [|exact H4].
  intros raw Hin. rewrite H1 in Hin.
  destruct Hin as [<- | [<- | []]]; [left; exact H2 | right; exact H3].
Defined.

(** ** The records of the tabular mode *)

Lemma PrepareCommand_fields appPath parent level c :
  let r := tabularTemplate.PrepareCommand appPath parent level c in
  commandRecord.AppPath r = appPath
  /\ cliTabularCommandTemplate.Level r = level
  /\ commandRecord.Aliases r = Command.Aliases c
  /\ commandRecord.Category r = Command.Category c
  /\ commandRecord.Usage r = tabularTemplate.PrepareMultilineString (Command.Usage c)
  /\ commandRecord.ArgsUsage r
     = tabularTemplate.PrepareMultilineString (Command.ArgsUsage c)
  /\ commandRecord.Description r
     = tabularTemplate.PrepareMultilineString (Command.Description c)
  /\ commandRecord.UsageText r = strings.FieldsFunc (Command.UsageText c) isNewline
  /\ cliTabularCommandTemplate.Flags r
     = tabularTemplate.PrepareFlags (Command.VisibleFlags c).
Proof. destruct c. repeat split; reflexivity. Qed.

(** The records below a command, in pre-order: one for each node of the
    tree, made from the node, the name handed down for its chain and its
    depth, counted as a [uint]. *)
Lemma PrepareCommand_flatten c : forall appPath level ancestors,
  flatten (tabularTemplate.PrepareCommand appPath (parentName ancestors)
                                          (levelAt level ancestors) c)
  = map (fun n => tabularTemplate.PrepareCommand
                    appPath (parentName (fst n)) (levelAt level (fst n)) (snd n))
        (nodesOf ancestors c).
Proof.
  induction c as [nm al u ut d au g h fl subs IH] using Command_ind'.
  intros appPath level ancestors.
  change subs with (Command.Commands (Command.mk nm al u ut d au g h fl subs)) in IH.
  generalize dependent (Command.mk nm al u ut d au g h fl subs). intros c IH.
  rewrite flatten_eq, nodesOf_eq. cbn [map fst snd]. f_equal.
  destruct (PrepareCommand_eq appPath (parentName ancestors)
                              (levelAt level ancestors) c) as [_ Hsubs].
  rewrite Hsubs.
  assert (Hpath : parentName ancestors ++ lit " " ++ Command.Name c
                  = parentName (ancestors ++ [c])).
  { unfold parentName. rewrite map_app, concat_app. cbn [map concat].
    rewrite app_nil_r. reflexivity. }
  assert (Hlevel : uintAdd (levelAt level ancestors) 1 = levelAt level (ancestors ++ [c])).
  { unfold uintAdd, levelAt. rewrite N.Div0.add_mod_idemp_l. f_equal.
    rewrite length_app. cbn [length]. lia. }
  rewrite Hpath, Hlevel.
  rewrite flat_map_concat_map, map_map, <- flat_map_concat_map, map_flat_map.
  apply flat_map_ext_in. eapply Forall_impl; [|exact IH].
  intros s Hs. apply Hs.
Qed.

Lemma PrepareCommands_flatten commands appPath level :
  (level < uintRange)%N ->
  flat_map flatten (tabularTemplate.PrepareCommands commands appPath [] level)
  = map (fun n => tabularTemplate.PrepareCommand
                    appPath (parentName (fst n)) (levelAt level (fst n)) (snd n))
        (nodes [] commands).
Proof.
  intros Hlevel. unfold tabularTemplate.PrepareCommands, nodes.
  rewrite flat_map_concat_map, map_map, <- flat_map_concat_map, map_flat_map.
  apply flat_map_ext_in, Forall_forall. intros c _.
  pose proof (PrepareCommand_flatten c appPath level []) as E.
  unfold levelAt at 1 in E. cbn [length parentName map concat N.of_nat] in E.
  rewrite N.add_0_r, (N.mod_small level uintRange Hlevel) in E. exact E.
Qed.

Lemma uintRange_pos : (0 < uintRange)%N.
Proof. reflexivity. Qed.

(** [PrepareCommands] makes one record for each command of the tree it is
    given, in pre-order, whether the command is hidden or not.  The record
    of a command has, as its name, the names of the commands above it and
    its own, joined by spaces and trimmed; as its level, the level given
    plus the depth of the command below the commands given, as a [uint]:
    modulo 2^64; the app path; and the aliases, the category and the
    prepared flags of the command. *)
Theorem tabular_records commands appPath level :
  (level < uintRange)%N ->
  let records :=
      flat_map flatten (tabularTemplate.PrepareCommands commands appPath [] level) in
  let all := nodes [] commands in
  length records = length all
  /\ map cliTabularCommandTemplate.Name records
     = map (fun n => strings.TrimSpace (chainName n)) all
  /\ map cliTabularCommandTemplate.Level records
     = map (fun n => ((level + N.of_nat (length (fst n))) mod 2 ^ 64)%N) all
  /\ map commandRecord.AppPath records = map (fun _ => appPath) all
  /\ map commandRecord.Aliases records = map (fun n => Command.Aliases (snd n)) all
  /\ map commandRecord.Category records = map (fun n => Command.Category (snd n)) all
  /\ map cliTabularCommandTemplate.Flags records
     = map (fun n => tabularTemplate.PrepareFlags (Command.VisibleFlags (snd n))) all.
Proof.
  intros Hlevel records all. unfold records, all.
  split; [rewrite PrepareCommands_flatten by exact Hlevel; apply length_map|].
  split; [apply PrepareCommands_names|].
  rewrite PrepareCommands_flatten by exact Hlevel.
  repeat split; rewrite map_map; apply map_ext; intros n;
    apply (PrepareCommand_fields appPath (parentName (fst n))
                                 (levelAt level (fst n)) (snd n)).
Qed.

Lemma tabular_records_witness :
  (2 ^ 64 - 1 < uintRange)%N
  /\ map cliTabularCommandTemplate.Level
         (flat_map flatten
                   (tabularTemplate.PrepareCommands [nestedHidden] (lit "app") []
                                                    (2 ^ 64 - 1)%N))
     = map (fun n => ((2 ^ 64 - 1 + N.of_nat (length (fst n))) mod 2 ^ 64)%N)
           (nodes [] [nestedHidden])
  /\ map (fun n => ((2 ^ 64 - 1 + N.of_nat (length (fst n))) mod 2 ^ 64)%N)
         (nodes [] [nestedHidden])
     = [(2 ^ 64 - 1)%N; 0%N; 1%N].
Proof.
  assert (H : (2 ^ 64 - 1 < uintRange)%N) by reflexivity.
  split; [exact H|]. split; [|reflexivity].
  exact (proj1 (proj2 (proj2 (tabular_records [nestedHidden] (lit "app")
                                              (2 ^ 64 - 1)%N H)))).
Defined.

(** ** Texts on one line *)

Lemma PrepareMultilineString_line s :
  ~ In NL (tabularTemplate.PrepareMultilineString s).
Proof.
  unfold tabularTemplate.PrepareMultilineString. intros H.
  unfold strings.TrimRight in H. apply in_rev, dropWhile_In, in_rev in H.
  apply TrimSpace_In in H. rewrite ReplaceAll_newlines in H.
  apply in_map_iff in H. destruct H as (c & Hc & _).
  destruct (Ascii.eqb_spec c NL) as [E|E]; [discriminate Hc | exact (E Hc)].
Qed.

Lemma fields_nonempty f s : forall cur w,
  (forall w0, cur = Some w0 -> w0 <> []) ->
  In w (strings.fields f cur s) -> w <> [].
Proof.
  induction s as [|x s IH]; intros cur w Hcur Hw.
  - destruct cur as [w0|]; [|destruct Hw]. destruct Hw as [<- | []].
    intros E. apply (Hcur w0 eq_refl). apply (f_equal (@rev ascii)) in E.
    rewrite rev_involutive in E. exact E.
  - cbn [strings.fields] in Hw. destruct (f x).
    + destruct cur as [w0|].
      * destruct Hw as [<- | Hw].
        -- intros E. apply (Hcur w0 eq_refl). apply (f_equal (@rev ascii)) in E.
           rewrite rev_involutive in E. exact E.
        -- apply (IH None w); [discriminate | exact Hw].
      * apply (IH None w); [discriminate | exact Hw].
    + apply (IH _ w) in Hw; [exact Hw|]. intros w0 [= <-]. discriminate.
Qed.

Lemma FieldsFunc_lines s : Forall oneLine (strings.FieldsFunc s isNewline).
Proof.
  apply Forall_forall. intros line Hline. split.
  - apply (fields_nonempty isNewline s None line); [discriminate | exact Hline].
  - intros Hin. destruct (FieldsFunc_bytes _ _ _ _ Hline Hin) as [Hn _].
    discriminate Hn.
Qed.

Lemma PrepareFlag_fields appFlag flag :
  let f := tabularTemplate.PrepareFlag appFlag flag in
  cliTabularFlagTemplate.Usage f = tabularTemplate.PrepareMultilineString (GetUsage flag)
  /\ cliTabularFlagTemplate.TakesValue f = TakesValue flag
  /\ cliTabularFlagTemplate.EnvVars f = GetEnvVars flag
  /\ cliTabularFlagTemplate.Default f
     = match appFlag with
       | BoolFlag Value _ => FormatBool Value
       | _ => GetValue flag
       end.
Proof.
  unfold tabularTemplate.PrepareFlag.
  destruct (Names flag) as [|n names]; [destruct appFlag; repeat split; reflexivity|].
  cbn [tabularTemplate.prepareNames Nat.eqb].
  match goal with
  | |- context [tabularTemplate.prepareNames 1 names ?f] =>
    destruct (prepareNames_later 0 names f) as (_ & _ & H3 & H4 & H5 & H6)
  end.
  cbv zeta. rewrite H3, H4, H5, H6. destruct appFlag; repeat split; reflexivity.
Qed.

Lemma PrepareFlags_lines flags :
  Forall (fun f => ~ In NL (cliTabularFlagTemplate.Usage f))
         (tabularTemplate.PrepareFlags flags).
Proof.
  rewrite PrepareFlags_flat_map. apply Forall_forall. intros f Hf.
  apply in_flat_map in Hf. destruct Hf as (appFlag & _ & Hf).
  destruct (asDocGenerationFlag appFlag) as [d|]; [|destruct Hf].
  destruct Hf as [<- | []].
  destruct (PrepareFlag_fields appFlag d) as [-> _].
  apply PrepareMultilineString_line.
Qed.

(** The texts that the tabular template puts into table cells and
    paragraphs are on one line: the usage, the argument usage and the
    description of the app and of every command, and the usage of every
    flag, hold no newline, and the usage text is cut into lines that are
    not empty. *)
Theorem tabular_texts_on_one_line (a : App.t) (opts : list TabularOption) :
  let data := tabularData a opts in
  ~ In NL (cliTabularAppTemplate.Usage data)
  /\ ~ In NL (cliTabularAppTemplate.ArgsUsage data)
  /\ ~ In NL (cliTabularAppTemplate.Description data)
  /\ Forall oneLine (cliTabularAppTemplate.UsageText data)
  /\ Forall (fun f => ~ In NL (cliTabularFlagTemplate.Usage f))
            (cliTabularAppTemplate.GlobalFlags data)
  /\ Forall (fun r => ~ In NL (commandRecord.Usage r)
                      /\ ~ In NL (commandRecord.ArgsUsage r)
                      /\ ~ In NL (commandRecord.Description r)
                      /\ Forall oneLine (commandRecord.UsageText r)
                      /\ Forall (fun f => ~ In NL (cliTabularFlagTemplate.Usage f))
                                (cliTabularCommandTemplate.Flags r))
            (flat_map flatten (cliTabularAppTemplate.Commands data)).
Proof.
  intros data. unfold data, tabularData. cbn [cliTabularAppTemplate.Usage
    cliTabularAppTemplate.ArgsUsage cliTabularAppTemplate.Description
    cliTabularAppTemplate.UsageText cliTabularAppTemplate.GlobalFlags
    cliTabularAppTemplate.Commands].
  split; [apply PrepareMultilineString_line|].
  split; [apply PrepareMultilineString_line|].
  split; [apply PrepareMultilineString_line|].
  split; [apply FieldsFunc_lines|].
  split; [apply PrepareFlags_lines|].
  rewrite PrepareCommands_flatten by apply uintRange_pos.
  apply Forall_forall. intros r Hr.
  apply in_map_iff in Hr. destruct Hr as (n & <- & _).
  destruct (PrepareCommand_fields (tabularOptions.appPath (applyOptions opts))
                                  (parentName (fst n)) (levelAt 0 (fst n)) (snd n))
    as (_ & _ & _ & _ & -> & -> & -> & -> & ->).
  split; [apply PrepareMultilineString_line|].
  split; [apply PrepareMultilineString_line|].
  split; [apply PrepareMultilineString_line|].
  split; [apply FieldsFunc_lines | apply PrepareFlags_lines].
Qed.

(** ** The app path *)

Lemma last_default {A : Type} (l : list A) d d' : l <> [] -> last l d = last l d'.
Proof.
  induction l as [|x l IH]; [congruence|]. intros _.
  destruct l as [|y l]; [reflexivity|]. apply IH. discriminate.
Qed.

Lemma applyOptions_paths paths : forall o,
  tabularOptions.appPath
    (fold_left (fun o (opt : TabularOption) => opt o) (map WithTabularAppPath paths) o)
  = last paths (tabularOptions.appPath o).
Proof.
  induction paths as [|p paths IH]; intros o; [reflexivity|].
  cbn [map fold_left]. rewrite IH. cbn [WithTabularAppPath tabularOptions.appPath].
  destruct paths as [|q paths]; [reflexivity|].
  apply (last_default (q :: paths)). discriminate.
Qed.

(** The app path of the tabular template is the path of the last
    [WithTabularAppPath] option, [app] without such an option, and every
    record of a command carries it. *)
Theorem tabular_app_path (a : App.t) (paths : list str) :
  let data := tabularData a (map WithTabularAppPath paths) in
  cliTabularAppTemplate.AppPath data = last paths (lit "app")
  /\ Forall (fun r => commandRecord.AppPath r = last paths (lit "app"))
            (flat_map flatten (cliTabularAppTemplate.Commands data)).
Proof.
  intros data. unfold data, tabularData, applyOptions.
  cbn [cliTabularAppTemplate.AppPath cliTabularAppTemplate.Commands].
  rewrite applyOptions_paths. cbn [tabularOptions.appPath]. split; [reflexivity|].
  rewrite PrepareCommands_flatten by apply uintRange_pos.
  apply Forall_forall. intros r Hr.
  apply in_map_iff in Hr. destruct Hr as (n & <- & _).
  apply (PrepareCommand_fields (last paths (lit "app"))
                               (parentName (fst n)) (levelAt 0 (fst n)) (snd n)).
Qed.

(** ** The usage text of the flowing mode *)

Lemma splitOn_nonempty sep s : forall cur, strings.splitOn sep cur s <> [].
Proof.
  induction s as [|c s IH]; intros cur; cbn [strings.splitOn]; [discriminate|].
  destruct (Ascii.eqb c sep); [discriminate | apply IH].
Qed.

(** [Split] loses nothing: the fields joined by the separator are the
    string. *)
Lemma splitOn_Join sep s : forall cur,
  strings.Join (strings.splitOn sep cur s) [sep] = rev cur ++ s.
Proof.
  induction s as [|c s IH]; intros cur; cbn [strings.splitOn].
  - cbn [strings.Join]. rewrite app_nil_r. reflexivity.
  - destruct (Ascii.eqb_spec c sep) as [->|Hc].
    + rewrite Join_cons by apply splitOn_nonempty. rewrite IH. reflexivity.
    + rewrite IH. cbn [rev]. rewrite <- app_assoc. reflexivity.
Qed.

Lemma splitOn_fields sep s : forall cur,
  ~ In sep cur -> Forall (fun l => ~ In sep l) (strings.splitOn sep cur s).
Proof.
  induction s as [|c s IH]; intros cur Hcur; cbn [strings.splitOn].
  - constructor; [|constructor]. intros H. apply in_rev in H. exact (Hcur H).
  - destruct (Ascii.eqb_spec c sep) as [->|Hc].
    + constructor; [intros H; apply in_rev in H; exact (Hcur H)|].
      apply IH. intros [].
    + apply IH. intros [E | H]; [exact (Hc E) | exact (Hcur H)].
Qed.

Lemma splitOn_length sep s : forall cur,
  In sep s -> 2 <= length (strings.splitOn sep cur s).
Proof.
  induction s as [|c s IH]; intros cur H; [destruct H|].
  cbn [strings.splitOn]. destruct (Ascii.eqb_spec c sep) as [->|Hc].
  - cbn [length]. pose proof (splitOn_nonempty sep s []) as Hne.
    destruct (strings.splitOn sep [] s); [congruence | cbn; lia].
  - apply IH. destruct H as [E | H]; [congruence | exact H].
Qed.

Lemma Contains_byte s c : strings.Contains s [c] = true <-> In c s.
Proof.
  induction s as [|x s IH].
  - cbn. split; [discriminate | intros []].
  - cbn [strings.Contains strings.HasPrefix]. rewrite andb_true_r. split.
    + intros H. apply orb_prop in H. destruct H as [H | H].
      * left. apply Ascii.eqb_eq. exact H.
      * right. apply IH, H.
    + intros [-> | H]; [rewrite Ascii.eqb_refl; reflexivity|].
      apply orb_true_intro. right. apply IH, H.
Qed.

Lemma dropWhile_all p s :
  strings.dropWhile p s = [] -> Forall (fun c => p c = true) s.
Proof.
  induction s as [|c s IH]; [constructor|]. cbn [strings.dropWhile].
  destruct (p c) eqn:Ec; [|discriminate]. intros H. constructor; [exact Ec | exact (IH H)].
Qed.

Lemma dropWhile_app_stop p a b :
  strings.dropWhile p a <> [] ->
  strings.dropWhile p (a ++ b) = strings.dropWhile p a ++ b.
Proof.
  induction a as [|c a IH]; [intros H; exfalso; apply H; reflexivity|].
  cbn [app strings.dropWhile]. destruct (p c); [exact IH | reflexivity].
Qed.

(** [Trim] does not see bytes of the cutset added at the ends. *)
Lemma Trim_padding cutset l u r :
  Forall (fun c => strings.inSet cutset c = true) l ->
  Forall (fun c => strings.inSet cutset c = true) r ->
  strings.Trim (l ++ u ++ r) cutset = strings.Trim u cutset.
Proof.
  intros Hl Hr. unfold strings.Trim, strings.TrimLeft, strings.TrimRight.
  rewrite !rev_app_distr, <- app_assoc.
  rewrite dropWhile_app_all by (apply Forall_rev; exact Hr).
  destruct (strings.dropWhile (strings.inSet cutset) (rev u)) as [|x xs] eqn:Ex.
  - rewrite dropWhile_app_all by (apply dropWhile_all; exact Ex).
    assert (E : strings.dropWhile (strings.inSet cutset) (rev l) = []).
    { rewrite <- (app_nil_r (rev l)).
      rewrite dropWhile_app_all by (apply Forall_rev; exact Hl). reflexivity. }
    rewrite E. reflexivity.
  - rewrite dropWhile_app_stop by (rewrite Ex; discriminate).
    rewrite Ex, rev_app_distr, rev_involutive.
    apply dropWhile_app_all. exact Hl.
Qed.

Lemma prepareUsageText_eq command :
  prepareUsageText command
  = match Command.UsageText command with
    | [] => []
    | _ =>
      let t := strings.Trim (Command.UsageText command) [NL] in
      if strings.Contains t [NL]
      then flat_map (fun ln => lit "    " ++ ln ++ [NL]) (strings.Split t NL)
      else lit ">" ++ t ++ [NL]
    end.
Proof.
  unfold prepareUsageText. destruct (Command.UsageText command); [reflexivity|].
  cbv zeta. destruct (strings.Contains _ _); [|reflexivity].
  rewrite (fold_left_append (fun ln => lit "    " ++ ln ++ [NL])). reflexivity.
Qed.

(** [prepareUsageText] returns the empty string for the empty usage text
    only; so the usage of a command, with its newline, is followed by a
    blank line in the block of the command exactly when the command has a
    usage text, be it one of newlines only. *)
Theorem usage_blank_line command :
  (prepareUsageText command = [] <-> Command.UsageText command = [])
  /\ prepareUsage command (prepareUsageText command)
     = match Command.Usage command, Command.UsageText command with
       | [], _ => []
       | _, [] => Command.Usage command ++ [NL]
       | _, _ => Command.Usage command ++ [NL; NL]
       end.
Proof.
  assert (H : prepareUsageText command = [] <-> Command.UsageText command = []).
  { rewrite prepareUsageText_eq. destruct (Command.UsageText command) as [|c u] eqn:Eu.
    - split; reflexivity.
    - cbv zeta. split; [|discriminate].
      destruct (strings.Contains _ _); [|discriminate].
      unfold strings.Split.
      pose proof (splitOn_nonempty NL (strings.Trim (c :: u) [NL]) []) as Hne.
      destruct (strings.splitOn NL [] (strings.Trim (c :: u) [NL])); [congruence|].
      discriminate. }
  split; [exact H|]. unfold prepareUsage.
  destruct (Command.Usage command) as [|x usage]; [reflexivity|].
  destruct (prepareUsageText command) as [|y text] eqn:Et.
  - rewrite (proj1 H eq_refl). reflexivity.
  - destruct (Command.UsageText command) as [|z u].
    + destruct H as [_ H]. discriminate (H eq_refl).
    + rewrite <- app_assoc. reflexivity.
Qed.

(** Newlines in front of and behind a usage text that is not empty make no
    difference. *)
Theorem usage_text_newlines command command' l r :
  Command.UsageText command <> [] ->
  Forall (fun c => c = NL) l -> Forall (fun c => c = NL) r ->
  Command.UsageText command' = l ++ Command.UsageText command ++ r ->
  prepareUsageText command' = prepareUsageText command.
Proof.
  intros Hne Hl Hr E. rewrite !prepareUsageText_eq, E.
  assert (Hcut : forall x, Forall (fun c => c = NL) x ->
                           Forall (fun c => strings.inSet [NL] c = true) x).
  { intros x Hx. eapply Forall_impl; [|exact Hx]. intros c ->. reflexivity. }
  rewrite (Trim_padding [NL] l _ r (Hcut l Hl) (Hcut r Hr)).
  destruct (Command.UsageText command) as [|c u]; [congruence|].
  destruct (l ++ (c :: u) ++ r) eqn:E'; [|reflexivity].
  apply app_eq_nil in E'. destruct E' as [_ E']. discriminate E'.
Qed.

Lemma usage_text_newlines_witness :
  Command.UsageText usageCommand <> []
  /\ Command.UsageText usageCommandPadded
     = [NL; NL] ++ Command.UsageText usageCommand ++ [NL]
  /\ prepareUsageText usageCommandPadded = prepareUsageText usageCommand.
Proof.
  assert (H1 : Command.UsageText usageCommand <> []) by discriminate.
  assert (H2 : Command.UsageText usageCommandPadded
               = [NL; NL] ++ Command.UsageText usageCommand ++ [NL]) by reflexivity.
  split; [exact H1|]. split; [exact H2|].
  apply (usage_text_newlines usageCommand usageCommandPadded [NL; NL] [NL] H1);
    [repeat constructor | repeat constructor | exact H2].
Defined.

(** A usage text without a newline, once the newlines at its ends are cut
    off, is rendered as a note on one line; any other one as a code block,
    each of its lines behind four spaces and in front of a newline, and
    the lines, joined by newlines, are the text. *)
Theorem usage_text_lines command :
  Command.UsageText command <> [] ->
  let t := strings.Trim (Command.UsageText command) [NL] in
  (~ In NL t /\ prepareUsageText command = lit ">" ++ t ++ [NL])
  \/ (In NL t
      /\ exists lines,
          2 <= length lines
          /\ strings.Join lines [NL] = t
          /\ Forall (fun ln => ~ In NL ln) lines
          /\ prepareUsageText command
             = concat (map (fun ln => lit "    " ++ ln ++ [NL]) lines)).
Proof.
  intros Hne t. rewrite prepareUsageText_eq.
  destruct (Command.UsageText command) as [|c u] eqn:Eu; [congruence|].
  cbv zeta. fold t. destruct (strings.Contains t [NL]) eqn:Ec.
  - right. apply Contains_byte in Ec. split; [exact Ec|].
    exists (strings.Split t NL). unfold strings.Split.
    split; [apply splitOn_length; exact Ec|].
    split; [apply (splitOn_Join NL t [])|].
    split; [apply splitOn_fields; intros []|].
    apply flat_map_concat_map.
  - left. split; [|reflexivity]. intros Hin. apply Contains_byte in Hin. congruence.
Qed.

Lemma usage_text_lines_witness :
  Command.UsageText usageCommand <> []
  /\ let t := strings.Trim (Command.UsageText usageCommand) [NL] in
     (~ In NL t /\ prepareUsageText usageCommand = lit ">" ++ t ++ [NL])
     \/ (In NL t
         /\ exists lines,
             2 <= length lines
             /\ strings.Join lines [NL] = t
             /\ Forall (fun ln => ~ In NL ln) lines
             /\ prepareUsageText usageCommand
                = concat (map (fun ln => lit "    " ++ ln ++ [NL]) lines)).
Proof.
  assert (H : Command.UsageText usageCommand <> []) by discriminate.
  split; [exact H|]. exact (usage_text_lines usageCommand H).
Defined.

(** ** The flags of the tabular mode *)

Lemma map_PrepareFlags {B : Type} (g : cliTabularFlagTemplate.t -> B)
      (h : Flag -> DocGenerationFlag -> B) flags :
  (forall f d, g (tabularTemplate.PrepareFlag f d) = h f d) ->
  map g (tabularTemplate.PrepareFlags flags)
  = flat_map (fun f => match asDocGenerationFlag f with
                       | Some d => [h f d]
                       | None => []
                       end) flags.
Proof.
  intros Hgh. rewrite PrepareFlags_flat_map.
  induction flags as [|f flags IH]; [reflexivity|].
  cbn [flat_map]. rewrite map_app, IH. f_equal.
  destruct (asDocGenerationFlag f) as [d|]; [|reflexivity].
  cbn [map]. rewrite Hgh. reflexivity.
Qed.

Lemma map_docFlags {B : Type} (k : DocGenerationFlag -> B) flags :
  map k (docFlags flags)
  = flat_map (fun f => match asDocGenerationFlag f with
                       | Some d => [k d]
                       | None => []
                       end) flags.
Proof.
  unfold docFlags. induction flags as [|f flags IH]; [reflexivity|].
  cbn [flat_map]. rewrite map_app, IH. f_equal.
  destruct (asDocGenerationFlag f); reflexivity.
Qed.

(** [PrepareFlags] makes one record for each flag that implements
    [DocGenerationFlag], in the order in which the flags are given: unlike
    the strings of the flowing mode, which are as many, the records are not
    sorted.  A record has the prepared usage of its flag and, as default,
    [true] or [false] for a [BoolFlag], whatever the flag returns as its
    value, and the value of the flag for any other flag. *)
Theorem tabular_flags flags :
  let records := tabularTemplate.PrepareFlags flags in
  map cliTabularFlagTemplate.Name records
  = map (fun d => match Names d with
                  | [] => []
                  | n :: _ => lit "--" ++ strings.TrimSpace n
                  end) (docFlags flags)
  /\ map cliTabularFlagTemplate.Usage records
     = map (fun d => tabularTemplate.PrepareMultilineString (GetUsage d)) (docFlags flags)
  /\ map cliTabularFlagTemplate.TakesValue records = map TakesValue (docFlags flags)
  /\ map cliTabularFlagTemplate.EnvVars records = map GetEnvVars (docFlags flags)
  /\ map cliTabularFlagTemplate.Default records
     = flat_map (fun f => match f with
                          | BoolFlag Value _ => [FormatBool Value]
                          | DocFlag d => [GetValue d]
                          | PlainFlag => []
                          end) flags
  /\ length (prepareArgsWithValues flags) = length records
  /\ length (prepareArgsSynopsis flags) = length records.
Proof.
  intros records. unfold records.
  assert (Hlen : forall sep opener closer value addDetails,
             length (prepareFlags flags sep opener closer value addDetails)
             = length (tabularTemplate.PrepareFlags flags)).
  { intros. rewrite prepareFlags_map, (Permutation_length (Strings_perm _)).
    rewrite <- (length_map cliTabularFlagTemplate.Usage (tabularTemplate.PrepareFlags flags)).
    rewrite (map_PrepareFlags _ (fun _ d => tabularTemplate.PrepareMultilineString
                                              (GetUsage d))).
    - rewrite <- map_docFlags, !length_map. reflexivity.
    - intros f d. apply (PrepareFlag_fields f d). }
  split; [|split; [|split; [|split; [|split; [|split]]]]].
  - rewrite map_docFlags. apply map_PrepareFlags. intros f d.
    apply (PrepareFlag_names f d).
  - rewrite map_docFlags. apply map_PrepareFlags. intros f d.
    apply (PrepareFlag_fields f d).
  - rewrite map_docFlags. apply map_PrepareFlags. intros f d.
    apply (PrepareFlag_fields f d).
  - rewrite map_docFlags. apply map_PrepareFlags. intros f d.
    apply (PrepareFlag_fields f d).
  - rewrite (map_PrepareFlags _ (fun f d => match f with
                                            | BoolFlag Value _ => FormatBool Value
                                            | _ => GetValue d
                                            end)).
    + apply flat_map_ext. intros [v d|d|]; reflexivity.
    + intros f d. apply (PrepareFlag_fields f d).
  - apply Hlen.
  - apply Hlen.
Qed.

(** ** Texts of aligned tables *)





